(** * Binomial option pricing (app.js): a verified model

    The pricing engine of [app.js] computes with JavaScript numbers, that is
    IEEE 754 binary64 values, NaN and the infinities included.  Part I
    builds an executable model of binary64 arithmetic, part II embeds the
    functions of [app.js] over it, part III proves the order properties of
    the arithmetic and part IV the properties of the specification.
    Parts V to XI prove further properties of the pricing functions and
    of the page that shows their results.

    What the model leaves out:
    - [Math.exp] and [**] are parameters of the embedding, since ECMAScript
      does not fix their last bit; [reference_libm] is one implementation,
      used to run the model;
    - an array is a list: the RangeError that [Array.from] raises past
      2^32 - 1 elements is modelled, the memory of the engine is not;
    - loop counters over validated step counts are natural numbers, which
      is what the binary64 counters are below 2^53;
    - the iteration cap of the bisection is a natural number;
    - the [while] loop of the convergence driver, which nothing bounds in
      general, runs on a count of turns. *)

From Stdlib Require Import ZArith Lia List String Bool SpecFloat.
Import ListNotations.
Local Open Scope Z_scope.

(** ** Part I.  IEEE 754 binary64

    Every finite binary64 value is an integer multiple of 2^-1074, the
    smallest subnormal.  A finite value is therefore stored as the integer
    [k] that counts these units; the negative zero has a constructor of its
    own.  An operation computes its exact rational result and rounds it to
    the nearest value of the binary64 grid, ties to even. *)

Module F64.

Inductive float64 : Type :=
| NaN
| Inf (neg : bool)
| NZero
| Fin (k : Z).

(** Powers of two, by shifting. *)
Definition pow2 (e : Z) : Z := Z.shiftl 1 e.

(** The number 1 counts [unit_scale] units. *)
Definition unit_scale : Z := pow2 1074.

(** Rounded magnitudes from 2^1024 on overflow to an infinity. *)
Definition overflow_threshold : Z := pow2 2098.

(** Nearest integer to [a / 2^t], ties to even ([0 <= a], [0 <= t]). *)
Definition rne (a t : Z) : Z :=
  let q := Z.shiftr a t in
  let r := a - Z.shiftl q t in
  match Z.compare (2 * r) (pow2 t) with
  | Lt => q
  | Gt => q + 1
  | Eq => if Z.even q then q else q + 1
  end.

(** Below 2^53 units the grid has spacing 1; in the binade
    [2^(52+s), 2^(53+s)) it has spacing [2^s].  [grid_shift a e] is the
    [s] of the binade of [a / 2^e]. *)
Definition grid_shift (a e : Z) : Z :=
  Z.max 0 (Z.log2 (Z.shiftr a e) - 52).

Definition round_mag (a e : Z) : Z :=
  let s := grid_shift a e in Z.shiftl (rne a (e + s)) s.

(** [round neg a e]: the binary64 value nearest to the number of magnitude
    [a / 2^e] units and of sign [neg] ([0 <= a], [0 <= e]). *)
Definition round (neg : bool) (a e : Z) : float64 :=
  let m := round_mag a e in
  if overflow_threshold <=? m then Inf neg
  else if m =? 0 then (if neg then NZero else Fin 0)
  else Fin (if neg then - m else m).

(** Rounding of a ratio [a / b] of integers ([0 <= a], [0 < b]): the
    quotient with two guard bits and a sticky bit lies on the same side of
    every rounding boundary as the ratio itself. *)
Definition round_ratio (neg : bool) (a b : Z) : float64 :=
  let (q, r) := Z.div_eucl (4 * a) b in
  round neg (if r =? 0 then 2 * q else 2 * q + 1) 3.

Definition toZ (x : float64) : Z :=
  match x with Fin k => k | _ => 0 end.

Definition signbit (x : float64) : bool :=
  match x with
  | NaN => false
  | Inf s => s
  | NZero => true
  | Fin k => k <? 0
  end.

Definition isNaN (x : float64) : bool :=
  match x with NaN => true | _ => false end.

Definition zero : float64 := Fin 0.
Definition one : float64 := Fin unit_scale.

(** Unary minus. *)
Definition neg (x : float64) : float64 :=
  match x with
  | NaN => NaN
  | Inf s => Inf (negb s)
  | NZero => Fin 0
  | Fin k => if k =? 0 then NZero else Fin (- k)
  end.

Definition abs (x : float64) : float64 :=
  match x with
  | NaN => NaN
  | Inf _ => Inf false
  | NZero => Fin 0
  | Fin k => Fin (Z.abs k)
  end.

Definition add (x y : float64) : float64 :=
  match x, y with
  | NaN, _ | _, NaN => NaN
  | Inf a, Inf b => if Bool.eqb a b then Inf a else NaN
  | Inf a, _ => Inf a
  | _, Inf b => Inf b
  | NZero, NZero => NZero
  | _, _ => let s := toZ x + toZ y in round (s <? 0) (Z.abs s) 0
  end.

Definition sub (x y : float64) : float64 := add x (neg y).

Definition mul (x y : float64) : float64 :=
  match x, y with
  | NaN, _ | _, NaN => NaN
  | Inf a, Inf b => Inf (xorb a b)
  | Inf a, _ => if toZ y =? 0 then NaN else Inf (xorb a (signbit y))
  | _, Inf b => if toZ x =? 0 then NaN else Inf (xorb (signbit x) b)
  | _, _ =>
      round (xorb (signbit x) (signbit y)) (Z.abs (toZ x * toZ y)) 1074
  end.

Definition div (x y : float64) : float64 :=
  match x, y with
  | NaN, _ | _, NaN => NaN
  | Inf _, Inf _ => NaN
  | Inf a, _ => Inf (xorb a (signbit y))
  | _, Inf b => if xorb (signbit x) b then NZero else Fin 0
  | _, _ =>
      let s := xorb (signbit x) (signbit y) in
      if toZ y =? 0 then (if toZ x =? 0 then NaN else Inf s)
      else round_ratio s (Z.abs (toZ x) * unit_scale) (Z.abs (toZ y))
  end.

(** Square root: the integer square root with two guard bits and a sticky
    bit, as in [round_ratio]. *)
Definition sqrt (x : float64) : float64 :=
  match x with
  | NaN => NaN
  | Inf s => if s then NaN else Inf false
  | NZero => NZero
  | Fin k =>
      if k <? 0 then NaN
      else
        let n := k * unit_scale * 16 in
        let r := Z.sqrt n in
        round false (if r * r =? n then 2 * r else 2 * r + 1) 3
  end.

(** The comparisons [<], [<=] and [===] of JavaScript numbers. *)
Definition ltb (x y : float64) : bool :=
  match x, y with
  | NaN, _ | _, NaN => false
  | Inf a, Inf b => a && negb b
  | Inf a, _ => a
  | _, Inf b => negb b
  | _, _ => toZ x <? toZ y
  end.

Definition leb (x y : float64) : bool :=
  match x, y with
  | NaN, _ | _, NaN => false
  | Inf a, Inf b => a || negb b
  | Inf a, _ => a
  | _, Inf b => negb b
  | _, _ => toZ x <=? toZ y
  end.

Definition eqb (x y : float64) : bool :=
  match x, y with
  | NaN, _ | _, NaN => false
  | Inf a, Inf b => Bool.eqb a b
  | Inf _, _ | _, Inf _ => false
  | _, _ => toZ x =? toZ y
  end.

Definition gtb (x y : float64) : bool := ltb y x.
Definition geb (x y : float64) : bool := leb y x.

(** [Math.max] of two arguments: NaN is contagious and +0 exceeds -0. *)
Definition max (x y : float64) : float64 :=
  match x, y with
  | NaN, _ | _, NaN => NaN
  | _, _ =>
      if ltb x y then y
      else if ltb y x then x
      else if signbit x then y else x
  end.

(** [Number.isInteger]. *)
Definition isInteger (x : float64) : bool :=
  match x with
  | NaN | Inf _ => false
  | NZero => true
  | Fin k => Z.shiftl (Z.shiftr k 1074) 1074 =? k
  end.

(** The integer part of a non-negative value, as a loop bound. *)
Definition to_nat (x : float64) : nat := Z.to_nat (Z.shiftr (toZ x) 1074).

Definition of_Z (z : Z) : float64 :=
  round (z <? 0) (Z.abs z * unit_scale) 0.

Definition of_nat (j : nat) : float64 := of_Z (Z.of_nat j).

(** The decimal literal [m]e[e], correctly rounded: [dec 1 (-4)] is the
    number written [1e-4]. *)
Definition dec (m e : Z) : float64 :=
  if 0 <=? e then round (m <? 0) (Z.abs m * 10 ^ e * unit_scale) 0
  else round_ratio (m <? 0) (Z.abs m * unit_scale) (10 ^ (- e)).

(** *** Notions used to state the properties of the arithmetic *)

(** The finite values, zeros included. *)
Definition finite (x : float64) : bool :=
  match x with NZero | Fin _ => true | _ => false end.

(** Rounding of the signed number [z / 2^e] units. *)
Definition rnd (z e : Z) : float64 := round (z <? 0) (Z.abs z) e.

(** The comparisons do not see the sign of a zero. *)
Definition unsigned_zero (x : float64) : float64 :=
  match x with NZero => Fin 0 | _ => x end.

(** [x <= y], or one of the two is NaN. *)
Definition ordered (x y : float64) : bool := isNaN x || isNaN y || leb x y.

(** *** The functions ECMAScript leaves to the implementation

    [Math.exp] and the exponentiation operator [**] are
    "implementation-approximated" in ECMAScript: engines differ in the last
    bit.  The program is therefore embedded over any implementation of the
    two, and [reference_libm] below is one of them, used to run the model. *)

Class Libm : Type := {
  Math_exp : float64 -> float64;
  Math_pow : float64 -> float64 -> float64
}.

(** Fixed-point numbers with 128 fractional bits. *)
Definition fx_bits : Z := 128.
Definition fx_one : Z := pow2 fx_bits.
Definition fx_mul (x y : Z) : Z := Z.shiftr (x * y) fx_bits.

(** Horner evaluation of the Taylor polynomial of degree [i] of exp. *)
Fixpoint exp_taylor (i : nat) (x acc : Z) : Z :=
  match i with
  | O => acc
  | S i' => exp_taylor i' x (fx_one + fx_mul x acc / Z.of_nat i)
  end.

Fixpoint fx_square (m : nat) (x : Z) : Z :=
  match m with
  | O => x
  | S m' => fx_square m' (fx_mul x x)
  end.

(** exp of [k] units ([0 <= k]) in fixed point: the argument is halved
    until it is below 2^-8, and the result squared as many times. *)
Definition exp_fx (k : Z) : Z :=
  let m := Z.max 0 (Z.log2 k - 1074 + 9) in
  let x := Z.shiftr (Z.shiftl k fx_bits) (1074 + m) in
  fx_square (Z.to_nat m) (exp_taylor 18 x fx_one).

Definition exp64 (x : float64) : float64 :=
  match x with
  | NaN => NaN
  | Inf s => if s then Fin 0 else Inf false
  | NZero => one
  | Fin k =>
      if 0 <=? k then
        if 710 * unit_scale <=? k then Inf false
        else round false (Z.shiftl (exp_fx k) 1074) fx_bits
      else
        if 746 * unit_scale <=? - k then Fin 0
        else round_ratio false (pow2 (1074 + fx_bits)) (exp_fx (- k))
  end.

(** Number of trailing zero bits, and the odd part. *)
Fixpoint ctz (p : positive) : Z :=
  match p with
  | xO p' => 1 + ctz p'
  | _ => 0
  end.

Fixpoint odd_part (p : positive) : positive :=
  match p with
  | xO p' => odd_part p'
  | _ => p
  end.

(** [x ** j] for an integer [1 <= j]: the exact power, rounded once. *)
Definition pow_pos (x : float64) (j : Z) : float64 :=
  match x with
  | NaN => NaN
  | Inf s => Inf (s && Z.odd j)
  | NZero => if Z.odd j then NZero else Fin 0
  | Fin 0 => Fin 0
  | Fin (Zpos p as k) | Fin (Zneg p as k) =>
      let s := (k <? 0) && Z.odd j in
      let m := Zpos (odd_part p) ^ j in
      let e := ctz p * j - 1074 * (j - 1) in
      if 0 <=? e then round s (Z.shiftl m e) 0 else round s m (- e)
  end.

(** The exponents of [app.js] are non-negative integers ([j], [n - j],
    [i - j] and 2); a negative integer exponent is the reciprocal, and this
    implementation answers NaN for a fractional or infinite one. *)
Definition pow64 (x y : float64) : float64 :=
  match y with
  | NaN => NaN
  | NZero | Fin 0 => one
  | Inf _ => NaN
  | Fin k =>
      if isInteger y then
        let j := Z.shiftr (Z.abs k) 1074 in
        if 0 <? k then pow_pos x j else div one (pow_pos x j)
      else NaN
  end.

#[export] Instance reference_libm : Libm :=
  {| Math_exp := exp64; Math_pow := pow64 |}.

(** *** The Standard Library's specification of IEEE 754

    [SpecFloat] specifies the binary floating-point operations on sign,
    mantissa and exponent.  The model is compared with it, at precision 53
    and maximal exponent 1024, on a pool of values. *)

Definition to_spec (x : float64) : spec_float :=
  match x with
  | NaN => S754_nan
  | Inf s => S754_infinity s
  | NZero => S754_zero true
  | Fin k =>
      if k =? 0 then S754_zero false
      else binary_normalize 53 1024 k (-1074) false
  end.

Definition spec_float_eqb (x y : spec_float) : bool :=
  match x, y with
  | S754_nan, S754_nan => true
  | S754_infinity s, S754_infinity t => Bool.eqb s t
  | S754_zero s, S754_zero t => Bool.eqb s t
  | S754_finite s m e, S754_finite t m' e' =>
      Bool.eqb s t && Pos.eqb m m' && (e =? e')
  | _, _ => false
  end.

(** Special values, subnormals, binade boundaries, the largest finite
    number, and decimal literals of all magnitudes. *)
Definition pool : list float64 :=
  [ NaN; Inf false; Inf true; NZero; Fin 0; one; neg one; Fin 1; Fin (-1);
    Fin 3; Fin (pow2 52); Fin (pow2 52 - 1); Fin (pow2 53 + 2);
    Fin ((pow2 53 - 1) * pow2 2045); dec 1 (-1); dec 2 (-1); dec (-3) (-1);
    dec 1 (-4); dec 1 308; dec 1 (-320); dec 3 0; dec 1 16;
    dec 9007199254740993 0; dec 5 (-1); dec 123456789 (-3); dec (-7) 200;
    dec 1 (-200); dec 15 (-1) ].

Definition agree_on (l : list float64)
    (f : float64 -> float64 -> float64)
    (g : spec_float -> spec_float -> spec_float) : bool :=
  forallb
    (fun x =>
       forallb
         (fun y => spec_float_eqb (to_spec (f x y)) (g (to_spec x) (to_spec y)))
         l)
    l.

Definition agree_test_on (l : list float64)
    (f : float64 -> float64 -> bool)
    (g : spec_float -> spec_float -> bool) : bool :=
  forallb
    (fun x => forallb (fun y => Bool.eqb (f x y) (g (to_spec x) (to_spec y))) l)
    l.

End F64.

(** ** Part II.  The functions of app.js *)

Import F64.

(** *** Errors

    [app.js] throws [Error] objects that differ in their message; the
    specification groups them in five kinds.  The engine itself throws a
    RangeError when [Array.from] is asked for more than 2^32 - 1
    elements. *)

Inductive error : Type :=
| S_K_not_positive
| T_not_positive
| n_not_positive_integer
| sigma_negative
| q_negative
| option_type_invalid
| exercise_type_invalid
| u_d_equal
| p_out_of_bounds (p : float64)
| market_price_not_positive
| not_bracketed
| invalid_array_length.

(** The message of the error, without the digits of [p.toFixed(6)]; for
    the RangeError, whose message the engine words, its name. *)
Definition message (e : error) : string :=
  match e with
  | S_K_not_positive => "S and K must be positive."
  | T_not_positive => "T must be positive."
  | n_not_positive_integer => "n must be a positive integer."
  | sigma_negative => "sigma must be non-negative."
  | q_negative => "q must be non-negative."
  | option_type_invalid => "Option type invalid."
  | exercise_type_invalid => "Exercise type invalid."
  | u_d_equal => "u and d are equal; increase n or sigma."
  | p_out_of_bounds _ => "Risk-neutral probability out of bounds: p="
  | market_price_not_positive => "market_price must be positive."
  | not_bracketed => "Target price not bracketed by vol_low and vol_high."
  | invalid_array_length => "RangeError"
  end.

Inductive error_kind : Type :=
| InvalidParameter
| DegenerateTree
| ArbitrageViolation
| InvalidTarget
| NotBracketed
| RangeError.

Definition kind (e : error) : error_kind :=
  match e with
  | u_d_equal => DegenerateTree
  | p_out_of_bounds _ => ArbitrageViolation
  | market_price_not_positive => InvalidTarget
  | not_bracketed => NotBracketed
  | invalid_array_length => RangeError
  | _ => InvalidParameter
  end.

(** A call either returns a value or throws. *)
Inductive result (A : Type) : Type :=
| Return (a : A)
| Throw (e : error).

Arguments Return {A} a.
Arguments Throw {A} e.

Definition bind {A B : Type} (c : result A) (k : A -> result B) : result B :=
  match c with
  | Return a => k a
  | Throw e => Throw e
  end.

Notation "x <- c ;; k" := (bind c (fun x => k))
  (at level 61, c at next level, right associativity).
Notation "c ;;; k" := (bind c (fun _ => k))
  (at level 61, right associativity).

(** *** Parameters *)

Module params.

Record t : Type := make {
  S : float64;
  K : float64;
  T : float64;
  r : float64;
  sigma : float64;
  q : float64;
  n : float64;
  option_type : string;
  exercise_type : string
}.

End params.

(** [Array.prototype.includes] on strings. *)
Definition includes (l : list string) (x : string) : bool :=
  existsb (String.eqb x) l.

Definition validateInputs (p : params.t) : result unit :=
  if negb (gtb (params.S p) zero && gtb (params.K p) zero)
  then Throw S_K_not_positive
  else if negb (gtb (params.T p) zero) then Throw T_not_positive
  else if negb (gtb (params.n p) zero && isInteger (params.n p))
  then Throw n_not_positive_integer
  else if ltb (params.sigma p) zero then Throw sigma_negative
  else if ltb (params.q p) zero then Throw q_negative
  else if negb (includes ["call"; "put"]%string (params.option_type p))
  then Throw option_type_invalid
  else if negb (includes ["european"; "american"]%string (params.exercise_type p))
  then Throw exercise_type_invalid
  else Return tt.

(** *** Arrays of numbers

    Reading past the end yields [undefined], which arithmetic turns into
    NaN; writing past the end extends the array, the holes reading as
    [undefined] again. *)

Definition array_get (a : list float64) (j : nat) : float64 := nth j a NaN.

Fixpoint array_set (a : list float64) (j : nat) (v : float64) : list float64 :=
  match j, a with
  | O, [] => [v]
  | O, _ :: a' => v :: a'
  | Datatypes.S j', [] => NaN :: array_set [] j' v
  | Datatypes.S j', x :: a' => x :: array_set a' j' v
  end.

Section Pricing.

Context {libm : Libm}.

Definition riskNeutralProb (u d r q dt : float64) : result float64 :=
  let p := div (sub (Math_exp (mul (sub r q) dt)) d) (sub u d) in
  if ltb p zero || gtb p one then Throw (p_out_of_bounds p) else Return p.

(** [optionType === "call" ? Math.max(0, price - K) : Math.max(0, K - price)] *)
Definition payoff (optionType : string) (K price : float64) : float64 :=
  if String.eqb optionType "call" then max zero (sub price K)
  else max zero (sub K price).

(** The body of the inner loop, at step [i] and node [j]. *)
Definition node_update (S K : float64) (optionType exerciseType : string)
    (discount u d p : float64) (i j : nat) (optionValues : list float64)
    : list float64 :=
  let hold :=
    mul discount
      (add (mul p (array_get optionValues (j + 1)))
           (mul (sub one p) (array_get optionValues j))) in
  if String.eqb exerciseType "american" then
    let nodePrice :=
      mul (mul S (Math_pow u (of_nat j)))
          (Math_pow d (sub (of_nat i) (of_nat j))) in
    let exercise := payoff optionType K nodePrice in
    array_set optionValues j (max hold exercise)
  else array_set optionValues j hold.

(** [for (let j = 0; j <= i; j += 1)] *)
Definition layer_loop (S K : float64) (optionType exerciseType : string)
    (discount u d p : float64) (i : nat) (optionValues : list float64)
    : list float64 :=
  fold_left
    (fun vals j => node_update S K optionType exerciseType discount u d p i j vals)
    (seq 0 (i + 1)) optionValues.

(** [for (let i = n - 1; i >= 0; i -= 1)] *)
Definition backward_loop (S K : float64) (optionType exerciseType : string)
    (discount u d p : float64) (steps : nat) (optionValues : list float64)
    : list float64 :=
  fold_left
    (fun vals i => layer_loop S K optionType exerciseType discount u d p i vals)
    (rev (seq 0 steps)) optionValues.

(** The largest length of an array, 2^32 - 1. *)
Definition max_array_length : float64 := dec 4294967295 0.

Definition binomialOptionPricing (S K T r sigma n : float64)
    (optionType exerciseType : string) (q : float64) : result float64 :=
  validateInputs (params.make S K T r sigma q n optionType exerciseType) ;;;
  let dt := div T n in
  let discount := Math_exp (mul (neg r) dt) in
  let u := if gtb sigma zero then Math_exp (mul sigma (sqrt dt)) else one in
  let d := div one u in
  if eqb u d then Throw u_d_equal
  else
    p <- riskNeutralProb u d r q dt ;;
    (* Array.from({ length: n + 1 }, ...) *)
    if gtb (add n one) max_array_length then Throw invalid_array_length
    else
    let steps := to_nat n in
    let assetPrices :=
      map (fun j => mul (mul S (Math_pow u (of_nat j)))
                        (Math_pow d (sub n (of_nat j))))
          (seq 0 (steps + 1)) in
    let optionValues := map (payoff optionType K) assetPrices in
    let optionValues :=
      backward_loop S K optionType exerciseType discount u d p steps
        optionValues in
    Return (array_get optionValues 0).

(** The pricer on a parameter record with the step count [n]. *)
Definition price_at (p : params.t) (n : float64) : result float64 :=
  binomialOptionPricing (params.S p) (params.K p) (params.T p) (params.r p)
    (params.sigma p) n (params.option_type p) (params.exercise_type p)
    (params.q p).

(** *** priceWithConvergence *)

Record trail_entry : Type := { entry_n : float64; entry_price : float64 }.

Record convergence : Type := {
  conv_price : float64;
  conv_n : float64;
  conv_trail : list trail_entry
}.

(** The [while (n <= nMax)] loop.  Nothing bounds its iterations in
    general (a zero [step] with a negative [tol] never leaves it), so the
    model counts them down from [fuel]; [None] is an exhausted count. *)
Fixpoint convergence_loop (fuel : nat) (p : params.t)
    (nMax tol step n prev : float64) (trail : list trail_entry)
    : option (result convergence) :=
  if leb n nMax then
    match fuel with
    | O => None
    | Datatypes.S fuel' =>
        match price_at p n with
        | Throw e => Some (Throw e)
        | Return curr =>
            let trail := trail ++ [ {| entry_n := n; entry_price := curr |} ] in
            if leb (abs (sub curr prev)) tol then
              Some (Return {| conv_price := curr; conv_n := n;
                              conv_trail := trail |})
            else convergence_loop fuel' p nMax tol step (add n step) curr trail
        end
    end
  else Some (Return {| conv_price := prev; conv_n := nMax;
                       conv_trail := trail |}).

Definition priceWithConvergence (fuel : nat) (p : params.t)
    (nStart nMax tol step : float64) : option (result convergence) :=
  match price_at p nStart with
  | Throw e => Some (Throw e)
  | Return prev =>
      convergence_loop fuel p nMax tol step (add nStart step) prev
        [ {| entry_n := nStart; entry_price := prev |} ]
  end.

(** *** impliedVolatility *)

Definition price_at_vol (p : params.t) (vol : float64) : result float64 :=
  binomialOptionPricing (params.S p) (params.K p) (params.T p) (params.r p)
    vol (params.n p) (params.option_type p) (params.exercise_type p)
    (params.q p).

(** [for (let i = 0; i < maxIter; i += 1)], with [iters] iterations left. *)
Fixpoint bisection (iters : nat) (marketPrice : float64) (p : params.t)
    (tol low high : float64) : result float64 :=
  match iters with
  | O => Return (mul (dec 5 (-1)) (add low high))
  | Datatypes.S iters' =>
      let mid := mul (dec 5 (-1)) (add low high) in
      priceMid <- price_at_vol p mid ;;
      if leb (abs (sub priceMid marketPrice)) tol then Return mid
      else if ltb priceMid marketPrice
           then bisection iters' marketPrice p tol mid high
           else bisection iters' marketPrice p tol low mid
  end.

Definition impliedVolatility (marketPrice : float64) (p : params.t)
    (volLow volHigh tol : float64) (maxIter : nat) : result float64 :=
  if negb (gtb marketPrice zero) then Throw market_price_not_positive
  else
    priceLow <- price_at_vol p volLow ;;
    priceHigh <- price_at_vol p volHigh ;;
    if negb (leb priceLow marketPrice && leb marketPrice priceHigh)
    then Throw not_bracketed
    else bisection maxIter marketPrice p tol volLow volHigh.

(** *** greeks *)

Record greeks_result : Type := {
  greeks_price : float64;
  delta : float64;
  gamma : float64;
  theta : float64
}.

Definition price_at_S_T (p : params.t) (S T : float64) : result float64 :=
  binomialOptionPricing S (params.K p) T (params.r p) (params.sigma p)
    (params.n p) (params.option_type p) (params.exercise_type p)
    (params.q p).

(** [dS ?? Math.max(0.01 * params.S, 1e-4)] *)
Definition spot_step (p : params.t) (dS : option float64) : float64 :=
  match dS with
  | Some s => s
  | None => max (mul (dec 1 (-2)) (params.S p)) (dec 1 (-4))
  end.

(** [dT ?? Math.max(1e-4, 1e-3 * params.T)] *)
Definition time_step (p : params.t) (dT : option float64) : float64 :=
  match dT with
  | Some s => s
  | None => max (dec 1 (-4)) (mul (dec 1 (-3)) (params.T p))
  end.

Definition greeks (p : params.t) (dS dT : option float64)
    : result greeks_result :=
  let stepS := spot_step p dS in
  let stepT := time_step p dT in
  base <- price_at_S_T p (params.S p) (params.T p) ;;
  up <- price_at_S_T p (add (params.S p) stepS) (params.T p) ;;
  down <- price_at_S_T p (sub (params.S p) stepS) (params.T p) ;;
  let delta := div (sub up down) (mul (dec 2 0) stepS) in
  let gamma :=
    div (add (sub up (mul (dec 2 0) base)) down) (Math_pow stepS (dec 2 0)) in
  upT <- price_at_S_T p (params.S p) (add (params.T p) stepT) ;;
  downT <- price_at_S_T p (params.S p)
             (max (sub (params.T p) stepT) (dec 1 (-8))) ;;
  let theta := div (sub upT downT) (mul (dec 2 0) stepT) in
  Return {| greeks_price := base; delta := delta; gamma := gamma;
            theta := theta |}.

End Pricing.

(** The default values of the optional arguments. *)
Definition default_nStart : float64 := dec 50 0.
Definition default_nMax : float64 := dec 2000 0.
Definition default_conv_tol : float64 := dec 1 (-4).
Definition default_step : float64 := dec 50 0.
Definition default_volLow : float64 := dec 1 (-6).
Definition default_volHigh : float64 := dec 5 0.
Definition default_iv_tol : float64 := dec 1 (-6).
Definition default_maxIter : nat := 100.

(** The parameters that [resetDefaults] puts in the form. *)
Definition reset_params : params.t :=
  params.make (dec 100 0) (dec 100 0) (dec 1 0) (dec 5 (-2)) (dec 2 (-1))
    (dec 2 (-2)) (dec 200 0) "call" "european".

(** ** The statements of the specification, as definitions *)

(** *** The validator

    The rule list as the specification words it: a positivity rule is
    violated by [x <= 0]. *)
Definition stated_rules (p : params.t) : list (bool * error) :=
  [ (leb (params.S p) zero || leb (params.K p) zero, S_K_not_positive);
    (leb (params.T p) zero, T_not_positive);
    (leb (params.n p) zero || negb (isInteger (params.n p)),
     n_not_positive_integer);
    (ltb (params.sigma p) zero, sigma_negative);
    (ltb (params.q p) zero, q_negative);
    (negb (includes ["call"; "put"]%string (params.option_type p)),
     option_type_invalid);
    (negb (includes ["european"; "american"]%string (params.exercise_type p)),
     exercise_type_invalid) ].

(** The same list with NaN counted as a violation of the positivity of
    [S], [K] and [T]. *)
Definition nan_or_nonpositive (x : float64) : bool := isNaN x || leb x zero.

Definition amended_rules (p : params.t) : list (bool * error) :=
  [ (nan_or_nonpositive (params.S p) || nan_or_nonpositive (params.K p),
     S_K_not_positive);
    (nan_or_nonpositive (params.T p), T_not_positive);
    (leb (params.n p) zero || negb (isInteger (params.n p)),
     n_not_positive_integer);
    (ltb (params.sigma p) zero, sigma_negative);
    (ltb (params.q p) zero, q_negative);
    (negb (includes ["call"; "put"]%string (params.option_type p)),
     option_type_invalid);
    (negb (includes ["european"; "american"]%string (params.exercise_type p)),
     exercise_type_invalid) ].

(** The first violated rule of a list decides the outcome. *)
Definition first_violation (rules : list (bool * error)) : result unit :=
  match find fst rules with
  | Some (_, e) => Throw e
  | None => Return tt
  end.

(** A record whose underlying price is NaN, as [parseFloat] returns for
    an empty form field. *)
Definition nan_spot_params : params.t :=
  params.make NaN (dec 100 0) (dec 1 0) (dec 5 (-2)) (dec 2 (-1))
    (dec 2 (-2)) (dec 200 0) "call" "european".

(** The form's defaults on a three-step tree. *)
Definition three_step_params : params.t :=
  params.make (dec 100 0) (dec 100 0) (dec 1 0) (dec 5 (-2)) (dec 2 (-1))
    (dec 2 (-2)) (dec 3 0) "call" "european".

(** Node by node, the first layer is below the second, NaN aside. *)
Definition layers_ordered (le la : list float64) : Prop :=
  forall j, ordered (nth j le NaN) (nth j la NaN) = true.

(** Parameters with equal rate and dividend yield, on three steps. *)
Definition balanced_params : params.t :=
  params.make (dec 100 0) (dec 100 0) (dec 1 0) (dec 2 (-2)) (dec 2 (-1))
    (dec 2 (-2)) (dec 3 0) "call" "european".

(** A volatility of 0.2 percent on 300 steps. *)
Definition low_vol_params : params.t :=
  params.make (dec 100 0) (dec 100 0) (dec 1 0) (dec 5 (-2)) (dec 2 (-3))
    (dec 2 (-2)) (dec 300 0) "call" "european".

(** An underlying price of 5e-5. *)
Definition small_spot_params : params.t :=
  params.make (dec 5 (-5)) (dec 100 0) (dec 1 0) (dec 5 (-2)) (dec 2 (-1))
    (dec 2 (-2)) (dec 3 0) "put" "european".

(** *** The lattice *)

Section Lattice.

Context {libm : Libm}.

(** Step 2 of the pricer: the up factor. *)
Definition up_factor (sigma dt : float64) : float64 :=
  if gtb sigma zero then Math_exp (mul sigma (sqrt dt)) else one.

(** Step 3: the risk-neutral probability. *)
Definition risk_neutral_p (u d r q dt : float64) : float64 :=
  div (sub (Math_exp (mul (sub r q) dt)) d) (sub u d).

(** [p] lies outside [0,1]; [p] lies in [0,1]. *)
Definition outside_unit (p : float64) : bool := ltb p zero || gtb p one.
Definition inside_unit (p : float64) : bool := leb zero p && leb p one.

(** Option kinds and exercise styles, and the strings that name them. *)
Inductive option_kind : Type := Call | Put.
Inductive exercise_style : Type := European | American.

Definition kind_of_string (s : string) : option option_kind :=
  if String.eqb s "call" then Some Call
  else if String.eqb s "put" then Some Put
  else None.

Definition style_of_string (s : string) : option exercise_style :=
  if String.eqb s "european" then Some European
  else if String.eqb s "american" then Some American
  else None.

(** The asset price [S * u^j * d^(i - j)] at node [j] of step [i]. *)
Definition crr_asset_price (S u d i : float64) (j : nat) : float64 :=
  mul (mul S (Math_pow u (of_nat j))) (Math_pow d (sub i (of_nat j))).

(** Step 4: [max(0, price - K)] for a call, [max(0, K - price)] for a put. *)
Definition crr_payoff (k : option_kind) (K price : float64) : float64 :=
  match k with
  | Call => max zero (sub price K)
  | Put => max zero (sub K price)
  end.

Definition crr_terminal (k : option_kind) (S K u d n : float64) (steps : nat)
    : list float64 :=
  map (fun j => crr_payoff k K (crr_asset_price S u d n j))
      (seq 0 (steps + 1)).

(** Step 5: the value at node [j] of step [i], from the layer [next] of
    step [i + 1]. *)
Definition crr_node (k : option_kind) (st : exercise_style)
    (S K discount u d p : float64) (i j : nat) (next : list float64)
    : float64 :=
  let continuation :=
    mul discount
      (add (mul p (nth (j + 1) next NaN)) (mul (sub one p) (nth j next NaN))) in
  match st with
  | European => continuation
  | American =>
      max continuation (crr_payoff k K (crr_asset_price S u d (of_nat i) j))
  end.

Definition crr_layer (k : option_kind) (st : exercise_style)
    (S K discount u d p : float64) (i : nat) (next : list float64)
    : list float64 :=
  map (fun j => crr_node k st S K discount u d p i j next) (seq 0 (i + 1)).

(** Backward induction from the layer of step [i] down to step 0. *)
Fixpoint crr_induction (k : option_kind) (st : exercise_style)
    (S K discount u d p : float64) (i : nat) (layer : list float64)
    : list float64 :=
  match i with
  | O => layer
  | Datatypes.S i' =>
      crr_induction k st S K discount u d p i'
        (crr_layer k st S K discount u d p i' layer)
  end.

(** Steps 1 to 6: the CRR value. *)
Definition crr_value (k : option_kind) (st : exercise_style)
    (S K T r sigma n q : float64) : float64 :=
  let dt := div T n in
  let discount := Math_exp (mul (neg r) dt) in
  let u := up_factor sigma dt in
  let d := div one u in
  let p := risk_neutral_p u d r q dt in
  nth 0
    (crr_induction k st S K discount u d p (to_nat n)
       (crr_terminal k S K u d n (to_nat n)))
    NaN.

(** The same on a lattice of [steps] steps, for the step count
    [n = steps]. *)
Definition crr_lattice (k : option_kind) (st : exercise_style)
    (S K T r sigma q : float64) (steps : nat) : float64 :=
  let n := of_nat steps in
  let dt := div T n in
  let discount := Math_exp (mul (neg r) dt) in
  let u := up_factor sigma dt in
  let d := div one u in
  let p := risk_neutral_p u d r q dt in
  nth 0
    (crr_induction k st S K discount u d p steps
       (crr_terminal k S K u d n steps))
    NaN.

End Lattice.

(** *** The convergence driver *)

Section ConvergenceSpec.

Context {libm : Libm}.

Variables (p : params.t) (nStart nMax tol step : float64).

(** The step counts tried: [nStart], [nStart + step], ... *)
Fixpoint n_seq (i : nat) : float64 :=
  match i with
  | O => nStart
  | Datatypes.S i' => add (n_seq i') step
  end.

(** The price at the [i]-th step count, when the pricer returns one. *)
Definition price_val (i : nat) : float64 :=
  match price_at p (n_seq i) with
  | Return v => v
  | Throw _ => NaN
  end.

Definition trail_upto (k : nat) : list trail_entry :=
  map (fun i => {| entry_n := n_seq i; entry_price := price_val i |})
      (seq 0 (k + 1)).

(** [|price(n_i) - price(n_(i-1))| <= tol] *)
Definition within_tol (i : nat) : bool :=
  leb (abs (sub (price_val i) (price_val (i - 1)))) tol.

(** The driver prices at the [i]-th step count: the pricer has returned at
    the step counts before it, the step counts up to it stay within [nMax],
    and no earlier pair of successive prices is within the tolerance. *)
Definition tries (i : nat) : Prop :=
  (forall j, (j < i)%nat -> exists v, price_at p (n_seq j) = Return v) /\
  (forall j, (1 <= j <= i)%nat -> leb (n_seq j) nMax = true) /\
  (forall j, (1 <= j < i)%nat -> within_tol j = false).

(** The driver stops after pricing the [k]-th step count: all the prices up
    to there exist, the step counts between stay within [nMax], no earlier
    pair of successive prices is within the tolerance, and either the last
    pair is, or the next step count is not within [nMax]. *)
Definition exits_at (k : nat) : Prop :=
  (forall i, (i <= k)%nat -> exists v, price_at p (n_seq i) = Return v) /\
  (forall i, (1 <= i <= k)%nat -> leb (n_seq i) nMax = true) /\
  (forall i, (1 <= i < k)%nat -> within_tol i = false) /\
  (((1 <= k)%nat /\ within_tol k = true) \/
   (((1 <= k)%nat -> within_tol k = false) /\
    leb (n_seq (k + 1)) nMax = false)).

(** What it returns then. *)
Definition conv_at (k : nat) : convergence :=
  {| conv_price := price_val k;
     conv_n := if (1 <=? k)%nat && within_tol k then n_seq k else nMax;
     conv_trail := trail_upto k |}.

End ConvergenceSpec.

(** *** The implied-volatility solver *)

Section BisectionSpec.

Context {libm : Libm}.

Variables (marketPrice : float64) (p : params.t) (tol : float64).

Definition midpoint (low high : float64) : float64 :=
  mul (dec 5 (-1)) (add low high).

(** The interval after [iters] bisection steps none of which met the
    tolerance or raised; [None] when one did. *)
Fixpoint narrowed (iters : nat) (low high : float64)
    : option (float64 * float64) :=
  match iters with
  | O => Some (low, high)
  | Datatypes.S iters' =>
      match price_at_vol p (midpoint low high) with
      | Throw _ => None
      | Return priceMid =>
          if leb (abs (sub priceMid marketPrice)) tol then None
          else if ltb priceMid marketPrice
               then narrowed iters' (midpoint low high) high
               else narrowed iters' low (midpoint low high)
      end
  end.

End BisectionSpec.

(** ** Further notions and functions of app.js *)

(** *** Representable numbers

    A finite value is a binary64 number when it lies on the grid, that is
    when rounding leaves it unchanged.  The numbers that [parseFloat], the
    literals and the operations produce all are. *)
Definition representable (x : float64) : Prop :=
  match x with
  | Fin k =>
      round_mag (Z.abs k) 0 = Z.abs k /\ Z.abs k < overflow_threshold
  | _ => True
  end.

(** [|x| <= 2^1022], a bound under which a sum of two numbers does not
    overflow. *)
Definition half_range : float64 := Fin (pow2 2096).

Definition within_half_range (x : float64) : bool :=
  leb (neg half_range) x && leb x half_range.

(** Every value of a layer is NaN or at least zero. *)
Definition layer_not_negative (l : list float64) : Prop :=
  forall j, ordered zero (nth j l NaN) = true.

(** ** The page

    The rest of [app.js] shows the results on the page: [formatNum] prints
    a number, [drawConvergence] draws the trail on a canvas, [run] reads the
    form, computes and fills the output fields, [resetDefaults] restores the
    form.  The page is embedded as a record of the texts of the output
    fields and the list of the commands issued on the canvas.

    What this part leaves out:
    - [readInputs]: [run] is embedded from the record that [readInputs]
      returns, a target price of [None] being the [null] of an empty field;
      [parseFloat] and [parseInt] are not modelled;
    - the conversion of a number to a string, which ECMAScript does not fix
      in the last digit, is a parameter, as are the message of the
      RangeError, which the engine words, and the width and the height of
      the canvas;
    - [toFixed] raises a RangeError for more than 100 digits; [app.js] asks
      for 4 and 6, and the properties are stated up to 100;
    - the event listeners and the timer that call [run]. *)

From Stdlib Require DecimalString.

(** *** Operators *)

(** [Math.min] of two arguments: NaN is contagious and -0 is below +0. *)
Definition min (x y : float64) : float64 :=
  match x, y with
  | NaN, _ | _, NaN => NaN
  | _, _ =>
      if ltb x y then x
      else if ltb y x then y
      else if signbit x then x else y
  end.

(** [Math.min(...values)] and [Math.max(...values)]. *)
Definition min_of (values : list float64) : float64 :=
  fold_left min values (Inf false).

Definition max_of (values : list float64) : float64 :=
  fold_left max values (Inf true).

(** A number is falsy when it is a zero or NaN; [a || b]. *)
Definition truthy (x : float64) : bool :=
  match x with
  | NaN | NZero => false
  | Inf _ => true
  | Fin k => negb (k =? 0)
  end.

Definition or_else (a b : float64) : float64 := if truthy a then a else b.

(** [Math.PI]. *)
Definition Math_PI : float64 := dec 3141592653589793 (-15).

(** *** formatNum *)

Section Page.

(** [String(x)] for a number [x]. *)
Variable Number_toString : float64 -> string.

(** The message of the RangeError that [Array.from] raises. *)
Variable RangeError_message : string.

(** The decimal digits of a natural number, without leading zeros. *)
Definition digits_of (n : Z) : string :=
  DecimalString.NilZero.string_of_uint (N.to_uint (Z.to_N n)).

Fixpoint zeros (count : nat) : string :=
  match count with
  | O => EmptyString
  | Datatypes.S count' => ("0" ++ zeros count')%string
  end.

(** [x.toFixed(f)]: below 10^21 in magnitude, the integer [n] nearest to
    [x * 10^f], the larger one on a tie, printed with a point before its
    last [f] digits. *)
Definition toFixed (x : float64) (f : nat) : string :=
  if negb (finite x) then Number_toString x
  else
    let s := if toZ x <? 0 then "-"%string else EmptyString in
    let a := Z.abs (toZ x) in
    if 10 ^ 21 * unit_scale <=? a then (s ++ Number_toString (Fin a))%string
    else
      let n := (2 * a * 10 ^ Z.of_nat f + unit_scale) / (2 * unit_scale) in
      let m := digits_of n in
      let m :=
        if (f =? 0)%nat then m
        else
          let m :=
            if (String.length m <=? f)%nat
            then (zeros (f + 1 - String.length m) ++ m)%string
            else m in
          let k := String.length m in
          (substring 0 (k - f) m ++ "." ++ substring (k - f) f m)%string in
      (s ++ m)%string.

Definition formatNum (value : float64) (digits : nat) : string :=
  if negb (finite value) then "-"%string else toFixed value digits.

(** [err.message || String(err)]: the message of an error, with the digits
    of [p.toFixed(6)]; for the RangeError the message of the engine, or the
    name of the error when that message is empty. *)
Definition error_message (e : error) : string :=
  match e with
  | p_out_of_bounds p => (message e ++ toFixed p 6 ++ ".")%string
  | invalid_array_length =>
      match RangeError_message with
      | EmptyString => message e
      | _ => RangeError_message
      end
  | _ => message e
  end.

(** *** drawConvergence *)

(** The calls on the 2D context of the canvas. *)
Inductive canvas_op : Type :=
| clearRect (x y w h : float64)
| strokeStyle (style : string)
| lineWidth (w : float64)
| beginPath
| moveTo (x y : float64)
| lineTo (x y : float64)
| stroke
| fillStyle (style : string)
| arc (x y radius startAngle endAngle : float64)
| fill.

Variables width height : float64.

Definition padding : float64 := dec 20 0.

(** [padding + (idx / (trail.length - 1 || 1)) * (width - padding * 2)] *)
Definition chart_x (idx : float64) (len : nat) : float64 :=
  add padding
      (mul (div idx (or_else (sub (of_nat len) one) one))
           (sub width (mul padding (dec 2 0)))).

(** [height - padding - ((price - min) / span) * (height - padding * 2)] *)
Definition chart_y (price lo span : float64) : float64 :=
  sub (sub height padding)
      (mul (div (sub price lo) span) (sub height (mul padding (dec 2 0)))).

(** The body of [trail.forEach((point, idx) => ...)]. *)
Definition path_op (len : nat) (lo span : float64) (idx : nat)
    (point : trail_entry) : canvas_op :=
  let x := chart_x (of_nat idx) len in
  let y := chart_y (entry_price point) lo span in
  if (idx =? 0)%nat then moveTo x y else lineTo x y.

Fixpoint path_from (len : nat) (lo span : float64) (idx : nat)
    (points : list trail_entry) : list canvas_op :=
  match points with
  | [] => []
  | point :: rest =>
      path_op len lo span idx point
        :: path_from len lo span (Datatypes.S idx) rest
  end.

Definition drawConvergence (trail : list trail_entry) : list canvas_op :=
  clearRect zero zero width height ::
  match trail with
  | [] => []
  | first :: _ =>
      let prices := map entry_price trail in
      let lo := min_of prices in
      let hi := max_of prices in
      let span := or_else (sub hi lo) one in
      let len := List.length trail in
      let last := List.last trail first in
      let lastX := chart_x (sub (of_nat len) one) len in
      let lastY := chart_y (entry_price last) lo span in
      [strokeStyle "rgba(109, 214, 199, 0.6)"; lineWidth (dec 2 0); beginPath]
        ++ path_from len lo span 0 trail
        ++ [stroke; fillStyle "rgba(244, 201, 93, 0.8)"; beginPath;
            arc lastX lastY (dec 4 0) zero (mul Math_PI (dec 2 0)); fill]
  end.

(** *** run *)

(** The output fields and the canvas. *)
Record display : Type := {
  price_text : string;
  delta_text : string;
  gamma_text : string;
  theta_text : string;
  conv_text : string;
  iv_text : string;
  error_text : string;
  canvas : list canvas_op
}.

(** What [readInputs] returns. *)
Record form_inputs : Type := {
  form_params : params.t;
  target_price : option float64
}.

(** [byId("error").textContent = message || ""] *)
Definition setError (msg : string) (d : display) : display :=
  {| price_text := price_text d; delta_text := delta_text d;
     gamma_text := gamma_text d; theta_text := theta_text d;
     conv_text := conv_text d; iv_text := iv_text d;
     error_text := msg; canvas := canvas d |}.

Definition set_iv (text : string) (d : display) : display :=
  {| price_text := price_text d; delta_text := delta_text d;
     gamma_text := gamma_text d; theta_text := theta_text d;
     conv_text := conv_text d; iv_text := text;
     error_text := error_text d; canvas := canvas d |}.

(** The fields that [run] fills once the price, the Greeks and the
    convergence record are computed. *)
Definition show_results (price : float64) (greek : greeks_result)
    (conv : convergence) (d : display) : display :=
  {| price_text := formatNum price 4;
     delta_text := formatNum (delta greek) 4;
     gamma_text := formatNum (gamma greek) 6;
     theta_text := formatNum (theta greek) 4;
     conv_text := (formatNum (conv_price conv) 4 ++ " @ n="
                     ++ Number_toString (conv_n conv))%string;
     iv_text := iv_text d;
     error_text := error_text d;
     canvas := canvas d ++ drawConvergence (conv_trail conv) |}.

Context {libm : Libm}.

(** The body of the [try] block, from the cleared error on; an error
    comes with the display at the time it is raised. *)
Definition run_try (fuel : nat) (inputs : form_inputs) (d : display)
    : option (display + error * display) :=
  let p := form_params inputs in
  match validateInputs p with
  | Throw e => Some (inr (e, d))
  | Return _ =>
  match price_at p (params.n p) with
  | Throw e => Some (inr (e, d))
  | Return price =>
  match greeks p None None with
  | Throw e => Some (inr (e, d))
  | Return greek =>
  match priceWithConvergence fuel p default_nStart default_nMax
          default_conv_tol default_step with
  | None => None
  | Some (Throw e) => Some (inr (e, d))
  | Some (Return conv) =>
      let d := show_results price greek conv d in
      match target_price inputs with
      | Some target =>
          if finite target then
            match impliedVolatility target p default_volLow default_volHigh
                    default_iv_tol default_maxIter with
            | Throw e => Some (inr (e, d))
            | Return iv => Some (inl (set_iv (formatNum iv 4) d))
            end
          else Some (inl (set_iv "-" d))
      | None => Some (inl (set_iv "-" d))
      end
  end end end end.

(** [try { setError(""); ... } catch (err) { setError(err.message ||
    String(err)) }]; [None] when the turns of the convergence loop are exhausted. *)
Definition run (fuel : nat) (inputs : form_inputs) (d : display)
    : option display :=
  match run_try fuel inputs (setError EmptyString d) with
  | None => None
  | Some (inl d') => Some d'
  | Some (inr (e, d')) => Some (setError (error_message e) d')
  end.

(** [resetDefaults]: the form is set to its defaults, which [run] then
    reads; reading a field gives back the number written to it. *)
Definition reset_inputs : form_inputs :=
  {| form_params := reset_params; target_price := None |}.

Definition resetDefaults (fuel : nat) (d : display) : option display :=
  run fuel reset_inputs d.

End Page.

(** *** What a list of canvas commands draws *)

(** The current path after a call.  [beginPath] empties it; [moveTo] and
    [lineTo] add a point, [arc] a circle (of radius 4 here; a negative
    radius raises), and each of the three returns at once, leaving the path
    as it is, when one of its arguments is NaN or infinite. *)
Definition path_step (path : list canvas_op) (op : canvas_op)
    : list canvas_op :=
  match op with
  | beginPath => []
  | moveTo x y | lineTo x y =>
      if finite x && finite y then path ++ [op] else path
  | arc x y radius startAngle endAngle =>
      if finite x && finite y && finite radius && finite startAngle
         && finite endAngle
      then path ++ [op] else path
  | _ => path
  end.

(** What [stroke] draws: the current path at each of its calls. *)
Fixpoint stroked (path : list canvas_op) (ops : list canvas_op)
    : list canvas_op :=
  match ops with
  | [] => []
  | stroke :: rest => path ++ stroked path rest
  | op :: rest => stroked (path_step path op) rest
  end.

(** What [fill] fills: the current path at each of its calls. *)
Fixpoint filled (path : list canvas_op) (ops : list canvas_op)
    : list canvas_op :=
  match ops with
  | [] => []
  | fill :: rest => path ++ filled path rest
  | op :: rest => filled (path_step path op) rest
  end.

Definition point_of (op : canvas_op) : list (float64 * float64) :=
  match op with
  | moveTo x y | lineTo x y => [(x, y)]
  | _ => []
  end.

Definition centre_of (op : canvas_op) : list (float64 * float64) :=
  match op with
  | arc x y _ _ _ => [(x, y)]
  | _ => []
  end.

(** The points of the path stroked, in order, and the centres of the arcs
    filled. *)
Definition vertices (ops : list canvas_op) : list (float64 * float64) :=
  flat_map point_of (stroked [] ops).

Definition arc_centres (ops : list canvas_op) : list (float64 * float64) :=
  flat_map centre_of (filled [] ops).

(** The call adds a point to the path. *)
Definition plots (op : canvas_op) : bool :=
  match op with
  | moveTo x y | lineTo x y => finite x && finite y
  | _ => false
  end.

(** Two displays show the same texts. *)
Definition same_texts (d d' : display) : Prop :=
  price_text d = price_text d' /\ delta_text d = delta_text d' /\
  gamma_text d = gamma_text d' /\ theta_text d = theta_text d' /\
  conv_text d = conv_text d' /\ iv_text d = iv_text d' /\
  error_text d = error_text d'.

(** The pricer accepts the parameters at the step count [n]: they pass
    the validator, the tree is not degenerate, the probability is not
    outside [0,1] and the array of [n + 1] values can be made. *)
Definition accepts {libm : Libm} (p : params.t) (n : float64) : bool :=
  match validateInputs
          (params.make (params.S p) (params.K p) (params.T p) (params.r p)
             (params.sigma p) (params.q p) n (params.option_type p)
             (params.exercise_type p)) with
  | Throw _ => false
  | Return _ =>
      let dt := div (params.T p) n in
      let u := up_factor (params.sigma p) dt in
      let d := div one u in
      negb (eqb u d)
      && negb (outside_unit (risk_neutral_p u d (params.r p) (params.q p) dt))
      && negb (gtb (add n one) max_array_length)
  end.

(** Every computation of [run] returns. *)
Definition all_return {libm : Libm} (fuel : nat) (inputs : form_inputs)
    : Prop :=
  let p := form_params inputs in
  validateInputs p = Return tt /\
  (exists price, price_at p (params.n p) = Return price) /\
  (exists greek, greeks p None None = Return greek) /\
  (exists conv,
     priceWithConvergence fuel p default_nStart default_nMax
       default_conv_tol default_step = Some (Return conv)) /\
  (forall target,
     target_price inputs = Some target -> finite target = true ->
     exists iv,
       impliedVolatility target p default_volLow default_volHigh
         default_iv_tol default_maxIter = Return iv).

(** The outputs of [run], the implied volatility aside, and the canvas
    are those of the display [d]. *)
Definition outputs_kept (d d' : display) : Prop :=
  price_text d' = price_text d /\ delta_text d' = delta_text d /\
  gamma_text d' = gamma_text d /\ theta_text d' = theta_text d /\
  conv_text d' = conv_text d /\ canvas d' = canvas d.

(** The parameters of [p] at another underlying price and expiry. *)
Definition with_spot_expiry (p : params.t) (S T : float64) : params.t :=
  params.make S (params.K p) T (params.r p) (params.sigma p) (params.q p)
    (params.n p) (params.option_type p) (params.exercise_type p).

(** The pricer accepts the parameters of the five calls of [greeks], with
    its default steps. *)
Definition greeks_accepts {libm : Libm} (p : params.t) : bool :=
  let stepS := spot_step p None in
  let stepT := time_step p None in
  accepts p (params.n p)
  && accepts (with_spot_expiry p (add (params.S p) stepS) (params.T p))
       (params.n p)
  && accepts (with_spot_expiry p (sub (params.S p) stepS) (params.T p))
       (params.n p)
  && accepts (with_spot_expiry p (params.S p) (add (params.T p) stepT))
       (params.n p)
  && accepts
       (with_spot_expiry p (params.S p)
          (max (sub (params.T p) stepT) (dec 1 (-8))))
       (params.n p).

(** It accepts them at every step count that the convergence driver may
    try in [turns] turns of its loop. *)
Definition driver_accepts {libm : Libm} (p : params.t)
    (nStart step : float64) (turns : nat) : bool :=
  forallb (fun i => accepts p (n_seq nStart step i)) (seq 0 (turns + 1)).

(** A form whose underlying price is not a number. *)
Definition nan_spot_inputs : form_inputs :=
  {| form_params :=
       params.make NaN (dec 100 0) (dec 1 0) (dec 5 (-2)) (dec 2 (-1))
         (dec 2 (-2)) (dec 3 0) "call" "european";
     target_price := Some (dec 10 0) |}.

Definition blank_display : display :=
  {| price_text := "-"; delta_text := "-"; gamma_text := "-";
     theta_text := "-"; conv_text := "-"; iv_text := "-";
     error_text := EmptyString; canvas := [] |}.

(** A point lies within the padding of a canvas of the given size. *)
Definition inside_padding (width height : float64) (v : float64 * float64)
    : bool :=
  leb padding (fst v) && leb (fst v) (sub width padding)
  && leb padding (snd v) && leb (snd v) (sub height padding).

(** A price that is a binary64 number and is not negative. *)
Definition plain_price (x : float64) : Prop :=
  finite x = true /\ representable x /\ leb zero x = true.

(** ** Part III.  Properties of the binary64 model *)

Module F64_facts.

Lemma pow2_eq e : 0 <= e -> pow2 e = 2 ^ e.
Proof.
  intros He. unfold pow2. rewrite Z.shiftl_mul_pow2 by assumption. lia.
Qed.

Lemma pow2_pos e : 0 <= e -> 0 < pow2 e.
Proof. intros He. rewrite pow2_eq by assumption. apply Z.pow_pos_nonneg; lia. Qed.

Lemma pow2_add a b : 0 <= a -> 0 <= b -> pow2 (a + b) = pow2 a * pow2 b.
Proof.
  intros Ha Hb. rewrite !pow2_eq by lia. apply Z.pow_add_r; assumption.
Qed.

Lemma pow2_le a b : 0 <= a <= b -> pow2 a <= pow2 b.
Proof.
  intros H. rewrite !pow2_eq by lia. apply Z.pow_le_mono_r; lia.
Qed.

Lemma shiftr_pow2 a t : 0 <= t -> Z.shiftr a t = a / pow2 t.
Proof.
  intros Ht. rewrite Z.shiftr_div_pow2, pow2_eq by assumption. reflexivity.
Qed.

Lemma shiftl_pow2 a t : 0 <= t -> Z.shiftl a t = a * pow2 t.
Proof.
  intros Ht. rewrite Z.shiftl_mul_pow2, pow2_eq by assumption. reflexivity.
Qed.

(** *** Rounding to the nearest integer *)

(** The three cases of [rne], on quotient and remainder. *)
Lemma rne_cases a t :
  0 <= t ->
  let q := a / pow2 t in
  let r := a mod pow2 t in
  (2 * r < pow2 t /\ rne a t = q) \/
  (pow2 t < 2 * r /\ rne a t = q + 1) \/
  (2 * r = pow2 t /\ rne a t = if Z.even q then q else q + 1).
Proof.
  intros Ht q r. unfold rne.
  rewrite shiftr_pow2, shiftl_pow2 by assumption.
  assert (Hr : a - a / pow2 t * pow2 t = r).
  { unfold r. rewrite Z.mod_eq by (pose proof (pow2_pos t Ht); lia). lia. }
  rewrite Hr. fold q.
  destruct (Z.compare_spec (2 * r) (pow2 t)); auto.
Qed.

Lemma rne_bounds a t :
  0 <= t -> a / pow2 t <= rne a t <= a / pow2 t + 1.
Proof.
  intros Ht. destruct (rne_cases a t Ht) as [[_ ->]|[[_ ->]|[_ ->]]];
    try lia.
  destruct (Z.even _); lia.
Qed.

Lemma rne_mono a1 a2 t :
  0 <= t -> a1 <= a2 -> rne a1 t <= rne a2 t.
Proof.
  intros Ht Hle.
  pose proof (pow2_pos t Ht) as Hp.
  assert (Hq : a1 / pow2 t <= a2 / pow2 t) by (apply Z.div_le_mono; lia).
  destruct (Z.eq_dec (a1 / pow2 t) (a2 / pow2 t)) as [Heq|Hne].
  - assert (Hr : a1 mod pow2 t <= a2 mod pow2 t).
    { rewrite !Z.mod_eq by lia. rewrite Heq. lia. }
    destruct (rne_cases a1 t Ht) as [[H1 ->]|[[H1 ->]|[H1 ->]]];
    destruct (rne_cases a2 t Ht) as [[H2 ->]|[[H2 ->]|[H2 ->]]];
    rewrite <- ?Heq; try lia; destruct (Z.even (a1 / pow2 t)); lia.
  - pose proof (rne_bounds a1 t Ht). pose proof (rne_bounds a2 t Ht). lia.
Qed.

Lemma rne_0 t : 0 <= t -> rne 0 t = 0.
Proof.
  intros Ht. pose proof (pow2_pos t Ht).
  destruct (rne_cases 0 t Ht) as [[_ ->]|[[H1 _]|[H1 _]]];
    rewrite ?Z.div_0_l, ?Z.mod_0_l in * by lia; lia.
Qed.

Lemma rne_nonneg a t : 0 <= t -> 0 <= a -> 0 <= rne a t.
Proof.
  intros Ht Ha. rewrite <- (rne_0 t Ht). apply rne_mono; assumption.
Qed.

(** An integer is its own rounding. *)
Lemma rne_exact a : rne a 0 = a.
Proof.
  unfold rne. rewrite Z.shiftr_0_r, Z.shiftl_0_r, Z.sub_diag. reflexivity.
Qed.

(** *** Rounding to the grid *)

Lemma grid_shift_nonneg a e : 0 <= grid_shift a e.
Proof. unfold grid_shift. lia. Qed.

Lemma grid_shift_mono a1 a2 e :
  0 <= e -> a1 <= a2 -> grid_shift a1 e <= grid_shift a2 e.
Proof.
  intros He Hle. unfold grid_shift. rewrite !shiftr_pow2 by assumption.
  assert (a1 / pow2 e <= a2 / pow2 e)
    by (apply Z.div_le_mono; [apply pow2_pos|]; assumption).
  pose proof (Z.log2_le_mono _ _ H). lia.
Qed.

Lemma round_mag_nonneg a e : 0 <= e -> 0 <= a -> 0 <= round_mag a e.
Proof.
  intros He Ha. unfold round_mag.
  pose proof (grid_shift_nonneg a e).
  rewrite shiftl_pow2 by assumption.
  apply Z.mul_nonneg_nonneg; [apply rne_nonneg; lia|].
  pose proof (pow2_pos (grid_shift a e)); lia.
Qed.

Lemma round_mag_0 e : 0 <= e -> round_mag 0 e = 0.
Proof.
  intros He. unfold round_mag, grid_shift.
  rewrite Z.shiftr_0_l. simpl Z.max. rewrite rne_0 by lia. reflexivity.
Qed.

(** In a binade above the first, the scaled value is at least 2^52. *)
Lemma scaled_lower a e :
  0 <= e -> 0 < grid_shift a e ->
  pow2 52 <= a / pow2 (e + grid_shift a e).
Proof.
  intros He Hs. unfold grid_shift in *. rewrite shiftr_pow2 in * by assumption.
  set (f := a / pow2 e) in *.
  assert (Hl : Z.log2 f - 52 > 0) by lia.
  assert (Hf : 0 < f) by (destruct (Z.log2_null f) as [_ H0]; lia).
  rewrite Z.max_r by lia.
  rewrite pow2_add by lia.
  pose proof (pow2_pos e He) as Hpe.
  rewrite <- Z.div_div by (try apply pow2_pos; lia). fold f.
  apply Z.div_le_lower_bound; [apply pow2_pos; lia|].
  rewrite Z.mul_comm, <- pow2_add by lia.
  replace (52 + (Z.log2 f - 52)) with (Z.log2 f) by lia.
  rewrite pow2_eq by apply Z.log2_nonneg.
  apply Z.log2_spec; assumption.
Qed.

(** In every binade the scaled value is below 2^53. *)
Lemma scaled_upper a e :
  0 <= e -> 0 <= a ->
  a / pow2 (e + grid_shift a e) < pow2 53.
Proof.
  intros He Ha. pose proof (grid_shift_nonneg a e) as Hs.
  unfold grid_shift in *. rewrite shiftr_pow2 in * by assumption.
  set (f := a / pow2 e) in *.
  set (s := Z.max 0 (Z.log2 f - 52)) in *.
  pose proof (pow2_pos e He) as Hpe.
  rewrite pow2_add by lia.
  rewrite <- Z.div_div by (try apply pow2_pos; lia). fold f.
  apply Z.div_lt_upper_bound; [apply pow2_pos; lia|].
  rewrite <- pow2_add by lia.
  assert (Hf : 0 <= f) by (apply Z.div_pos; lia).
  destruct (Z.eq_dec f 0) as [->|Hne].
  - apply pow2_pos; lia.
  - destruct (Z.log2_spec f) as [_ Hu]; [lia|].
    eapply Z.lt_le_trans; [exact Hu|].
    rewrite <- pow2_eq by (pose proof (Z.log2_nonneg f); lia).
    apply pow2_le. pose proof (Z.log2_nonneg f). lia.
Qed.

Lemma round_mag_mono a1 a2 e :
  0 <= e -> 0 <= a1 <= a2 -> round_mag a1 e <= round_mag a2 e.
Proof.
  intros He [H0 Hle].
  pose proof (grid_shift_mono a1 a2 e He Hle) as Hs.
  pose proof (grid_shift_nonneg a1 e) as Hs1.
  unfold round_mag. rewrite !shiftl_pow2 by lia.
  destruct (Z.eq_dec (grid_shift a1 e) (grid_shift a2 e)) as [Heq|Hne].
  - rewrite Heq. apply Z.mul_le_mono_nonneg_r.
    + pose proof (pow2_pos (grid_shift a2 e)); lia.
    + apply rne_mono; lia.
  - assert (Hlt : grid_shift a1 e < grid_shift a2 e) by lia.
    pose proof (scaled_lower a2 e He ltac:(lia)) as Hlow.
    pose proof (scaled_upper a1 e He H0) as Hup.
    pose proof (rne_bounds a1 (e + grid_shift a1 e) ltac:(lia)) as [_ B1].
    pose proof (rne_bounds a2 (e + grid_shift a2 e) ltac:(lia)) as [B2 _].
    apply Z.le_trans with (pow2 53 * pow2 (grid_shift a1 e)).
    + apply Z.mul_le_mono_nonneg_r;
        [pose proof (pow2_pos (grid_shift a1 e)); lia | lia].
    + apply Z.le_trans with (pow2 52 * pow2 (grid_shift a2 e)).
      * rewrite <- !pow2_add by lia. apply pow2_le. lia.
      * apply Z.mul_le_mono_nonneg_r;
          [pose proof (pow2_pos (grid_shift a2 e)); lia | lia].
Qed.

(** Small integers are on the grid. *)
Lemma round_mag_small a :
  0 <= a < pow2 53 -> round_mag a 0 = a.
Proof.
  intros [H0 Hlt]. unfold round_mag, grid_shift.
  rewrite Z.shiftr_0_r.
  assert (Hl : Z.log2 a - 52 <= 0).
  { destruct (Z.eq_dec a 0) as [->|Hne]; [simpl; lia|].
    assert (Z.log2 a < 53); [|lia].
    apply Z.log2_lt_pow2; [lia|]. rewrite <- pow2_eq by lia. exact Hlt. }
  rewrite Z.max_l by lia. rewrite Z.shiftl_0_r. apply rne_exact.
Qed.

Lemma round_mag_pos a : 0 < a -> 0 < round_mag a 0.
Proof.
  intros Ha.
  assert (H1 : round_mag 1 0 = 1) by (apply round_mag_small; vm_compute; split; congruence).
  pose proof (round_mag_mono 1 a 0 ltac:(lia) ltac:(lia)). lia.
Qed.



(** *** Signs and order of rounded values *)

Arguments round : simpl never.
Arguments rnd : simpl never.
Arguments pow2 : simpl never.

Lemma overflow_threshold_pos : 0 < overflow_threshold.
Proof. apply pow2_pos. lia. Qed.

Lemma round_notnan s a e : isNaN (round s a e) = false.
Proof.
  unfold round. destruct (_ <=? _); [reflexivity|].
  destruct (_ =? _); [destruct s|]; reflexivity.
Qed.

(** The value of a rounding is its magnitude with its sign, or an
    infinity past the threshold. *)
Lemma round_cases (s : bool) a e :
  0 <= e -> 0 <= a ->
  let m := round_mag a e in
  (overflow_threshold <= m /\ round s a e = Inf s) \/
  (m < overflow_threshold /\ finite (round s a e) = true /\
   toZ (round s a e) = if s then - m else m).
Proof.
  intros He Ha m. unfold round. fold m.
  destruct (Z.leb_spec overflow_threshold m); [left; auto|right].
  split; [assumption|].
  destruct (Z.eqb_spec m 0) as [->|Hne]; destruct s; simpl; auto.
Qed.

Lemma leb_unsigned_zero x y :
  leb x y = leb (unsigned_zero x) (unsigned_zero y).
Proof. destruct x as [|[]| |], y as [|[]| |]; reflexivity. Qed.

Lemma ltb_unsigned_zero x y :
  ltb x y = ltb (unsigned_zero x) (unsigned_zero y).
Proof. destruct x as [|[]| |], y as [|[]| |]; reflexivity. Qed.

(** Two roundings compare as their signed magnitudes do. *)
Lemma leb_round (s1 : bool) a1 e1 (s2 : bool) a2 e2 :
  0 <= e1 -> 0 <= a1 -> 0 <= e2 -> 0 <= a2 ->
  (if s1 then - round_mag a1 e1 else round_mag a1 e1)
    <= (if s2 then - round_mag a2 e2 else round_mag a2 e2) ->
  leb (round s1 a1 e1) (round s2 a2 e2) = true.
Proof.
  intros He1 Ha1 He2 Ha2 Hle.
  pose proof (round_mag_nonneg a1 e1 He1 Ha1) as Hm1.
  pose proof (round_mag_nonneg a2 e2 He2 Ha2) as Hm2.
  pose proof overflow_threshold_pos as Ht.
  destruct (round_cases s1 a1 e1 He1 Ha1) as [[B1 ->]|[B1 [F1 V1]]];
  destruct (round_cases s2 a2 e2 He2 Ha2) as [[B2 ->]|[B2 [F2 V2]]].
  - destruct s1, s2; simpl; try reflexivity; lia.
  - destruct s1; [destruct (round s2 a2 e2); try discriminate; reflexivity|].
    destruct s2; lia.
  - destruct s2; [destruct s1; lia|].
    destruct (round s1 a1 e1); try discriminate; reflexivity.
  - destruct (round s1 a1 e1) as [| |  |k1]; try discriminate;
    destruct (round s2 a2 e2) as [| |  |k2]; try discriminate;
    simpl in *; apply Z.leb_le; lia.
Qed.

Lemma rnd_mono z1 z2 e :
  0 <= e -> z1 <= z2 -> leb (rnd z1 e) (rnd z2 e) = true.
Proof.
  intros He Hle. unfold rnd. apply leb_round; try lia.
  destruct (Z.ltb_spec z1 0), (Z.ltb_spec z2 0).
  - pose proof (round_mag_mono (Z.abs z2) (Z.abs z1) e He ltac:(lia)). lia.
  - pose proof (round_mag_nonneg (Z.abs z1) e He ltac:(lia)).
    pose proof (round_mag_nonneg (Z.abs z2) e He ltac:(lia)). lia.
  - lia.
  - apply round_mag_mono; lia.
Qed.

Lemma rnd_0 e : 0 <= e -> rnd 0 e = Fin 0.
Proof.
  intros He. unfold rnd, round. simpl Z.abs. rewrite round_mag_0 by assumption.
  pose proof overflow_threshold_pos.
  destruct (Z.leb_spec overflow_threshold 0); [lia|reflexivity].
Qed.

Lemma round_0 s e : 0 <= e -> unsigned_zero (round s 0 e) = Fin 0.
Proof.
  intros He. unfold round. rewrite round_mag_0 by assumption.
  pose proof overflow_threshold_pos.
  destruct (Z.leb_spec overflow_threshold 0); [lia|]. destruct s; reflexivity.
Qed.

(** A positive integer rounds to a positive value. *)
Lemma rnd_pos z : 0 < z -> ltb (Fin 0) (rnd z 0) = true.
Proof.
  intros Hz. unfold rnd.
  destruct (Z.ltb_spec z 0); [lia|].
  pose proof (round_mag_pos (Z.abs z) ltac:(lia)) as Hp.
  destruct (round_cases false (Z.abs z) 0 ltac:(lia) ltac:(lia))
    as [[_ ->]|[_ [F V]]]; [reflexivity|].
  destruct (round false (Z.abs z) 0); try discriminate; simpl in *;
    apply Z.ltb_lt; lia.
Qed.

(** *** The operations on finite values are roundings *)

Lemma add_finite x y :
  finite x = true -> finite y = true ->
  unsigned_zero (add x y) = unsigned_zero (rnd (toZ x + toZ y) 0).
Proof.
  destruct x as [| | |kx], y as [| | |ky]; try discriminate; intros _ _;
    reflexivity.
Qed.

Lemma mul_finite x y :
  finite x = true -> finite y = true ->
  unsigned_zero (mul x y) = unsigned_zero (rnd (toZ x * toZ y) 1074).
Proof.
  intros Fx Fy.
  assert (Hm : mul x y
               = round (xorb (signbit x) (signbit y))
                       (Z.abs (toZ x * toZ y)) 1074)
    by (destruct x, y; try discriminate; reflexivity).
  rewrite Hm. unfold rnd.
  destruct (Z.eq_dec (toZ x * toZ y) 0) as [H0|Hne].
  - rewrite H0. simpl Z.abs. rewrite !round_0 by lia. reflexivity.
  - replace (xorb (signbit x) (signbit y)) with (toZ x * toZ y <? 0);
      [reflexivity|].
    destruct x as [| | |kx], y as [| | |ky]; try discriminate; simpl in *;
      try lia.
    destruct (Z.ltb_spec kx 0), (Z.ltb_spec ky 0), (Z.ltb_spec (kx * ky) 0);
      simpl; try reflexivity; nia.
Qed.

Lemma add_finite_notnan x y :
  finite x = true -> finite y = true -> isNaN (add x y) = false.
Proof.
  destruct x, y; try discriminate; intros _ _; try reflexivity;
    apply round_notnan.
Qed.

Lemma mul_finite_notnan x y :
  finite x = true -> finite y = true -> isNaN (mul x y) = false.
Proof.
  destruct x, y; try discriminate; intros _ _; apply round_notnan.
Qed.

Lemma neg_finite x : finite x = true -> finite (neg x) = true.
Proof.
  destruct x as [| | |k]; try discriminate; intros _; try reflexivity.
  simpl. destruct (k =? 0); reflexivity.
Qed.

Lemma toZ_neg x : toZ (neg x) = - toZ x.
Proof.
  destruct x as [| | |k]; try reflexivity.
  simpl. destruct (Z.eqb_spec k 0); simpl; lia.
Qed.

Lemma sub_finite x y :
  finite x = true -> finite y = true ->
  unsigned_zero (sub x y) = unsigned_zero (rnd (toZ x - toZ y) 0).
Proof.
  intros Fx Fy. unfold sub. rewrite add_finite by auto using neg_finite.
  rewrite toZ_neg. reflexivity.
Qed.

Lemma leb_finite x y :
  finite x = true -> finite y = true -> leb x y = (toZ x <=? toZ y).
Proof. destruct x, y; try discriminate; reflexivity. Qed.

Lemma ltb_finite x y :
  finite x = true -> finite y = true -> ltb x y = (toZ x <? toZ y).
Proof. destruct x, y; try discriminate; reflexivity. Qed.

(** *** Order *)

Lemma leb_notnan x y : leb x y = true -> isNaN x = false /\ isNaN y = false.
Proof. destruct x as [|[]| |], y as [|[]| |]; simpl; intros; auto; discriminate. Qed.

Lemma ltb_notnan x y : ltb x y = true -> isNaN x = false /\ isNaN y = false.
Proof. destruct x as [|[]| |], y as [|[]| |]; simpl; intros; auto; discriminate. Qed.

Lemma leb_refl x : isNaN x = false -> leb x x = true.
Proof.
  destruct x as [|[]| |k]; simpl; intros; try reflexivity; try discriminate.
  apply Z.leb_refl.
Qed.

Lemma leb_trans x y z : leb x y = true -> leb y z = true -> leb x z = true.
Proof.
  destruct x as [|[]| |kx], y as [|[]| |ky], z as [|[]| |kz]; simpl;
    intros H1 H2; try reflexivity; try discriminate;
    apply Z.leb_le; apply Z.leb_le in H1, H2; lia.
Qed.

Lemma ltb_leb x y : ltb x y = true -> leb x y = true.
Proof.
  destruct x as [|[]| |kx], y as [|[]| |ky]; simpl;
    intros H1; try reflexivity; try discriminate;
    apply Z.leb_le; apply Z.ltb_lt in H1; lia.
Qed.

(** On numbers, [!(x > y)] is [x <= y]. *)
Lemma not_gtb_leb x y :
  isNaN x = false -> isNaN y = false -> negb (gtb x y) = leb x y.
Proof.
  unfold gtb.
  destruct x as [|[]| |kx], y as [|[]| |ky]; simpl; intros; try reflexivity;
    try discriminate; rewrite Z.leb_antisym; reflexivity.
Qed.

Lemma not_ltb_leb x y :
  isNaN x = false -> isNaN y = false -> negb (ltb x y) = leb y x.
Proof. intros. apply (not_gtb_leb y x); assumption. Qed.

(** *** Monotonicity of the operations, NaN aside *)

Lemma ordered_leb x y :
  isNaN x = false -> isNaN y = false -> ordered x y = true -> leb x y = true.
Proof. unfold ordered. intros -> ->. auto. Qed.

Lemma leb_ordered x y : leb x y = true -> ordered x y = true.
Proof. unfold ordered. intros ->. apply orb_true_r. Qed.

Lemma ordered_nan_r x : ordered x NaN = true.
Proof. unfold ordered. destruct x; reflexivity. Qed.

Lemma mul_nan_r x : mul x NaN = NaN.
Proof. destruct x; reflexivity. Qed.

Lemma add_nan_r x : add x NaN = NaN.
Proof. destruct x; reflexivity. Qed.

Lemma finite_cases x :
  x = NaN \/ (exists s, x = Inf s) \/ finite x = true.
Proof. destruct x; eauto. Qed.

Lemma mul_finite_mono c a b :
  finite c = true -> finite a = true -> finite b = true ->
  0 <= toZ c -> toZ a <= toZ b ->
  leb (mul c a) (mul c b) = true.
Proof.
  intros Fc Fa Fb Hc Hab.
  rewrite leb_unsigned_zero, !mul_finite, <- leb_unsigned_zero by assumption.
  apply rnd_mono; [lia|]. apply Z.mul_le_mono_nonneg_l; assumption.
Qed.

Lemma add_finite_mono a b a' b' :
  finite a = true -> finite b = true -> finite a' = true -> finite b' = true ->
  toZ a <= toZ a' -> toZ b <= toZ b' ->
  leb (add a b) (add a' b') = true.
Proof.
  intros Fa Fb Fa' Fb' Ha Hb.
  rewrite leb_unsigned_zero, !add_finite, <- leb_unsigned_zero by assumption.
  apply rnd_mono; lia.
Qed.

Ltac z_bool :=
  repeat match goal with
  | H : (_ <=? _) = true |- _ => apply Z.leb_le in H
  | H : (_ <=? _) = false |- _ => apply Z.leb_gt in H
  | H : (_ <? _) = true |- _ => apply Z.ltb_lt in H
  | H : (_ <? _) = false |- _ => apply Z.ltb_ge in H
  | H : (_ =? _) = true |- _ => apply Z.eqb_eq in H
  | H : (_ =? _) = false |- _ => apply Z.eqb_neq in H
  end.

(** Multiplication by a non-negative factor is monotone. *)
Lemma mul_inf_l s y :
  finite y = true ->
  mul (Inf s) y = if toZ y =? 0 then NaN else Inf (xorb s (signbit y)).
Proof. destruct y; try discriminate; reflexivity. Qed.

Lemma mul_inf_r x s :
  finite x = true ->
  mul x (Inf s) = if toZ x =? 0 then NaN else Inf (xorb (signbit x) s).
Proof. destruct x; try discriminate; reflexivity. Qed.

Lemma signbit_finite x :
  finite x = true -> toZ x <> 0 -> signbit x = (toZ x <? 0).
Proof. destruct x; try discriminate; intros _ H; [elim H|]; reflexivity. Qed.

Lemma leb_minf y : isNaN y = false -> leb (Inf true) y = true.
Proof. destruct y as [|[]| |]; try discriminate; reflexivity. Qed.

Lemma leb_pinf x : isNaN x = false -> leb x (Inf false) = true.
Proof. destruct x as [|[]| |]; try discriminate; reflexivity. Qed.

Lemma finite_notnan x : finite x = true -> isNaN x = false.
Proof. destruct x; try discriminate; reflexivity. Qed.

Lemma ordered_finite a b :
  finite a = true -> finite b = true -> ordered a b = true ->
  toZ a <= toZ b.
Proof.
  intros Fa Fb H. apply ordered_leb in H; auto using finite_notnan.
  rewrite leb_finite in H by assumption. apply Z.leb_le. exact H.
Qed.

Lemma mul_ordered c a b :
  isNaN c = true \/ leb zero c = true ->
  ordered a b = true ->
  ordered (mul c a) (mul c b) = true.
Proof.
  intros [Hc|Hc] Hab.
  { destruct c; try discriminate. reflexivity. }
  destruct (finite_cases a) as [->|[[sa ->]|Fa]];
    [rewrite mul_nan_r; reflexivity | |];
  (destruct (finite_cases b) as [->|[[sb ->]|Fb]];
    [rewrite mul_nan_r; apply ordered_nan_r | |]);
  (destruct (finite_cases c) as [->|[[sc ->]|Fc]]; [discriminate| |]).
  - (* c, a, b infinite *)
    destruct sc, sa, sb; try discriminate; reflexivity.
  - (* a, b infinite *)
    rewrite !mul_inf_r by assumption.
    destruct (Z.eqb_spec (toZ c) 0); [reflexivity|].
    rewrite signbit_finite by assumption.
    unfold zero in Hc. rewrite leb_finite in Hc by auto. z_bool.
    destruct (Z.ltb_spec (toZ c) 0); [cbn [toZ] in *; lia|].
    destruct sa, sb; try discriminate; reflexivity.
  - (* c, a infinite *)
    destruct sc; [discriminate|]. rewrite (mul_inf_l _ b) by assumption.
    destruct (Z.eqb_spec (toZ b) 0); [apply ordered_nan_r|].
    destruct sa; [reflexivity|]. destruct b; discriminate.
  - (* a infinite *)
    destruct sa; [|destruct b; discriminate].
    rewrite (mul_inf_r c) by assumption.
    destruct (Z.eqb_spec (toZ c) 0); [reflexivity|].
    rewrite signbit_finite by assumption.
    unfold zero in Hc. rewrite leb_finite in Hc by auto. z_bool.
    destruct (Z.ltb_spec (toZ c) 0); [cbn [toZ] in *; lia|].
    apply leb_ordered. apply leb_minf. apply mul_finite_notnan; assumption.
  - (* c, b infinite *)
    destruct sc; [discriminate|]. rewrite (mul_inf_l _ a) by assumption.
    destruct (Z.eqb_spec (toZ a) 0); [reflexivity|].
    destruct sb; [destruct a; discriminate|]. cbn [mul].
    destruct (xorb false (signbit a)); reflexivity.
  - (* b infinite *)
    destruct sb; [destruct a; discriminate|].
    rewrite (mul_inf_r c) by assumption.
    destruct (Z.eqb_spec (toZ c) 0); [apply ordered_nan_r|].
    rewrite signbit_finite by assumption.
    unfold zero in Hc. rewrite leb_finite in Hc by auto. z_bool.
    destruct (Z.ltb_spec (toZ c) 0); [cbn [toZ] in *; lia|].
    apply leb_ordered. apply leb_pinf. apply mul_finite_notnan; assumption.
  - (* c infinite *)
    destruct sc; [discriminate|]. rewrite !mul_inf_l by assumption.
    pose proof (ordered_finite a b Fa Fb Hab) as Hle.
    destruct (Z.eqb_spec (toZ a) 0); [reflexivity|].
    destruct (Z.eqb_spec (toZ b) 0); [apply ordered_nan_r|].
    rewrite !signbit_finite by assumption.
    destruct (Z.ltb_spec (toZ a) 0), (Z.ltb_spec (toZ b) 0);
      try reflexivity. lia.
  - (* all finite *)
    apply leb_ordered. apply mul_finite_mono; try assumption.
    + unfold zero in Hc. rewrite leb_finite in Hc by auto. z_bool.
      exact Hc.
    + apply ordered_finite; assumption.
Qed.

Lemma add_inf_l s y : finite y = true -> add (Inf s) y = Inf s.
Proof. destruct y; try discriminate; reflexivity. Qed.

Lemma add_inf_r x s : finite x = true -> add x (Inf s) = Inf s.
Proof. destruct x; try discriminate; reflexivity. Qed.

Lemma leb_inf_finite s y :
  finite y = true -> leb (Inf s) y = true -> s = true.
Proof. destruct y, s; try discriminate; reflexivity. Qed.

Lemma leb_finite_inf x s :
  finite x = true -> leb x (Inf s) = true -> s = false.
Proof. destruct x, s; try discriminate; reflexivity. Qed.

Lemma leb_inf_inf s t : leb (Inf s) (Inf t) = true -> s = true \/ t = false.
Proof. destruct s, t; auto; discriminate. Qed.

(** Addition is monotone in both arguments. *)
Lemma add_ordered a b a' b' :
  ordered a a' = true -> ordered b b' = true ->
  ordered (add a b) (add a' b') = true.
Proof.
  intros Ha Hb.
  destruct (finite_cases a) as [->|Ca]; [reflexivity|].
  destruct (finite_cases a') as [->|Ca']; [apply ordered_nan_r|].
  destruct (finite_cases b) as [->|Cb]; [rewrite add_nan_r; reflexivity|].
  destruct (finite_cases b') as [->|Cb'];
    [rewrite add_nan_r; apply ordered_nan_r|].
  assert (Na : isNaN a = false)
    by (destruct Ca as [[? ->]|?]; auto using finite_notnan).
  assert (Na' : isNaN a' = false)
    by (destruct Ca' as [[? ->]|?]; auto using finite_notnan).
  assert (Nb : isNaN b = false)
    by (destruct Cb as [[? ->]|?]; auto using finite_notnan).
  assert (Nb' : isNaN b' = false)
    by (destruct Cb' as [[? ->]|?]; auto using finite_notnan).
  apply ordered_leb in Ha; [|assumption..].
  apply ordered_leb in Hb; [|assumption..].
  destruct Ca as [[sa ->]|Fa], Ca' as [[sa' ->]|Fa'],
           Cb as [[sb ->]|Fb], Cb' as [[sb' ->]|Fb'];
    repeat match goal with
    | H : leb (Inf _) (Inf _) = true |- _ => apply leb_inf_inf in H
    | H : leb (Inf _) ?y = true |- _ =>
        apply leb_inf_finite in H; [subst|assumption]
    | H : leb ?x (Inf _) = true |- _ =>
        apply leb_finite_inf in H; [subst|assumption]
    end;
    repeat match goal with
    | F : finite ?y = true |- context [add (Inf ?s) ?y] =>
        rewrite (add_inf_l s y F)
    | F : finite ?x = true |- context [add ?x (Inf ?s)] =>
        rewrite (add_inf_r x s F)
    end;
    try (apply leb_ordered; apply leb_minf; apply add_finite_notnan;
         assumption);
    try (apply leb_ordered; apply leb_pinf; apply add_finite_notnan;
         assumption);
    try reflexivity;
    repeat match goal with
    | H : _ \/ _ |- _ => destruct H; subst
    end;
    try reflexivity;
    repeat match goal with s : bool |- _ => destruct s end;
    try reflexivity.
  apply leb_ordered. apply add_finite_mono; try assumption.
  - rewrite leb_finite in Ha by assumption. apply Z.leb_le. exact Ha.
  - rewrite leb_finite in Hb by assumption. apply Z.leb_le. exact Hb.
Qed.

(** [Math.max] is not below either argument. *)
Lemma max_ge x y :
  isNaN x = false -> isNaN y = false ->
  leb x (max x y) = true /\ leb y (max x y) = true.
Proof.
  intros Hx Hy.
  assert (Hm : max x y = if ltb x y then y else if ltb y x then x
                         else if signbit x then y else x)
    by (destruct x, y; try discriminate; reflexivity).
  rewrite Hm.
  pose proof (not_ltb_leb x y Hx Hy) as H1.
  pose proof (not_ltb_leb y x Hy Hx) as H2.
  destruct (ltb x y) eqn:E1.
  - split; [apply ltb_leb; assumption|apply leb_refl; assumption].
  - destruct (ltb y x) eqn:E2.
    + split; [apply leb_refl; assumption|apply ltb_leb; assumption].
    + simpl in H1, H2. destruct (signbit x); split; auto using leb_refl.
Qed.

Lemma max_lt x y : ltb x y = true -> max x y = y.
Proof.
  intros H. destruct (ltb_notnan x y H).
  destruct x, y; try discriminate; unfold max; rewrite H; reflexivity.
Qed.

Lemma max_nan_r x : max x NaN = NaN.
Proof. destruct x; reflexivity. Qed.

Lemma max_ordered a b c :
  ordered a b = true -> ordered a (max b c) = true.
Proof.
  intros H.
  destruct (isNaN a) eqn:Na; [destruct a; try discriminate; reflexivity|].
  destruct (isNaN b) eqn:Nb;
    [destruct b; try discriminate; apply ordered_nan_r|].
  destruct (isNaN c) eqn:Nc;
    [destruct c; try discriminate; rewrite max_nan_r; apply ordered_nan_r|].
  apply leb_ordered. apply leb_trans with b.
  - apply ordered_leb; assumption.
  - apply max_ge; assumption.
Qed.

Lemma leb_ltb_trans x y z : leb x y = true -> ltb y z = true -> ltb x z = true.
Proof.
  destruct x as [|[]| |kx], y as [|[]| |ky], z as [|[]| |kz];
    cbn [leb ltb toZ negb andb]; intros H1 H2;
    try reflexivity; try discriminate; z_bool; apply Z.ltb_lt; lia.
Qed.

(** [1 - p] is not negative when [p] does not exceed 1. *)
Lemma one_minus_nonneg p :
  gtb p one = false ->
  isNaN (sub one p) = true \/ leb zero (sub one p) = true.
Proof.
  unfold gtb. intros H.
  destruct (finite_cases p) as [->|[[s ->]|Fp]].
  - left. reflexivity.
  - destruct s; [right; reflexivity|discriminate].
  - right. unfold one in *. rewrite ltb_finite in H by auto.
    cbn [toZ] in H. z_bool.
    rewrite leb_unsigned_zero, sub_finite by auto.
    change (unsigned_zero zero) with (unsigned_zero (Fin 0)).
    rewrite <- (rnd_0 0) by lia. rewrite <- leb_unsigned_zero.
    apply rnd_mono; cbn [toZ]; lia.
Qed.

(** [a - b] is not positive when [a <= b]. *)
Lemma sub_nonpos a b : leb a b = true -> gtb (sub a b) zero = false.
Proof.
  intros H. unfold gtb.
  destruct (finite_cases a) as [->|[[sa ->]|Fa]]; [discriminate| |];
  (destruct (finite_cases b) as [->|[[sb ->]|Fb]];
     [apply leb_notnan in H; destruct H; discriminate| |]).
  - destruct sa, sb; try discriminate; reflexivity.
  - apply leb_inf_finite in H; [subst|assumption].
    unfold sub. rewrite add_inf_l by auto using neg_finite. reflexivity.
  - apply leb_finite_inf in H; [subst|assumption].
    unfold sub. cbn [neg negb]. rewrite add_inf_r by assumption. reflexivity.
  - rewrite leb_finite in H by assumption. z_bool.
    apply negb_true_iff. rewrite not_ltb_leb;
      [|reflexivity|unfold sub; apply add_finite_notnan; auto using neg_finite].
    rewrite leb_unsigned_zero, sub_finite by assumption.
    change (unsigned_zero zero) with (unsigned_zero (Fin 0)).
    rewrite <- (rnd_0 0) by lia. rewrite <- leb_unsigned_zero.
    apply rnd_mono; lia.
Qed.

(** The sum of two positive numbers is positive. *)
Lemma add_pos a b :
  gtb a zero = true -> gtb b zero = true -> gtb (add a b) zero = true.
Proof.
  unfold gtb. intros Ha Hb.
  destruct (finite_cases a) as [->|[[sa ->]|Fa]]; [discriminate| |];
  (destruct (finite_cases b) as [->|[[sb ->]|Fb]]; [discriminate| |]).
  - destruct sa, sb; try discriminate; reflexivity.
  - destruct sa; [discriminate|]. rewrite add_inf_l by assumption.
    reflexivity.
  - destruct sb; [discriminate|]. rewrite add_inf_r by assumption.
    reflexivity.
  - unfold zero in *. rewrite ltb_finite in Ha, Hb by auto.
    cbn [toZ] in *. z_bool.
    rewrite ltb_unsigned_zero, add_finite by assumption.
    rewrite <- ltb_unsigned_zero. apply rnd_pos. lia.
Qed.

(** A positive number below a finite one is finite. *)
Lemma bounded_finite x c :
  gtb x zero = true -> leb x c = true -> finite c = true -> finite x = true.
Proof.
  unfold gtb, zero.
  destruct x as [|[]| |kx], c as [|[]| |kc]; try discriminate; reflexivity.
Qed.

Lemma ordered_refl x : ordered x x = true.
Proof.
  destruct (isNaN x) eqn:E; [destruct x; try discriminate; reflexivity|].
  apply leb_ordered, leb_refl. exact E.
Qed.

(** A number that is not negative is NaN or at least zero. *)
Lemma not_negative x :
  ltb x zero = false -> isNaN x = true \/ leb zero x = true.
Proof.
  intros H. destruct (isNaN x) eqn:E; [auto|right].
  rewrite <- not_ltb_leb by (assumption || reflexivity).
  rewrite H. reflexivity.
Qed.

(** *** The reference exp returns no negative number *)

Lemma round_not_negative a e :
  0 <= e -> 0 <= a -> ltb (round false a e) zero = false.
Proof.
  intros He Ha.
  pose proof (round_mag_nonneg a e He Ha) as Hm.
  destruct (round_cases false a e He Ha) as [[_ ->]|[_ [F V]]];
    [reflexivity|].
  unfold zero. rewrite ltb_finite by auto. cbn [toZ]. apply Z.ltb_ge. lia.
Qed.

Lemma round_ratio_not_negative a b :
  0 <= a -> 0 <= b -> ltb (round_ratio false a b) zero = false.
Proof.
  intros Ha Hb. unfold round_ratio.
  assert (Hq : 0 <= (4 * a) / b) by (apply Z_div_nonneg_nonneg; lia).
  unfold Z.div in Hq. destruct (Z.div_eucl (4 * a) b) as [q r].
  cbn [fst] in Hq.
  apply round_not_negative; [lia|]. destruct (r =? 0); lia.
Qed.

Lemma fx_mul_nonneg x y : 0 <= x -> 0 <= y -> 0 <= fx_mul x y.
Proof.
  intros Hx Hy. unfold fx_mul. apply Z.shiftr_nonneg.
  apply Z.mul_nonneg_nonneg; assumption.
Qed.

Lemma fx_one_pos : 0 < fx_one.
Proof. apply pow2_pos. unfold fx_bits. lia. Qed.

Lemma exp_taylor_nonneg i x acc :
  0 <= x -> 0 <= acc -> 0 <= exp_taylor i x acc.
Proof.
  intros Hx. revert acc. induction i as [|i IH]; intros acc Hacc.
  - exact Hacc.
  - cbn [exp_taylor]. apply IH.
    pose proof fx_one_pos.
    pose proof (fx_mul_nonneg x acc Hx Hacc).
    assert (0 <= fx_mul x acc / Z.of_nat (Datatypes.S i))
      by (apply Z.div_pos; lia).
    lia.
Qed.

Lemma fx_square_nonneg m x : 0 <= x -> 0 <= fx_square m x.
Proof.
  revert x. induction m as [|m IH]; intros x Hx; [exact Hx|].
  cbn [fx_square]. apply IH. apply fx_mul_nonneg; assumption.
Qed.

Lemma exp_fx_nonneg k : 0 <= k -> 0 <= exp_fx k.
Proof.
  intros Hk. unfold exp_fx. apply fx_square_nonneg.
  apply exp_taylor_nonneg; [|pose proof fx_one_pos; lia].
  apply Z.shiftr_nonneg. apply Z.shiftl_nonneg. exact Hk.
Qed.

Lemma exp64_not_negative x : ltb (exp64 x) zero = false.
Proof.
  destruct x as [|[]| |k]; try reflexivity.
  unfold exp64.
  destruct (Z.leb_spec 0 k).
  - destruct (_ <=? k); [reflexivity|].
    apply round_not_negative; [unfold fx_bits; lia|].
    apply Z.shiftl_nonneg. apply exp_fx_nonneg. assumption.
  - destruct (_ <=? - k); [reflexivity|].
    apply round_ratio_not_negative.
    + pose proof (pow2_pos (1074 + fx_bits)). unfold fx_bits in *. lia.
    + apply exp_fx_nonneg. lia.
Qed.

End F64_facts.

(** *** The model against the Standard Library's specification *)

Example add_agrees : agree_on pool add (SFadd 53 1024) = true.
Proof. vm_compute. reflexivity. Qed.

Example sub_agrees : agree_on pool sub (SFsub 53 1024) = true.
Proof. vm_compute. reflexivity. Qed.

Example mul_agrees : agree_on pool mul (SFmul 53 1024) = true.
Proof. vm_compute. reflexivity. Qed.

Example div_agrees : agree_on (firstn 16 pool) div (SFdiv 53 1024) = true.
Proof. vm_compute. reflexivity. Qed.

Example sqrt_agrees :
  forallb (fun x => spec_float_eqb (to_spec (sqrt x))
                      (SFsqrt 53 1024 (to_spec x))) pool = true.
Proof. vm_compute. reflexivity. Qed.

Example neg_abs_agree :
  forallb (fun x => spec_float_eqb (to_spec (neg x)) (SFopp (to_spec x))
                    && spec_float_eqb (to_spec (abs x)) (SFabs (to_spec x)))
    pool = true.
Proof. vm_compute. reflexivity. Qed.

Example ltb_agrees : agree_test_on pool ltb SFltb = true.
Proof. vm_compute. reflexivity. Qed.

Example leb_agrees : agree_test_on pool leb SFleb = true.
Proof. vm_compute. reflexivity. Qed.

Example eqb_agrees : agree_test_on pool eqb SFeqb = true.
Proof. vm_compute. reflexivity. Qed.

(** *** The model on known values

    The expected values are the ones a JavaScript engine prints. *)

Example tenth_plus_fifth :
  add (dec 1 (-1)) (dec 2 (-1)) = dec 30000000000000004 (-17).
Proof. vm_compute. reflexivity. Qed.

Example one_third : div one (dec 3 0) = dec 3333333333333333 (-16).
Proof. vm_compute. reflexivity. Qed.

Example sqrt_two : sqrt (dec 2 0) = dec 14142135623730951 (-16).
Proof. vm_compute. reflexivity. Qed.

Example exp_one : exp64 one = dec 2718281828459045 (-15).
Proof. vm_compute. reflexivity. Qed.

Example exp_overflows : exp64 (dec 710 0) = Inf false.
Proof. vm_compute. reflexivity. Qed.

Example product_overflows : mul (dec 1 200) (dec 1 200) = Inf false.
Proof. vm_compute. reflexivity. Qed.

Example smallest_subnormal_halved : mul (Fin 1) (dec 5 (-1)) = Fin 0.
Proof. vm_compute. reflexivity. Qed.

Example zero_times_infinity : mul zero (Inf false) = NaN.
Proof. reflexivity. Qed.

Example nan_not_below_nan : leb NaN NaN = false.
Proof. reflexivity. Qed.

Example max_of_zeros : max NZero zero = zero /\ max zero NZero = zero.
Proof. split; reflexivity. Qed.

Example european_call_three_steps :
  binomialOptionPricing (dec 100 0) (dec 100 0) (dec 1 0) (dec 5 (-2))
    (dec 2 (-1)) (dec 3 0) "call" "european" (dec 2 (-2))
  = Return (dec 9855621450465284 (-15)).
Proof. vm_compute. reflexivity. Qed.

Example american_put_three_steps :
  binomialOptionPricing (dec 100 0) (dec 100 0) (dec 1 0) (dec 5 (-2))
    (dec 2 (-1)) (dec 3 0) "put" "american" (dec 2 (-2))
  = Return (dec 7215182298021025 (-15)).
Proof. vm_compute. reflexivity. Qed.

(** ** Exact operations of the binary64 model *)

Module F64_exact.

Import F64_facts.

(** A multiple of [2^t] is its own rounding. *)
Lemma rne_multiple q t : 0 <= t -> rne (q * pow2 t) t = q.
Proof.
  intros Ht. pose proof (pow2_pos t Ht) as Hp.
  destruct (rne_cases (q * pow2 t) t Ht) as [[_ ->]|[[H _]|[H _]]];
    rewrite ?Z.div_mul, ?Z.mod_mul in * by lia; lia.
Qed.

Lemma rne_scale a e t :
  0 <= e -> 0 <= t -> rne (a * pow2 e) (e + t) = rne a t.
Proof.
  intros He Ht.
  pose proof (pow2_pos e He) as Hpe. pose proof (pow2_pos t Ht) as Hpt.
  assert (Hq : a * pow2 e / pow2 (e + t) = a / pow2 t).
  { rewrite pow2_add by assumption. rewrite (Z.mul_comm (pow2 e) (pow2 t)).
    apply Z.div_mul_cancel_r; lia. }
  assert (Hr : (a * pow2 e) mod pow2 (e + t) = (a mod pow2 t) * pow2 e).
  { rewrite pow2_add by assumption. rewrite (Z.mul_comm (pow2 e) (pow2 t)).
    apply Z.mul_mod_distr_r; lia. }
  assert (Hp : pow2 (e + t) = pow2 t * pow2 e)
    by (rewrite pow2_add by assumption; lia).
  destruct (rne_cases (a * pow2 e) (e + t) ltac:(lia))
    as [[H1 ->]|[[H1 ->]|[H1 ->]]];
  destruct (rne_cases a t Ht) as [[H2 ->]|[[H2 ->]|[H2 ->]]];
    rewrite ?Hq, ?Hr, ?Hp in *; try reflexivity; nia.
Qed.

Lemma round_mag_scale a e : 0 <= e -> round_mag (a * pow2 e) e = round_mag a 0.
Proof.
  intros He. unfold round_mag, grid_shift.
  rewrite shiftr_pow2 by assumption.
  rewrite Z.div_mul by (pose proof (pow2_pos e He); lia).
  rewrite Z.shiftr_0_r.
  set (s := Z.max 0 (Z.log2 a - 52)).
  rewrite rne_scale by (unfold s; lia). reflexivity.
Qed.

(** The binade of a rounded value. *)
Lemma rne_upper a e :
  0 <= e -> 0 <= a -> rne a (e + grid_shift a e) <= pow2 53.
Proof.
  intros He Ha. pose proof (grid_shift_nonneg a e).
  pose proof (scaled_upper a e He Ha).
  pose proof (rne_bounds a (e + grid_shift a e) ltac:(lia)). lia.
Qed.

Lemma rne_lower a e :
  0 <= e -> 0 < grid_shift a e -> pow2 52 <= rne a (e + grid_shift a e).
Proof.
  intros He Hs. pose proof (scaled_lower a e He Hs).
  pose proof (rne_bounds a (e + grid_shift a e) ltac:(lia)). lia.
Qed.

(** A mantissa of at most 53 bits, shifted, is on the grid. *)
Lemma round_mag_grid z s :
  0 <= s -> 0 <= z <= pow2 53 -> (0 < s -> pow2 52 <= z) ->
  round_mag (z * pow2 s) 0 = z * pow2 s.
Proof.
  intros Hs [Hz0 Hz] Hlow.
  pose proof (pow2_pos s Hs) as Hps.
  destruct (Z.eq_dec z 0) as [->|Hnz].
  { rewrite Z.mul_0_l. apply round_mag_0. lia. }
  assert (Hlog : Z.log2 (z * pow2 s) = Z.log2 z + s).
  { rewrite pow2_eq by assumption. rewrite Z.log2_mul_pow2 by lia. lia. }
  unfold round_mag, grid_shift. rewrite Z.shiftr_0_r, Hlog.
  destruct (Z.eq_dec z (pow2 53)) as [->|Hne].
  - assert (Hl : Z.log2 (pow2 53) = 53)
      by (rewrite pow2_eq by lia; apply Z.log2_pow2; lia).
    rewrite Hl. rewrite Z.max_r by lia.
    replace (pow2 53 * pow2 s) with (pow2 52 * pow2 (53 + s - 52))
      by (rewrite <- !pow2_add by lia; f_equal; lia).
    rewrite Z.add_0_l, rne_multiple by lia.
    rewrite shiftl_pow2 by lia. reflexivity.
  - assert (Hl53 : Z.log2 z < 53).
    { apply Z.log2_lt_pow2; [lia|]. rewrite <- pow2_eq by lia. lia. }
    destruct (Z.eq_dec s 0) as [->|Hs0].
    + rewrite Z.add_0_r, Z.max_l by lia.
      replace (pow2 0) with 1 by reflexivity. rewrite Z.mul_1_r.
      rewrite Z.shiftl_0_r. apply rne_exact.
    + assert (Hl52 : 52 <= Z.log2 z).
      { apply Z.log2_le_pow2; [lia|]. rewrite <- pow2_eq by lia.
        apply Hlow. lia. }
      assert (Z.log2 z = 52) by lia.
      replace (Z.log2 z + s - 52) with s by lia.
      rewrite Z.max_r, Z.add_0_l by lia.
      rewrite rne_multiple, shiftl_pow2 by lia. reflexivity.
Qed.

(** Rounding twice is rounding once. *)
Lemma round_mag_idempotent a e :
  0 <= e -> 0 <= a -> round_mag (round_mag a e) 0 = round_mag a e.
Proof.
  intros He Ha. unfold round_mag at 2 3.
  pose proof (grid_shift_nonneg a e) as Hs.
  rewrite shiftl_pow2 by assumption.
  apply round_mag_grid; try assumption.
  - split; [apply rne_nonneg; lia|apply rne_upper; assumption].
  - intros H. apply rne_lower; assumption.
Qed.

Lemma round_representable s a e :
  0 <= e -> 0 <= a -> representable (round s a e).
Proof.
  intros He Ha. unfold round.
  pose proof (round_mag_nonneg a e He Ha) as Hm.
  destruct (Z.leb_spec overflow_threshold (round_mag a e)); [exact I|].
  destruct (Z.eqb_spec (round_mag a e) 0) as [E|E].
  - destruct s; [exact I|]. cbn [representable]. rewrite Z.abs_0.
    split; [apply round_mag_0; lia|apply overflow_threshold_pos].
  - cbn [representable].
    replace (Z.abs (if s then - round_mag a e else round_mag a e))
      with (round_mag a e) by (destruct s; lia).
    split; [apply round_mag_idempotent; assumption|assumption].
Qed.

Lemma add_representable x y :
  finite x = true -> finite y = true -> representable (add x y).
Proof.
  destruct x as [| | |kx], y as [| | |ky]; try discriminate; intros _ _;
    try exact I; apply round_representable; lia.
Qed.

Lemma mul_representable x y :
  finite x = true -> finite y = true -> representable (mul x y).
Proof.
  intros Fx Fy.
  assert (Hm : mul x y
               = round (xorb (signbit x) (signbit y))
                       (Z.abs (toZ x * toZ y)) 1074)
    by (destruct x, y; try discriminate; reflexivity).
  rewrite Hm. apply round_representable; lia.
Qed.

(** Rounding leaves a representable number unchanged. *)
Lemma rnd_representable k :
  representable (Fin k) -> unsigned_zero (rnd k 0) = Fin k.
Proof.
  intros [Hg Hb]. unfold rnd, round. rewrite Hg.
  destruct (Z.leb_spec overflow_threshold (Z.abs k)); [lia|].
  destruct (Z.eqb_spec (Z.abs k) 0) as [E|E].
  - assert (k = 0) by lia. subst. reflexivity.
  - destruct (Z.ltb_spec k 0); cbn [unsigned_zero]; f_equal; lia.
Qed.

Lemma rnd_scale z e : 0 <= e -> rnd (z * pow2 e) e = rnd z 0.
Proof.
  intros He. pose proof (pow2_pos e He) as Hp. unfold rnd, round.
  rewrite Z.abs_mul, (Z.abs_eq (pow2 e)) by lia.
  rewrite round_mag_scale by assumption.
  replace (z * pow2 e <? 0) with (z <? 0); [reflexivity|].
  destruct (Z.ltb_spec z 0), (Z.ltb_spec (z * pow2 e) 0); try reflexivity; nia.
Qed.

(** Multiplying by 1 changes nothing, the sign of a zero aside. *)
Lemma mul_one_r x :
  finite x = true -> representable x ->
  unsigned_zero (mul x one) = unsigned_zero x.
Proof.
  intros Fx Rx. rewrite mul_finite by auto.
  unfold one. cbn [toZ]. change unit_scale with (pow2 1074).
  rewrite rnd_scale by lia.
  destruct x as [| | |k]; try discriminate.
  - rewrite rnd_0 by lia. reflexivity.
  - apply rnd_representable. exact Rx.
Qed.

(** *** Division *)

Lemma round_ratio_eq s a b :
  round_ratio s a b
  = round s (if (4 * a) mod b =? 0 then 2 * (4 * a / b)
             else 2 * (4 * a / b) + 1) 3.
Proof.
  unfold round_ratio, Z.div, Z.modulo.
  destruct (Z.div_eucl (4 * a) b). reflexivity.
Qed.

Lemma one_representable : round_mag unit_scale 0 = unit_scale.
Proof.
  change unit_scale with (pow2 1074).
  replace (pow2 1074) with (pow2 52 * pow2 1022)
    by (rewrite <- pow2_add by lia; reflexivity).
  apply round_mag_grid; try lia.
  - split; [pose proof (pow2_pos 52); lia|apply pow2_le; lia].
Qed.

Lemma unit_scale_small : unit_scale < overflow_threshold.
Proof.
  unfold unit_scale, overflow_threshold. rewrite !pow2_eq by lia.
  apply Z.pow_lt_mono_r; lia.
Qed.

Lemma unit_scale_pos : 0 < unit_scale.
Proof. apply pow2_pos. lia. Qed.

(** The magnitude of [1 / u], against 1. *)
Lemma reciprocal_mag b :
  0 < b ->
  let m := if (4 * (unit_scale * unit_scale)) mod b =? 0
           then 2 * (4 * (unit_scale * unit_scale) / b)
           else 2 * (4 * (unit_scale * unit_scale) / b) + 1 in
  0 <= m /\
  (b = unit_scale -> round_mag m 3 = unit_scale) /\
  (b < unit_scale -> unit_scale <= round_mag m 3) /\
  (unit_scale < b -> round_mag m 3 <= unit_scale).
Proof.
  intros Hb m. pose proof unit_scale_pos as HU.
  assert (H8 : round_mag (unit_scale * pow2 3) 3 = unit_scale)
    by (rewrite round_mag_scale by lia; apply one_representable).
  assert (Hq0 : 0 <= 4 * (unit_scale * unit_scale) / b)
    by (apply Z.div_pos; nia).
  assert (Hm0 : 0 <= m) by (unfold m; destruct (_ =? 0); lia).
  split; [exact Hm0|]. split; [|split].
  - intros ->. unfold m.
    replace (4 * (unit_scale * unit_scale)) with (4 * unit_scale * unit_scale)
      by lia.
    rewrite Z.mod_mul, Z.div_mul by lia. cbn [Z.eqb].
    replace (2 * (4 * unit_scale)) with (unit_scale * pow2 3)
      by (change (pow2 3) with 8; lia).
    exact H8.
  - intros Hlt.
    apply Z.le_trans with (round_mag (unit_scale * pow2 3) 3);
      [rewrite H8; lia|].
    apply round_mag_mono; [lia|].
    change (pow2 3) with 8.
    assert (4 * unit_scale <= 4 * (unit_scale * unit_scale) / b)
      by (apply Z.div_le_lower_bound; nia).
    split; [lia|]. unfold m. destruct (_ =? 0); lia.
  - intros Hgt.
    apply Z.le_trans with (round_mag (unit_scale * pow2 3) 3);
      [|rewrite H8; lia].
    apply round_mag_mono; [lia|].
    change (pow2 3) with 8.
    assert (4 * (unit_scale * unit_scale) / b < 4 * unit_scale)
      by (apply Z.div_lt_upper_bound; nia).
    split; [lia|]. unfold m. destruct (_ =? 0); lia.
Qed.

(** A number equals its reciprocal exactly when it is 1 or -1. *)
Lemma eqb_reciprocal u : eqb u (div one u) = eqb (abs u) one.
Proof.
  pose proof unit_scale_pos as HU. pose proof unit_scale_small as HT.
  destruct u as [|s| |k]; [reflexivity| | |].
  - cbn [div one abs eqb]. destruct (xorb _ _); reflexivity.
  - cbn [abs eqb toZ one]. cbn [div one signbit toZ].
    destruct (Z.eqb_spec 0 0); [|lia].
    destruct (Z.eqb_spec unit_scale 0); [lia|].
    destruct (Z.eqb_spec 0 unit_scale); [lia|reflexivity].
  - cbn [abs one]. unfold div, one. cbn [toZ signbit].
    destruct (Z.eqb_spec k 0) as [->|Hk].
    + destruct (Z.eqb_spec unit_scale 0); [lia|].
      cbn [eqb toZ Z.abs]. destruct (Z.eqb_spec 0 unit_scale); [lia|reflexivity].
    + rewrite round_ratio_eq. rewrite (Z.abs_eq unit_scale) by lia.
      destruct (reciprocal_mag (Z.abs k) ltac:(lia)) as (Hm0 & Heq & Hlt & Hgt).
      set (m := if _ =? 0 then _ else _) in *.
      replace (xorb (unit_scale <? 0) (k <? 0)) with (k <? 0)
        by (destruct (Z.ltb_spec unit_scale 0); [lia|reflexivity]).
      destruct (round_cases (k <? 0) m 3 ltac:(lia) Hm0)
        as [[Hover ->]|[Hunder [Ffin Hval]]].
      * cbn [eqb toZ].
        destruct (Z.eqb_spec (Z.abs k) unit_scale) as [E|E]; [|reflexivity].
        specialize (Heq E). lia.
      * assert (Hr : eqb (Fin k) (round (k <? 0) m 3)
                     = (k =? toZ (round (k <? 0) m 3)))
          by (destruct (round (k <? 0) m 3); try discriminate; reflexivity).
        rewrite Hr, Hval. cbn [eqb toZ].
        destruct (Z.eqb_spec (Z.abs k) unit_scale) as [E|E].
        -- specialize (Heq E). apply Z.eqb_eq.
           destruct (Z.ltb_spec k 0); lia.
        -- apply Z.eqb_neq.
           destruct (Z.lt_total (Z.abs k) unit_scale) as [L|[L|L]];
             [specialize (Hlt L)|lia|specialize (Hgt L)];
             destruct (Z.ltb_spec k 0); lia.
Qed.

(** *** Numbers that are not negative *)

Lemma mul_not_negative a b :
  ordered zero a = true -> ordered zero b = true ->
  ordered zero (mul a b) = true.
Proof.
  intros Ha Hb.
  destruct (finite_cases a) as [->|[[sa ->]|Fa]]; [reflexivity| |];
  (destruct (finite_cases b) as [->|[[sb ->]|Fb]];
     [rewrite mul_nan_r; reflexivity| |]).
  - destruct sa, sb; try discriminate; reflexivity.
  - destruct sa; [discriminate|]. rewrite mul_inf_l by assumption.
    destruct (Z.eqb_spec (toZ b) 0); [reflexivity|].
    rewrite signbit_finite by assumption.
    pose proof (ordered_finite zero b eq_refl Fb Hb) as H0. cbn [toZ zero] in H0.
    destruct (Z.ltb_spec (toZ b) 0); [lia|reflexivity].
  - destruct sb; [discriminate|]. rewrite mul_inf_r by assumption.
    destruct (Z.eqb_spec (toZ a) 0); [reflexivity|].
    rewrite signbit_finite by assumption.
    pose proof (ordered_finite zero a eq_refl Fa Ha) as H0. cbn [toZ zero] in H0.
    destruct (Z.ltb_spec (toZ a) 0); [lia|reflexivity].
  - apply leb_ordered.
    pose proof (ordered_finite zero a eq_refl Fa Ha) as H0.
    pose proof (ordered_finite zero b eq_refl Fb Hb) as H1.
    cbn [toZ zero] in H0, H1.
    rewrite leb_unsigned_zero, mul_finite by assumption.
    replace (unsigned_zero zero) with (unsigned_zero (rnd 0 1074))
      by (rewrite rnd_0 by lia; reflexivity).
    rewrite <- leb_unsigned_zero. apply rnd_mono; [lia|nia].
Qed.

Lemma add_not_negative a b :
  ordered zero a = true -> ordered zero b = true ->
  ordered zero (add a b) = true.
Proof.
  intros Ha Hb. change zero with (add zero zero) at 1.
  apply add_ordered; assumption.
Qed.

Lemma max_zero_not_negative y : ordered zero (max zero y) = true.
Proof. apply max_ordered. reflexivity. Qed.

(** *** Doubling and halving are exact *)

Lemma grid_form a :
  0 <= a -> round_mag a 0 = a ->
  exists z s,
    0 <= s /\ 0 <= z <= pow2 53 /\ (0 < s -> pow2 52 <= z) /\ a = z * pow2 s.
Proof.
  intros Ha H. unfold round_mag in H.
  pose proof (grid_shift_nonneg a 0) as Hs.
  rewrite shiftl_pow2 in H by assumption.
  exists (rne a (0 + grid_shift a 0)), (grid_shift a 0).
  split; [assumption|]. split; [|split].
  - split; [apply rne_nonneg; lia|apply rne_upper; lia].
  - intros Hpos. apply rne_lower; lia.
  - symmetry. exact H.
Qed.

Lemma round_mag_double a :
  0 <= a -> round_mag a 0 = a -> round_mag (2 * a) 0 = 2 * a.
Proof.
  intros Ha H.
  destruct (grid_form a Ha H) as (z & s & Hs & Hz & Hlow & ->).
  assert (H53 : pow2 53 = 2 * pow2 52) by reflexivity.
  destruct (Z.eq_dec s 0) as [->|Hs0].
  - replace (pow2 0) with 1 by reflexivity. rewrite Z.mul_1_r.
    destruct (Z_lt_le_dec z (pow2 52)) as [Hsmall|Hbig].
    + replace (2 * z) with (2 * z * pow2 0)
        by (replace (pow2 0) with 1 by reflexivity; lia).
      apply round_mag_grid; lia.
    + replace (2 * z) with (z * pow2 1)
        by (replace (pow2 1) with 2 by reflexivity; lia).
      apply round_mag_grid; lia.
  - replace (2 * (z * pow2 s)) with (z * pow2 (s + 1))
      by (rewrite pow2_add by lia; replace (pow2 1) with 2 by reflexivity;
          lia).
    apply round_mag_grid; try lia; intros _; apply Hlow; lia.
Qed.

Lemma half_eq : dec 5 (-1) = Fin (pow2 1073).
Proof. vm_compute. reflexivity. Qed.

Lemma toZ_unsigned_zero x : toZ (unsigned_zero x) = toZ x.
Proof. destruct x; reflexivity. Qed.

Lemma finite_unsigned_zero x : finite (unsigned_zero x) = finite x.
Proof. destruct x; reflexivity. Qed.

Lemma within_half_range_bound x :
  within_half_range x = true ->
  finite x = true /\ Z.abs (toZ x) <= pow2 2096.
Proof.
  unfold within_half_range, half_range. intros H.
  apply andb_prop in H as [H1 H2].
  assert (Hneg : neg (Fin (pow2 2096)) = Fin (- pow2 2096))
    by (vm_compute; reflexivity).
  rewrite Hneg in H1.
  destruct x as [|s| |k].
  - discriminate.
  - destruct s; discriminate.
  - split; [reflexivity|]. cbn [toZ]. pose proof (pow2_pos 2096). lia.
  - split; [reflexivity|]. cbn [leb toZ] in H1, H2.
    apply Z.leb_le in H1, H2. cbn [toZ]. lia.
Qed.

(** The midpoint of [x] and [x] is [x]. *)
Lemma midpoint_same x :
  representable x -> within_half_range x = true ->
  unsigned_zero (midpoint x x) = unsigned_zero x.
Proof.
  intros Rx Wx. destruct (within_half_range_bound x Wx) as [Fx Hb].
  assert (Hk : representable (Fin (toZ x))).
  { destruct x as [| | |k]; try discriminate; [|exact Rx].
    cbn [toZ representable]. split; [apply round_mag_0; lia|].
    apply overflow_threshold_pos. }
  destruct Hk as [Hg Hlt]. set (k := toZ x) in *.
  assert (H2096 : 2 * pow2 2096 < overflow_threshold).
  { unfold overflow_threshold.
    replace (pow2 2098) with (pow2 2096 * pow2 2)
      by (rewrite <- pow2_add by lia; reflexivity).
    replace (pow2 2) with 4 by reflexivity.
    pose proof (pow2_pos 2096). lia. }
  assert (Hsum : unsigned_zero (add x x) = Fin (2 * k)).
  { rewrite add_finite by assumption. fold k.
    replace (k + k) with (2 * k) by lia.
    apply rnd_representable. split; [|lia].
    replace (Z.abs (2 * k)) with (2 * Z.abs k) by lia.
    apply round_mag_double; [lia|exact Hg]. }
  assert (Fs : finite (add x x) = true)
    by (rewrite <- finite_unsigned_zero, Hsum; reflexivity).
  unfold midpoint. rewrite half_eq, mul_finite by auto.
  rewrite <- (toZ_unsigned_zero (add x x)), Hsum. cbn [toZ].
  replace (pow2 1073 * (2 * k)) with (k * pow2 1074)
    by (replace (pow2 1074) with (pow2 1073 * 2) by reflexivity; lia).
  rewrite rnd_scale by lia.
  rewrite rnd_representable by (split; assumption).
  destruct x; try discriminate; reflexivity.
Qed.

Lemma midpoint_notnan low high :
  finite low = true -> finite high = true ->
  isNaN (midpoint low high) = false.
Proof.
  intros Fl Fh. unfold midpoint. rewrite half_eq.
  pose proof (add_finite_notnan low high Fl Fh) as Hn.
  pose proof (pow2_pos 1073 ltac:(lia)) as Hp.
  destruct (finite_cases (add low high)) as [E|[[s E]|Fs]].
  - rewrite E in Hn. discriminate.
  - rewrite E. cbn [mul toZ].
    destruct (Z.eqb_spec (pow2 1073) 0); [lia|reflexivity].
  - apply mul_finite_notnan; [reflexivity|exact Fs].
Qed.

Lemma midpoint_ordered a b a' b' :
  ordered a a' = true -> ordered b b' = true ->
  ordered (midpoint a b) (midpoint a' b') = true.
Proof.
  intros Ha Hb. unfold midpoint. apply mul_ordered.
  - right. rewrite half_eq. unfold zero. cbn [leb toZ].
    apply Z.leb_le. pose proof (pow2_pos 1073). lia.
  - apply add_ordered; assumption.
Qed.

(** The midpoint of a bracket lies within it. *)
Lemma midpoint_between low high :
  representable low -> representable high ->
  within_half_range low = true -> within_half_range high = true ->
  leb low high = true ->
  leb low (midpoint low high) = true /\ leb (midpoint low high) high = true.
Proof.
  intros Rl Rh Wl Wh Hle.
  destruct (within_half_range_bound low Wl) as [Fl _].
  destruct (within_half_range_bound high Wh) as [Fh _].
  pose proof (midpoint_notnan low high Fl Fh) as Nm.
  pose proof (leb_ordered low high Hle) as Ho.
  split.
  - rewrite leb_unsigned_zero, <- (midpoint_same low), <- leb_unsigned_zero
      by assumption.
    apply ordered_leb; [apply midpoint_notnan; assumption|exact Nm|].
    apply midpoint_ordered; [apply ordered_refl|exact Ho].
  - rewrite leb_unsigned_zero, <- (midpoint_same high), <- leb_unsigned_zero
      by assumption.
    apply ordered_leb; [exact Nm|apply midpoint_notnan; assumption|].
    apply midpoint_ordered; [exact Ho|apply ordered_refl].
Qed.

Lemma midpoint_representable low high : representable (midpoint low high).
Proof.
  unfold midpoint. rewrite half_eq.
  destruct (finite_cases (add low high)) as [E|[[s E]|Fs]].
  - rewrite E. exact I.
  - rewrite E. cbn [mul toZ]. destruct (_ =? _); exact I.
  - apply mul_representable; [reflexivity|exact Fs].
Qed.

Lemma within_half_range_between low high x :
  within_half_range low = true -> within_half_range high = true ->
  leb low x = true -> leb x high = true ->
  within_half_range x = true.
Proof.
  unfold within_half_range. intros Hl Hh H1 H2.
  apply andb_prop in Hl as [Hl _]. apply andb_prop in Hh as [_ Hh].
  apply andb_true_intro. split.
  - exact (leb_trans _ _ _ Hl H1).
  - exact (leb_trans _ _ _ H2 Hh).
Qed.

End F64_exact.

(** *** Signs and monotonicity *)

Module F64_order.

Import F64_facts.

(** A clear sign bit: NaN, +0 or a positive number. *)
Lemma signbit_round a e :
  0 <= e -> 0 <= a -> signbit (round false a e) = false.
Proof.
  intros He Ha. unfold round.
  pose proof (round_mag_nonneg a e He Ha) as Hm.
  destruct (_ <=? _); [reflexivity|].
  destruct (_ =? _); [reflexivity|].
  cbn [signbit]. apply Z.ltb_ge. exact Hm.
Qed.

Lemma signbit_round_ratio a b :
  0 <= a -> 0 <= b -> signbit (round_ratio false a b) = false.
Proof.
  intros Ha Hb. unfold round_ratio.
  assert (Hq : 0 <= (4 * a) / b) by (apply Z_div_nonneg_nonneg; lia).
  unfold Z.div in Hq. destruct (Z.div_eucl (4 * a) b) as [q r].
  cbn [fst] in Hq.
  apply signbit_round; [lia|]. destruct (r =? 0); lia.
Qed.

Lemma signbit_ordered x : signbit x = false -> ordered zero x = true.
Proof.
  unfold ordered, zero.
  destruct x as [|[]| |k]; cbn [signbit isNaN leb toZ orb negb];
    try reflexivity; try discriminate.
  intros H. apply Z.ltb_ge in H. apply Z.leb_le. exact H.
Qed.

Lemma gtb_signbit x : gtb x zero = true -> signbit x = false.
Proof.
  unfold gtb, zero.
  destruct x as [|[]| |k]; cbn [signbit ltb toZ negb];
    try reflexivity; try discriminate.
  intros H. apply Z.ltb_lt in H. apply Z.ltb_ge. lia.
Qed.

Lemma signbit_finite_nonneg x :
  finite x = true -> signbit x = false -> 0 <= toZ x.
Proof.
  destruct x as [| | |k]; try discriminate; intros _ H.
  cbn [signbit toZ] in *. apply Z.ltb_ge in H. exact H.
Qed.

Lemma signbit_mul a b :
  signbit a = false -> signbit b = false -> signbit (mul a b) = false.
Proof.
  intros Ha Hb.
  destruct (finite_cases a) as [->|[[sa ->]|Fa]]; [reflexivity| |];
  (destruct (finite_cases b) as [->|[[sb ->]|Fb]];
     [rewrite mul_nan_r; reflexivity| |]).
  - cbn [signbit] in Ha, Hb. subst. reflexivity.
  - cbn [signbit] in Ha. subst. rewrite mul_inf_l by assumption.
    destruct (_ =? _); [reflexivity|]. rewrite Hb. reflexivity.
  - cbn [signbit] in Hb. subst. rewrite mul_inf_r by assumption.
    destruct (_ =? _); [reflexivity|]. rewrite Ha. reflexivity.
  - assert (Hm : mul a b
                 = round (xorb (signbit a) (signbit b))
                         (Z.abs (toZ a * toZ b)) 1074)
      by (destruct a, b; try discriminate; reflexivity).
    rewrite Hm, Ha, Hb. apply signbit_round; lia.
Qed.

Lemma signbit_div a c :
  signbit a = false -> signbit c = false -> signbit (div a c) = false.
Proof.
  intros Ha Hc.
  destruct a as [|sa| |ka]; try discriminate; try reflexivity;
    destruct c as [|sc| |kc]; try discriminate; try reflexivity;
    cbn [signbit] in *; subst; cbn [div signbit toZ xorb].
  - rewrite Hc. reflexivity.
  - rewrite Ha. reflexivity.
  - rewrite Ha, Hc. cbn [xorb].
    destruct (kc =? 0); [destruct (ka =? 0); reflexivity|].
    apply signbit_round_ratio; [|lia].
    pose proof (pow2_pos 1074). unfold unit_scale. nia.
Qed.

Lemma max_cases x y : max x y = NaN \/ max x y = x \/ max x y = y.
Proof.
  destruct x, y; cbn [max]; auto;
    repeat match goal with
           | |- context [if ?c then _ else _] => destruct c
           end; auto.
Qed.

Lemma signbit_max a b :
  signbit a = false -> signbit b = false -> signbit (max a b) = false.
Proof.
  intros Ha Hb. destruct (max_cases a b) as [->|[->| ->]];
    [reflexivity|exact Ha|exact Hb].
Qed.

Lemma mul_comm x y : mul x y = mul y x.
Proof.
  destruct x as [|sx| |kx], y as [|sy| |ky]; cbn [mul signbit toZ];
    try reflexivity;
    rewrite ?(xorb_comm sx), ?(Z.mul_comm kx), ?Z.mul_0_r, ?Z.mul_0_l;
    try reflexivity;
    rewrite xorb_comm; reflexivity.
Qed.

(** Negation reverses the order. *)
Lemma neg_ordered a b : ordered a b = true -> ordered (neg b) (neg a) = true.
Proof.
  unfold ordered.
  destruct a as [|[]| |ka], b as [|[]| |kb];
    cbn [neg isNaN leb toZ orb negb]; try reflexivity; try discriminate;
    intros H; z_bool;
    repeat match goal with
           | |- context [?k =? 0] => destruct (Z.eqb_spec k 0)
           end;
    cbn [isNaN leb toZ orb negb]; try reflexivity; apply Z.leb_le; lia.
Qed.

Lemma neg_below x : signbit x = false -> ordered (neg x) x = true.
Proof.
  unfold ordered.
  destruct x as [|[]| |k]; cbn [signbit neg isNaN leb toZ orb negb];
    try reflexivity; try discriminate.
  intros H. apply Z.ltb_ge in H.
  destruct (Z.eqb_spec k 0); cbn [isNaN leb toZ orb];
    apply Z.leb_le; lia.
Qed.

Lemma sub_ordered a b a' b' :
  ordered a a' = true -> ordered b' b = true ->
  ordered (sub a b) (sub a' b') = true.
Proof.
  intros Ha Hb. unfold sub. apply add_ordered; [exact Ha|].
  apply neg_ordered. exact Hb.
Qed.

(** [Math.max] is monotone in both arguments. *)
Lemma max_mono b c b' c' :
  ordered b b' = true -> ordered c c' = true ->
  ordered (max b c) (max b' c') = true.
Proof.
  intros Hb Hc.
  destruct (isNaN b) eqn:Nb; [destruct b; try discriminate; reflexivity|].
  destruct (isNaN c) eqn:Nc;
    [destruct c; try discriminate; rewrite max_nan_r; reflexivity|].
  destruct (isNaN b') eqn:Nb';
    [destruct b'; try discriminate; apply ordered_nan_r|].
  destruct (isNaN c') eqn:Nc';
    [destruct c'; try discriminate; rewrite max_nan_r; apply ordered_nan_r|].
  apply ordered_leb in Hb; try assumption.
  apply ordered_leb in Hc; try assumption.
  destruct (max_ge b' c' Nb' Nc') as [H1 H2].
  apply leb_ordered.
  destruct (max_cases b c) as [E|[-> | ->]].
  - destruct (max_ge b c Nb Nc) as [H _]. rewrite E in H.
    apply leb_notnan in H. destruct H; discriminate.
  - exact (leb_trans _ _ _ Hb H1).
  - exact (leb_trans _ _ _ Hc H2).
Qed.

(** A difference of ordered numbers is not negative. *)
Lemma sub_not_negative a b :
  ordered b a = true -> ordered zero (sub a b) = true.
Proof.
  intros H.
  destruct (finite_cases b) as [->|[[sb ->]|Fb]].
  - unfold sub. cbn [neg]. rewrite add_nan_r. reflexivity.
  - destruct a as [|sa| |ka]; try reflexivity;
      destruct sb; try destruct sa; try discriminate; reflexivity.
  - destruct (finite_cases a) as [->|[[sa ->]|Fa]]; [reflexivity| |].
    + destruct sa; [destruct b; discriminate|].
      unfold sub. rewrite add_inf_l by (apply neg_finite; assumption).
      reflexivity.
    + pose proof (ordered_finite b a Fb Fa H) as Hle.
      apply leb_ordered. unfold zero.
      rewrite leb_unsigned_zero, sub_finite, <- leb_unsigned_zero
        by assumption.
      rewrite <- (rnd_0 0) by lia. apply rnd_mono; lia.
Qed.

Lemma round_ratio_zero s b : 0 < b -> unsigned_zero (round_ratio s 0 b) = Fin 0.
Proof.
  intros Hb. rewrite F64_exact.round_ratio_eq.
  rewrite Z.mul_0_r, Z.mod_0_l, Z.div_0_l by lia.
  cbn [Z.eqb Z.mul]. apply round_0. lia.
Qed.

(** A quotient of a number that is not negative by one whose sign bit is
    clear is not negative. *)
Lemma div_not_negative a c :
  ordered zero a = true -> signbit c = false -> ordered zero (div a c) = true.
Proof.
  intros Ha Hc.
  destruct (Bool.bool_dec (signbit a) false) as [Sa|Sa];
    [apply signbit_ordered, signbit_div; assumption|].
  destruct a as [|[]| |ka]; try discriminate; try (elim Sa; reflexivity).
  - (* a = -0 *)
    destruct c as [|sc| |kc]; try reflexivity.
    + cbn [signbit] in Hc. subst. reflexivity.
    + cbn [div signbit toZ xorb]. cbn [signbit] in Hc.
      destruct (Z.eqb_spec kc 0); [reflexivity|].
      apply Z.ltb_ge in Hc.
      apply leb_ordered. rewrite leb_unsigned_zero.
      cbn [Z.abs Z.mul]. rewrite round_ratio_zero by lia.
      reflexivity.
  - (* a negative: excluded *)
    unfold ordered, zero in Ha. cbn [isNaN leb toZ orb] in Ha.
    cbn [signbit] in Sa. apply Z.leb_le in Ha.
    elim Sa. apply Z.ltb_ge. exact Ha.
Qed.

(** The mirror images: differences and quotients that are not positive. *)
Lemma sub_not_positive a b :
  ordered a b = true -> ordered (sub a b) zero = true.
Proof.
  intros H.
  destruct (finite_cases a) as [->|[[sa ->]|Fa]]; [reflexivity| |].
  - destruct (finite_cases b) as [->|[[sb ->]|Fb]]; [reflexivity| |].
    + destruct sa, sb; try discriminate; reflexivity.
    + destruct sa; [|destruct b; discriminate].
      unfold sub. rewrite add_inf_l by (apply neg_finite; assumption).
      reflexivity.
  - destruct (finite_cases b) as [->|[[sb ->]|Fb]].
    + unfold sub. cbn [neg]. rewrite add_nan_r. reflexivity.
    + destruct sb; [destruct a; discriminate|].
      unfold sub. cbn [neg negb]. rewrite add_inf_r by assumption.
      reflexivity.
    + pose proof (ordered_finite a b Fa Fb H) as Hle.
      apply leb_ordered. unfold zero.
      rewrite leb_unsigned_zero, sub_finite, <- leb_unsigned_zero
        by assumption.
      rewrite <- (rnd_0 0) by lia. apply rnd_mono; lia.
Qed.

Lemma round_true_not_positive a e :
  0 <= e -> 0 <= a -> leb (round true a e) zero = true.
Proof.
  intros He Ha.
  pose proof (round_mag_nonneg a e He Ha) as Hm.
  destruct (round_cases true a e He Ha) as [[_ ->]|[_ [F V]]];
    [reflexivity|].
  unfold zero. rewrite leb_finite by auto. cbn [toZ]. apply Z.leb_le. lia.
Qed.

Lemma round_ratio_true_not_positive a b :
  0 <= a -> 0 <= b -> leb (round_ratio true a b) zero = true.
Proof.
  intros Ha Hb. unfold round_ratio.
  assert (Hq : 0 <= (4 * a) / b) by (apply Z_div_nonneg_nonneg; lia).
  unfold Z.div in Hq. destruct (Z.div_eucl (4 * a) b) as [q r].
  cbn [fst] in Hq.
  apply round_true_not_positive; [lia|]. destruct (r =? 0); lia.
Qed.

Lemma div_not_positive a c :
  ordered a zero = true -> signbit c = false -> ordered (div a c) zero = true.
Proof.
  intros Ha Hc. pose proof (pow2_pos 1074 ltac:(lia)) as HU.
  destruct a as [|sa| |ka]; try reflexivity.
  - (* a = -Infinity *)
    destruct sa; [|discriminate].
    destruct c as [|sc| |kc]; try reflexivity; try discriminate.
    cbn [div signbit xorb] in *. rewrite Hc. reflexivity.
  - (* a = -0 *)
    destruct c as [|sc| |kc]; try reflexivity; try discriminate.
    + cbn [signbit] in Hc. subst. reflexivity.
    + cbn [div signbit toZ xorb]. cbn [signbit] in Hc.
      destruct (Z.eqb_spec kc 0); [reflexivity|].
      apply Z.ltb_ge in Hc.
      apply leb_ordered. rewrite leb_unsigned_zero.
      cbn [Z.abs Z.mul]. rewrite round_ratio_zero by lia.
      reflexivity.
  - unfold ordered, zero in Ha. cbn [isNaN leb toZ orb] in Ha.
    apply Z.leb_le in Ha.
    destruct c as [|sc| |kc]; try reflexivity; try discriminate.
    + cbn [signbit] in Hc. subst. cbn [div signbit xorb].
      destruct (xorb _ _); reflexivity.
    + cbn [div signbit toZ xorb]. cbn [signbit] in Hc. rewrite Hc.
      apply Z.ltb_ge in Hc. rewrite xorb_false_r.
      destruct (Z.eqb_spec kc 0).
      * destruct (Z.eqb_spec ka 0); [reflexivity|].
        destruct (Z.ltb_spec ka 0); [reflexivity|lia].
      * apply leb_ordered.
        destruct (Z.ltb_spec ka 0).
        -- apply round_ratio_true_not_positive; [unfold unit_scale|]; nia.
        -- assert (ka = 0) by lia. subst ka.
           rewrite leb_unsigned_zero. cbn [Z.abs Z.mul].
           rewrite round_ratio_zero by lia. reflexivity.
Qed.

End F64_order.

(** *** Integers *)

Lemma ltb_leb_trans x y z : ltb x y = true -> leb y z = true -> ltb x z = true.
Proof.
  destruct x as [|[]| |kx], y as [|[]| |ky], z as [|[]| |kz];
    cbn [leb ltb toZ negb andb]; intros H1 H2;
    try reflexivity; try discriminate;
    apply Z.ltb_lt; apply Z.ltb_lt in H1; apply Z.leb_le in H2; lia.
Qed.

(** The integers below 2^53 are binary64 numbers. *)
Lemma integer_on_grid n e :
  0 <= n < F64.pow2 53 -> 0 <= e ->
  round_mag (n * F64.pow2 e) 0 = n * F64.pow2 e.
Proof.
  intros Hn He. pattern e. apply natlike_ind; [| |exact He].
  - replace (F64.pow2 0) with 1 by reflexivity. rewrite Z.mul_1_r.
    apply F64_facts.round_mag_small. exact Hn.
  - intros x Hx IH. unfold Z.succ.
    rewrite F64_facts.pow2_add by lia.
    replace (F64.pow2 1) with 2 by reflexivity.
    replace (n * (F64.pow2 x * 2)) with (2 * (n * F64.pow2 x)) by lia.
    apply F64_exact.round_mag_double; [|exact IH].
    pose proof (F64_facts.pow2_pos x Hx). nia.
Qed.

Lemma of_Z_exact n :
  0 <= n < F64.pow2 53 -> of_Z n = Fin (n * unit_scale).
Proof.
  intros Hn. unfold of_Z.
  destruct (Z.ltb_spec n 0); [lia|]. rewrite Z.abs_eq by lia.
  unfold round, unit_scale.
  rewrite integer_on_grid by (assumption || lia).
  assert (Hlt : n * F64.pow2 1074 < overflow_threshold).
  { unfold overflow_threshold.
    replace (F64.pow2 2098) with (F64.pow2 1024 * F64.pow2 1074)
      by (rewrite <- F64_facts.pow2_add by lia; reflexivity).
    pose proof (F64_facts.pow2_pos 1074 ltac:(lia)).
    assert (F64.pow2 53 < F64.pow2 1024) by (vm_compute; reflexivity).
    nia. }
  destruct (Z.leb_spec overflow_threshold (n * F64.pow2 1074)); [lia|].
  destruct (Z.eqb_spec (n * F64.pow2 1074) 0) as [E|E];
    [rewrite E|]; reflexivity.
Qed.

(** A validated step count within the array limit is the number of steps
    of the lattice, and is below 2^32 - 1. *)
Lemma max_array_length_eq :
  max_array_length = Fin (4294967295 * unit_scale).
Proof. vm_compute. reflexivity. Qed.

Lemma positive_integer_cases n :
  gtb n zero = true -> isInteger n = true ->
  exists m, 0 < m /\ n = Fin (m * unit_scale) /\ to_nat n = Z.to_nat m.
Proof.
  unfold gtb, zero, to_nat.
  destruct n as [|s| |k]; cbn [ltb isInteger toZ]; try discriminate.
  intros Hk Hi. apply Z.ltb_lt in Hk. apply Z.eqb_eq in Hi.
  pose proof F64_exact.unit_scale_pos as HU.
  exists (Z.shiftr k 1074).
  assert (Hm : k = Z.shiftr k 1074 * unit_scale).
  { rewrite <- Hi at 1. apply F64_facts.shiftl_pow2. lia. }
  split; [nia|]. split; [f_equal; exact Hm|reflexivity].
Qed.

Lemma add_one_integer m :
  0 < m -> 4294967296 <= m + 1 ->
  leb (Fin (4294967296 * unit_scale)) (add (Fin (m * unit_scale)) one) = true.
Proof.
  intros Hm Hbig. pose proof F64_exact.unit_scale_pos as HU.
  rewrite <- (of_Z_exact 4294967296) by (vm_compute; split; congruence).
  unfold of_Z, one. cbn [add toZ].
  change (4294967296 <? 0) with false.
  change (Z.abs 4294967296) with 4294967296.
  assert (H0 : 0 <= m * unit_scale + unit_scale) by nia.
  destruct (Z.ltb_spec (m * unit_scale + unit_scale) 0); [lia|].
  rewrite (Z.abs_eq (m * unit_scale + unit_scale)) by lia.
  apply F64_facts.leb_round; try lia.
  apply F64_facts.round_mag_mono; [lia|]. nia.
Qed.

Lemma within_array_length n :
  gtb n zero = true -> isInteger n = true ->
  gtb (add n one) max_array_length = false ->
  Z.of_nat (to_nat n) + 1 <= 4294967295 /\ (0 < to_nat n)%nat /\
  of_nat (to_nat n) = n.
Proof.
  intros Hpos Hint Hlim.
  destruct (positive_integer_cases n Hpos Hint) as (m & Hm0 & -> & ->).
  assert (Hsmall : m + 1 < 4294967296).
  { destruct (Z_lt_le_dec (m + 1) 4294967296) as [?|Hbig]; [assumption|].
    exfalso. pose proof (add_one_integer m Hm0 Hbig) as Hle.
    unfold gtb in Hlim. rewrite max_array_length_eq in Hlim.
    assert (Hlt : ltb (Fin (4294967295 * unit_scale))
                      (Fin (4294967296 * unit_scale)) = true).
    { cbn [ltb toZ]. apply Z.ltb_lt.
      pose proof F64_exact.unit_scale_pos. lia. }
    rewrite (ltb_leb_trans _ _ _ Hlt Hle) in Hlim. discriminate Hlim. }
  split; [|split].
  - rewrite Z2Nat.id by lia. lia.
  - lia.
  - unfold of_nat. rewrite Z2Nat.id by lia.
    apply of_Z_exact.
    split; [lia|].
    assert (4294967296 < F64.pow2 53) by (vm_compute; reflexivity).
    lia.
Qed.

(** ** Part IV.  The properties of the specification *)

(** *** The validator *)

Lemma not_positive_spec x : negb (gtb x zero) = nan_or_nonpositive x.
Proof.
  unfold nan_or_nonpositive, gtb, zero.
  destruct x as [|[]| |k]; simpl; try reflexivity.
  symmetry. apply Z.leb_antisym.
Qed.

Lemma not_positive_integer_spec x :
  negb (gtb x zero && isInteger x) = leb x zero || negb (isInteger x).
Proof.
  unfold gtb, zero. rewrite negb_andb.
  destruct x as [|[]| |k]; cbn [ltb leb toZ negb orb]; try reflexivity.
  rewrite <- Z.leb_antisym. reflexivity.
Qed.

Lemma validateInputs_error_kind p e :
  validateInputs p = Throw e -> kind e = InvalidParameter.
Proof.
  unfold validateInputs.
  repeat (match goal with |- context [if ?b then _ else _] =>
                            destruct b end);
    intros [= <-]; reflexivity.
Qed.

(** C2, as stated, fails on a NaN underlying price: none of the stated
    conditions holds ([NaN <= 0] is false), yet the validator raises. *)
Lemma validateInputs_rejects_nan_spot :
  first_violation (stated_rules nan_spot_params) = Return tt /\
  validateInputs nan_spot_params = Throw S_K_not_positive.
Proof. split; vm_compute; reflexivity. Qed.

(** C2, amended: the validator raises exactly when one of the rules is
    violated, reports the first violated rule in the fixed order, and every
    error it raises is an InvalidParameter; here the positivity rules of
    [S], [K] and [T] are also violated by NaN.  On records whose [S], [K]
    and [T] are numbers the amended rules are the stated ones. *)
Theorem validateInputs_first_violation (p : params.t) :
  validateInputs p = first_violation (amended_rules p) /\
  (forall e, validateInputs p = Throw e -> kind e = InvalidParameter) /\
  (isNaN (params.S p) || isNaN (params.K p) || isNaN (params.T p) = false ->
   validateInputs p = first_violation (stated_rules p)).
Proof.
  assert (H1 : validateInputs p = first_violation (amended_rules p)).
  { unfold validateInputs, first_violation, amended_rules.
    rewrite negb_andb, !not_positive_spec, not_positive_integer_spec.
    cbn [find fst].
    repeat (match goal with |- context [if ?b then _ else _] =>
                              destruct b; [reflexivity|] end).
    reflexivity. }
  split; [exact H1|split].
  - intros e. apply validateInputs_error_kind.
  - intros Hn. rewrite H1. unfold amended_rules, stated_rules,
      nan_or_nonpositive.
    destruct (params.S p), (params.K p), (params.T p); try discriminate;
      reflexivity.
Qed.

(** *** The errors of the pricer *)

Section PricerErrors.

Context {libm : Libm}.

(** Past the validator, the pricer is the degenerate-tree test, the
    probability test, the creation of the array and the lattice. *)
Lemma binomialOptionPricing_valid S K T r sigma n optionType exerciseType q :
  validateInputs (params.make S K T r sigma q n optionType exerciseType)
    = Return tt ->
  let dt := div T n in
  let u := up_factor sigma dt in
  let d := div one u in
  let p := risk_neutral_p u d r q dt in
  binomialOptionPricing S K T r sigma n optionType exerciseType q
  = if eqb u d then Throw u_d_equal
    else if outside_unit p then Throw (p_out_of_bounds p)
    else if gtb (add n one) max_array_length then Throw invalid_array_length
    else
      Return
        (array_get
           (backward_loop S K optionType exerciseType
              (Math_exp (mul (neg r) dt)) u d p (to_nat n)
              (map (payoff optionType K)
                 (map (fun j => mul (mul S (Math_pow u (of_nat j)))
                                    (Math_pow d (sub n (of_nat j))))
                    (seq 0 (to_nat n + 1))))) 0).
Proof.
  intros Hv dt u d p. unfold binomialOptionPricing. rewrite Hv.
  cbn [bind]. fold dt. fold (up_factor sigma dt). fold u. fold d.
  destruct (eqb u d); [reflexivity|].
  unfold riskNeutralProb. fold (risk_neutral_p u d r q dt). fold p.
  fold (outside_unit p). destruct (outside_unit p); [reflexivity|].
  cbn [bind]. destruct (gtb (add n one) max_array_length); reflexivity.
Qed.

Lemma inside_not_outside p : inside_unit p = true -> outside_unit p = false.
Proof.
  unfold inside_unit, outside_unit, gtb. intros H.
  apply andb_prop in H as [H0 H1].
  destruct (F64_facts.leb_notnan _ _ H0) as [_ Hp].
  rewrite <- (negb_involutive (ltb p zero)), <- (negb_involutive (ltb one p)).
  rewrite F64_facts.not_ltb_leb, H0 by (assumption || reflexivity).
  rewrite F64_facts.not_ltb_leb, H1 by (assumption || reflexivity).
  reflexivity.
Qed.

Lemma zero_volatility_degenerate sigma dt :
  eqb sigma zero = true ->
  eqb (up_factor sigma dt) (div one (up_factor sigma dt)) = true.
Proof.
  intros Hs.
  assert (Hg : gtb sigma zero = false).
  { unfold gtb, zero in *. destruct sigma as [|[]| |k]; try discriminate;
      try reflexivity. cbn [eqb ltb toZ] in *. apply Z.eqb_eq in Hs. subst.
    reflexivity. }
  unfold up_factor. rewrite Hg. vm_compute. reflexivity.
Qed.

(** C3, amended: past the validator the pricer raises DegenerateTree when
    the up factor equals the down factor, and it does for every zero
    volatility; it raises ArbitrageViolation, carrying the unclamped [p],
    when [p] lies outside [0,1]; when the factors differ and [p] is not
    outside [0,1] it raises the RangeError of the engine if [n + 1]
    exceeds the largest array length 2^32 - 1; it returns a value when the
    factors differ, [p] lies in [0,1] and [n + 1] is within that length;
    and it raises no other error. *)
Theorem pricer_raises_three_kinds S K T r sigma n optionType exerciseType q :
  validateInputs (params.make S K T r sigma q n optionType exerciseType)
    = Return tt ->
  let dt := div T n in
  let u := up_factor sigma dt in
  let d := div one u in
  let p := risk_neutral_p u d r q dt in
  let price := binomialOptionPricing S K T r sigma n optionType exerciseType q in
  (eqb u d = true -> price = Throw u_d_equal) /\
  (eqb sigma zero = true -> price = Throw u_d_equal) /\
  (eqb u d = false -> outside_unit p = true ->
   price = Throw (p_out_of_bounds p)) /\
  (eqb u d = false -> outside_unit p = false ->
   gtb (add n one) max_array_length = true ->
   price = Throw invalid_array_length) /\
  (eqb u d = false -> inside_unit p = true ->
   gtb (add n one) max_array_length = false ->
   exists v, price = Return v) /\
  (forall e, price = Throw e ->
     (e = u_d_equal /\ eqb u d = true) \/
     (e = p_out_of_bounds p /\ eqb u d = false /\ outside_unit p = true) \/
     (e = invalid_array_length /\ eqb u d = false /\
      outside_unit p = false /\
      gtb (add n one) max_array_length = true)) /\
  (forall e, price = Throw e ->
     kind e = DegenerateTree \/ kind e = ArbitrageViolation \/
     kind e = RangeError).
Proof.
  intros Hv dt u d p price.
  pose proof (binomialOptionPricing_valid _ _ _ _ _ _ _ _ _ Hv) as Hp.
  cbv zeta in Hp. fold dt u d p price in Hp.
  assert (Hall : forall e, price = Throw e ->
     (e = u_d_equal /\ eqb u d = true) \/
     (e = p_out_of_bounds p /\ eqb u d = false /\ outside_unit p = true) \/
     (e = invalid_array_length /\ eqb u d = false /\
      outside_unit p = false /\
      gtb (add n one) max_array_length = true)).
  { intros e. rewrite Hp. destruct (eqb u d); [intros [= <-]; auto|].
    destruct (outside_unit p); [intros [= <-]; auto|].
    destruct (gtb (add n one) max_array_length);
      [intros [= <-]; auto 6|discriminate]. }
  split; [|split; [|split; [|split; [|split; [|split]]]]].
  - intros Hd. rewrite Hp, Hd. reflexivity.
  - intros Hs. rewrite Hp. unfold d, u.
    rewrite (zero_volatility_degenerate sigma dt Hs). reflexivity.
  - intros Hd Ho. rewrite Hp, Hd, Ho. reflexivity.
  - intros Hd Ho Hn. rewrite Hp, Hd, Ho, Hn. reflexivity.
  - intros Hd Hi Hn. rewrite Hp, Hd, (inside_not_outside p Hi), Hn. eauto.
  - exact Hall.
  - intros e He.
    destruct (Hall e He) as [[-> _]|[[-> _]|[-> _]]]; auto.
Qed.

End PricerErrors.

(** C3, as stated, fails on the form's defaults at n = 2^32 - 1 steps: the
    validator accepts them, the factors differ and [p] lies in [0,1], yet
    the pricer raises an error that is neither DegenerateTree nor
    ArbitrageViolation, the RangeError of [Array.from]. *)
Lemma pricer_raises_range_error :
  validateInputs
    (params.make (dec 100 0) (dec 100 0) (dec 1 0) (dec 5 (-2)) (dec 2 (-1))
       (dec 2 (-2)) (dec 4294967295 0) "call" "european") = Return tt /\
  (let dt := div (dec 1 0) (dec 4294967295 0) in
   let u := up_factor (dec 2 (-1)) dt in
   let d := div one u in
   eqb u d = false /\
   inside_unit (risk_neutral_p u d (dec 5 (-2)) (dec 2 (-2)) dt) = true) /\
  binomialOptionPricing (dec 100 0) (dec 100 0) (dec 1 0) (dec 5 (-2))
    (dec 2 (-1)) (dec 4294967295 0) "call" "european" (dec 2 (-2))
  = Throw invalid_array_length /\
  kind invalid_array_length = RangeError.
Proof.
  split; [vm_compute; reflexivity|].
  split; [split; vm_compute; reflexivity|].
  split; [vm_compute; reflexivity|reflexivity].
Qed.

Lemma pricer_raises_three_kinds_witness :
  validateInputs three_step_params = Return tt /\
  exists v,
    binomialOptionPricing (dec 100 0) (dec 100 0) (dec 1 0) (dec 5 (-2))
      (dec 2 (-1)) (dec 3 0) "call" "european" (dec 2 (-2)) = Return v.
Proof.
  assert (Hv : validateInputs three_step_params = Return tt)
    by (vm_compute; reflexivity).
  split; [exact Hv|].
  destruct (pricer_raises_three_kinds (libm := reference_libm)
              _ _ _ _ _ _ _ _ _ Hv) as (_ & _ & _ & _ & Hin & _).
  apply Hin; vm_compute; reflexivity.
Defined.

(** *** The lattice: the loops of the pricer compute the CRR value *)

(** Writing at the position that follows a prefix. *)
Lemma array_set_app l x rest v :
  array_set (l ++ x :: rest) (List.length l) v = l ++ v :: rest.
Proof. induction l as [|y l IH]; simpl; [reflexivity|]. rewrite IH. reflexivity. Qed.

Lemma skipn_cons_nth (a : list float64) (j : nat) :
  (j < List.length a)%nat -> skipn j a = nth j a NaN :: skipn (Datatypes.S j) a.
Proof.
  revert j. induction a as [|x a IH]; intros [|j] H; simpl in *; try lia.
  - reflexivity.
  - apply IH. lia.
Qed.

Lemma includes_kind s :
  includes ["call"; "put"]%string s = true ->
  exists k, kind_of_string s = Some k.
Proof.
  unfold includes, kind_of_string. cbn [existsb].
  destruct (String.eqb s "call"); [eauto|].
  destruct (String.eqb s "put"); [eauto|discriminate].
Qed.

Lemma includes_style s :
  includes ["european"; "american"]%string s = true ->
  exists st, style_of_string s = Some st.
Proof.
  unfold includes, style_of_string. cbn [existsb].
  destruct (String.eqb s "european"); [eauto|].
  destruct (String.eqb s "american"); [eauto|discriminate].
Qed.

(** What the validator establishes. *)
Lemma validateInputs_accepts p :
  validateInputs p = Return tt ->
  gtb (params.S p) zero = true /\ gtb (params.K p) zero = true /\
  gtb (params.T p) zero = true /\
  gtb (params.n p) zero = true /\ isInteger (params.n p) = true /\
  ltb (params.sigma p) zero = false /\ ltb (params.q p) zero = false /\
  includes ["call"; "put"]%string (params.option_type p) = true /\
  includes ["european"; "american"]%string (params.exercise_type p) = true.
Proof.
  unfold validateInputs.
  destruct (gtb (params.S p) zero), (gtb (params.K p) zero);
    try discriminate.
  destruct (gtb (params.T p) zero); try discriminate.
  destruct (gtb (params.n p) zero), (isInteger (params.n p));
    try discriminate.
  destruct (ltb (params.sigma p) zero); try discriminate.
  destruct (ltb (params.q p) zero); try discriminate.
  destruct (includes _ (params.option_type p)); try discriminate.
  destruct (includes _ (params.exercise_type p)); try discriminate.
  intros _. repeat split; reflexivity.
Qed.

Section LatticeRefinement.

Context {libm : Libm}.

Variables (S K discount u d p : float64).

Lemma payoff_crr optionType k price :
  kind_of_string optionType = Some k ->
  payoff optionType K price = crr_payoff k K price.
Proof.
  unfold kind_of_string, payoff.
  destruct (String.eqb optionType "call"); [intros [= <-]; reflexivity|].
  destruct (String.eqb optionType "put"); [intros [= <-]|discriminate].
  reflexivity.
Qed.

Lemma style_american exerciseType st :
  style_of_string exerciseType = Some st ->
  String.eqb exerciseType "american"
  = match st with American => true | European => false end.
Proof.
  unfold style_of_string.
  destruct (String.eqb_spec exerciseType "european") as [->|_];
    [intros [= <-]; reflexivity|].
  destruct (String.eqb exerciseType "american"); [intros [= <-]|discriminate].
  reflexivity.
Qed.

Variables (optionType exerciseType : string) (k : option_kind)
  (st : exercise_style).
Hypothesis Hk : kind_of_string optionType = Some k.
Hypothesis Hst : style_of_string exerciseType = Some st.

(** One assignment of the inner loop stores the value of the node. *)
Lemma node_update_crr i j done vals :
  List.length done = j -> (j + 1 < List.length vals)%nat ->
  node_update S K optionType exerciseType discount u d p i j
    (done ++ skipn j vals)
  = (done ++ [crr_node k st S K discount u d p i j vals])
      ++ skipn (j + 1) vals.
Proof.
  intros <- Hlen. set (j := List.length done) in *.
  unfold node_update, crr_node, array_get.
  assert (G1 : nth (j + 1) (done ++ skipn j vals) NaN = nth (j + 1) vals NaN).
  { rewrite app_nth2 by lia. fold j.
    replace (j + 1 - j)%nat with 1%nat by lia.
    rewrite (skipn_cons_nth vals j) by lia.
    rewrite (skipn_cons_nth vals (Datatypes.S j)) by lia.
    replace (j + 1)%nat with (Datatypes.S j) by lia. reflexivity. }
  assert (G0 : nth j (done ++ skipn j vals) NaN = nth j vals NaN).
  { rewrite app_nth2 by lia. fold j. rewrite Nat.sub_diag.
    rewrite (skipn_cons_nth vals j) by lia. reflexivity. }
  rewrite G1, G0.
  rewrite (style_american _ _ Hst), (payoff_crr _ _ _ Hk).
  rewrite <- app_assoc. cbn [app].
  replace (j + 1)%nat with (Datatypes.S j) by lia.
  rewrite (skipn_cons_nth vals j) by lia. unfold j.
  destruct st; rewrite array_set_app; reflexivity.
Qed.

(** The inner loop overwrites the first [i + 1] cells with the layer of
    step [i]; it reads each cell of the layer below before it is written. *)
Lemma layer_loop_prefix i m vals :
  (m <= i + 1)%nat -> (i + 1 < List.length vals)%nat ->
  fold_left
    (fun vals j => node_update S K optionType exerciseType discount u d p i j vals)
    (seq 0 m) vals
  = map (fun j => crr_node k st S K discount u d p i j vals) (seq 0 m)
      ++ skipn m vals.
Proof.
  intros Hm Hlen. induction m as [|m IH].
  - reflexivity.
  - rewrite seq_S, fold_left_app, map_app. cbn [fold_left map Nat.add].
    rewrite IH by lia.
    rewrite node_update_crr; [|rewrite length_map, length_seq; reflexivity|lia].
    replace (m + 1)%nat with (Datatypes.S m) by lia. reflexivity.
Qed.

Lemma layer_loop_crr i vals :
  (i + 1 < List.length vals)%nat ->
  layer_loop S K optionType exerciseType discount u d p i vals
  = crr_layer k st S K discount u d p i vals ++ skipn (i + 1) vals.
Proof. intros H. apply layer_loop_prefix; lia. Qed.

(** A layer depends on the first [i + 2] cells of the layer below. *)
Lemma crr_layer_ext i l1 l2 :
  (forall j, (j <= i + 1)%nat -> nth j l1 NaN = nth j l2 NaN) ->
  crr_layer k st S K discount u d p i l1
  = crr_layer k st S K discount u d p i l2.
Proof.
  intros H. unfold crr_layer. apply map_ext_in. intros j Hj.
  apply in_seq in Hj. unfold crr_node.
  rewrite (H j), (H (j + 1)%nat) by lia. reflexivity.
Qed.

Lemma crr_layer_length i l :
  List.length (crr_layer k st S K discount u d p i l) = (i + 1)%nat.
Proof. unfold crr_layer. rewrite length_map, length_seq. reflexivity. Qed.

Lemma crr_induction_ext i l1 l2 :
  (forall j, (j <= i)%nat -> nth j l1 NaN = nth j l2 NaN) ->
  nth 0 (crr_induction k st S K discount u d p i l1) NaN
  = nth 0 (crr_induction k st S K discount u d p i l2) NaN.
Proof.
  revert l1 l2. induction i as [|i IH]; intros l1 l2 H.
  - apply H. lia.
  - cbn [crr_induction]. apply IH. intros j Hj.
    rewrite (crr_layer_ext i l1 l2); [reflexivity|].
    intros j' Hj'. apply H. lia.
Qed.

(** The outer loop is the backward induction. *)
Lemma backward_loop_crr steps vals :
  (steps < List.length vals)%nat ->
  array_get
    (backward_loop S K optionType exerciseType discount u d p steps vals) 0
  = nth 0 (crr_induction k st S K discount u d p steps vals) NaN.
Proof.
  unfold backward_loop, array_get. revert vals.
  induction steps as [|i IH]; intros vals Hlen.
  - reflexivity.
  - rewrite seq_S, rev_app_distr. cbn [rev app fold_left Nat.add].
    rewrite layer_loop_crr by lia.
    rewrite IH by (rewrite length_app, crr_layer_length; lia).
    cbn [crr_induction]. apply crr_induction_ext.
    intros j Hj. apply app_nth1. rewrite crr_layer_length. lia.
Qed.

End LatticeRefinement.

Section PricerRefinement.

Context {libm : Libm}.

(** The pricer, past its four tests, returns the CRR value. *)
Lemma binomialOptionPricing_crr S K T r sigma n optionType exerciseType q k st :
  validateInputs (params.make S K T r sigma q n optionType exerciseType)
    = Return tt ->
  kind_of_string optionType = Some k ->
  style_of_string exerciseType = Some st ->
  let dt := div T n in
  let u := up_factor sigma dt in
  let d := div one u in
  let p := risk_neutral_p u d r q dt in
  eqb u d = false -> outside_unit p = false ->
  gtb (add n one) max_array_length = false ->
  binomialOptionPricing S K T r sigma n optionType exerciseType q
  = Return (crr_value k st S K T r sigma n q).
Proof.
  intros Hv Hk Hst dt u d p Hud Hp Hn.
  rewrite (binomialOptionPricing_valid _ _ _ _ _ _ _ _ _ Hv).
  cbv zeta. fold dt u d p. rewrite Hud, Hp, Hn. f_equal.
  rewrite (backward_loop_crr _ _ _ _ _ _ _ _ k st Hk Hst)
    by (rewrite !length_map, length_seq; lia).
  unfold crr_value. fold dt u d p. f_equal. f_equal.
  unfold crr_terminal. rewrite map_map. apply map_ext. intros j.
  apply payoff_crr. exact Hk.
Qed.

(** The CRR value at the step count [n] is the one of the lattice of [n]
    steps. *)
Lemma crr_value_lattice k st S K T r sigma n q :
  of_nat (to_nat n) = n ->
  crr_value k st S K T r sigma n q
  = crr_lattice k st S K T r sigma q (to_nat n).
Proof.
  intros Hn. unfold crr_value, crr_lattice. cbv zeta. rewrite Hn.
  reflexivity.
Qed.

(** C1, amended: for parameters that the validator accepts, with [u <> d],
    [p] in [0,1] and [n + 1] within the largest array length 2^32 - 1, the
    pricer returns exactly the CRR value on the lattice whose number of
    steps is [n]: terminal payoffs at [j = 0..n], then backward induction
    combining [value[j]] and [value[j+1]] with the discounted risk-neutral
    weights, the maximum with the intrinsic value for the american style,
    the result being [value[0]]. *)
Theorem binomialOptionPricing_is_crr
    S K T r sigma n optionType exerciseType q :
  validateInputs (params.make S K T r sigma q n optionType exerciseType)
    = Return tt ->
  let dt := div T n in
  let u := up_factor sigma dt in
  let d := div one u in
  eqb u d = false ->
  inside_unit (risk_neutral_p u d r q dt) = true ->
  gtb (add n one) max_array_length = false ->
  exists k st steps,
    kind_of_string optionType = Some k /\
    style_of_string exerciseType = Some st /\
    of_nat steps = n /\ (0 < steps)%nat /\
    Z.of_nat steps + 1 <= 4294967295 /\
    binomialOptionPricing S K T r sigma n optionType exerciseType q
    = Return (crr_lattice k st S K T r sigma q steps).
Proof.
  intros Hv dt u d Hud Hp Hn.
  destruct (validateInputs_accepts _ Hv)
    as (_ & _ & _ & Hpos & Hint & _ & _ & Ho & He).
  cbn [params.n params.option_type params.exercise_type] in *.
  destruct (includes_kind _ Ho) as [k Hk].
  destruct (includes_style _ He) as [st Hst].
  destruct (within_array_length n Hpos Hint Hn) as (Hlim & Hsteps & Hof).
  exists k, st, (to_nat n).
  split; [exact Hk|]. split; [exact Hst|]. split; [exact Hof|].
  split; [exact Hsteps|]. split; [exact Hlim|].
  rewrite <- (crr_value_lattice k st S K T r sigma n q Hof).
  apply binomialOptionPricing_crr; try assumption.
  apply inside_not_outside. exact Hp.
Qed.

End PricerRefinement.

(** C1, as stated, fails on the form's defaults at n = 2^32 steps: the
    validator accepts them, the factors differ and [p] lies in [0,1], yet
    the pricer returns no value: [Array.from] raises a RangeError. *)
Lemma binomialOptionPricing_past_array_length :
  validateInputs
    (params.make (dec 100 0) (dec 100 0) (dec 1 0) (dec 5 (-2)) (dec 2 (-1))
       (dec 2 (-2)) (dec 4294967296 0) "call" "european") = Return tt /\
  (let dt := div (dec 1 0) (dec 4294967296 0) in
   let u := up_factor (dec 2 (-1)) dt in
   let d := div one u in
   eqb u d = false /\
   inside_unit (risk_neutral_p u d (dec 5 (-2)) (dec 2 (-2)) dt) = true) /\
  binomialOptionPricing (dec 100 0) (dec 100 0) (dec 1 0) (dec 5 (-2))
    (dec 2 (-1)) (dec 4294967296 0) "call" "european" (dec 2 (-2))
  = Throw invalid_array_length.
Proof.
  split; [vm_compute; reflexivity|].
  split; [split; vm_compute; reflexivity|].
  vm_compute. reflexivity.
Qed.

Lemma binomialOptionPricing_is_crr_witness :
  validateInputs three_step_params = Return tt /\
  exists k st steps,
    kind_of_string "call" = Some k /\
    style_of_string "european" = Some st /\
    of_nat steps = dec 3 0 /\
    binomialOptionPricing (dec 100 0) (dec 100 0) (dec 1 0) (dec 5 (-2))
      (dec 2 (-1)) (dec 3 0) "call" "european" (dec 2 (-2))
    = Return (crr_lattice k st (dec 100 0) (dec 100 0) (dec 1 0) (dec 5 (-2))
                (dec 2 (-1)) (dec 2 (-2)) steps).
Proof.
  assert (Hv : validateInputs three_step_params = Return tt)
    by (vm_compute; reflexivity).
  split; [exact Hv|].
  destruct (binomialOptionPricing_is_crr (libm := reference_libm)
              (dec 100 0) (dec 100 0) (dec 1 0) (dec 5 (-2)) (dec 2 (-1))
              (dec 3 0) "call" "european" (dec 2 (-2)) Hv
              ltac:(vm_compute; reflexivity) ltac:(vm_compute; reflexivity)
              ltac:(vm_compute; reflexivity))
    as (k & st & steps & Hk & Hst & Hof & _ & _ & Hprice).
  exists k, st, steps. auto.
Defined.

(** *** American and european prices *)

Section AmericanEuropean.

Context {libm : Libm}.

(** A call of the pricer that returns has passed the tests, and its value
    is the CRR value. *)
Lemma binomialOptionPricing_returns
    S K T r sigma n optionType exerciseType q v :
  binomialOptionPricing S K T r sigma n optionType exerciseType q = Return v ->
  let dt := div T n in
  let u := up_factor sigma dt in
  let d := div one u in
  let p := risk_neutral_p u d r q dt in
  validateInputs (params.make S K T r sigma q n optionType exerciseType)
    = Return tt /\
  eqb u d = false /\ outside_unit p = false /\
  exists k st,
    kind_of_string optionType = Some k /\
    style_of_string exerciseType = Some st /\
    v = crr_value k st S K T r sigma n q.
Proof.
  intros Hr dt u d p.
  assert (Hv : validateInputs
                 (params.make S K T r sigma q n optionType exerciseType)
               = Return tt).
  { unfold binomialOptionPricing in Hr.
    destruct (validateInputs _) as [[]|e]; [reflexivity|discriminate]. }
  pose proof (binomialOptionPricing_valid _ _ _ _ _ _ _ _ _ Hv) as Hp.
  cbv zeta in Hp. fold dt u d p in Hp.
  destruct (validateInputs_accepts _ Hv)
    as (_ & _ & _ & _ & _ & _ & _ & Ho & He).
  destruct (includes_kind _ Ho) as [k Hk].
  destruct (includes_style _ He) as [st Hst].
  destruct (eqb u d) eqn:Hud; [rewrite Hp in Hr; discriminate|].
  destruct (outside_unit p) eqn:Hout; [rewrite Hp in Hr; discriminate|].
  destruct (gtb (add n one) max_array_length) eqn:Hn;
    [rewrite Hp in Hr; discriminate Hr|].
  repeat split; try assumption. exists k, st. repeat split; try assumption.
  pose proof (binomialOptionPricing_crr _ _ _ _ _ _ _ _ _ k st Hv Hk Hst
                Hud Hout Hn) as Hc.
  rewrite Hr in Hc. injection Hc. auto.
Qed.

(** It has also created its array. *)
Lemma binomialOptionPricing_returns_length
    S K T r sigma n optionType exerciseType q v :
  binomialOptionPricing S K T r sigma n optionType exerciseType q = Return v ->
  gtb (add n one) max_array_length = false.
Proof.
  intros Hr.
  assert (Hv : validateInputs
                 (params.make S K T r sigma q n optionType exerciseType)
               = Return tt).
  { unfold binomialOptionPricing in Hr.
    destruct (validateInputs _) as [[]|e]; [reflexivity|discriminate]. }
  rewrite (binomialOptionPricing_valid _ _ _ _ _ _ _ _ _ Hv) in Hr.
  cbv zeta in Hr.
  destruct (eqb _ _); [discriminate Hr|].
  destruct (outside_unit _); [discriminate Hr|].
  destruct (gtb (add n one) max_array_length); [discriminate Hr|reflexivity].
Qed.

Variables (k : option_kind) (S K discount u d p : float64).

Hypothesis Hdiscount : isNaN discount = true \/ leb zero discount = true.
Hypothesis Hp : isNaN p = true \/ leb zero p = true.
Hypothesis Hq : isNaN (sub one p) = true \/ leb zero (sub one p) = true.

Lemma nth_crr_layer st i j next :
  nth j (crr_layer k st S K discount u d p i next) NaN
  = if (j <? i + 1)%nat then crr_node k st S K discount u d p i j next
    else NaN.
Proof.
  unfold crr_layer. destruct (Nat.ltb_spec j (i + 1)) as [Hlt|Hge].
  - rewrite nth_indep with (d' := crr_node k st S K discount u d p i 0%nat next)
      by (rewrite length_map, length_seq; lia).
    rewrite (map_nth (fun j => crr_node k st S K discount u d p i j next)).
    rewrite seq_nth by lia. reflexivity.
  - apply nth_overflow. rewrite length_map, length_seq. lia.
Qed.

Lemma crr_layer_ordered i le la :
  layers_ordered le la ->
  layers_ordered (crr_layer k European S K discount u d p i le)
                 (crr_layer k American S K discount u d p i la).
Proof.
  intros H j. rewrite !nth_crr_layer.
  destruct (j <? i + 1)%nat; [|reflexivity].
  unfold crr_node. apply F64_facts.max_ordered.
  apply F64_facts.mul_ordered; [exact Hdiscount|].
  apply F64_facts.add_ordered; apply F64_facts.mul_ordered; auto.
Qed.

Lemma crr_induction_ordered i le la :
  layers_ordered le la ->
  layers_ordered (crr_induction k European S K discount u d p i le)
                 (crr_induction k American S K discount u d p i la).
Proof.
  revert le la. induction i as [|i IH]; intros le la H; [exact H|].
  cbn [crr_induction]. apply IH. apply crr_layer_ordered. exact H.
Qed.

End AmericanEuropean.

(** C4, as stated, fails when both prices are NaN: with a volatility of
    2000 the up factor overflows to [Infinity], the down factor is 0, and
    both styles return NaN, which is not at least NaN. *)
Lemma american_european_both_nan :
  binomialOptionPricing (dec 100 0) (dec 100 0) (dec 1 0) (dec 5 (-2))
    (dec 2000 0) (dec 1 0) "call" "american" (dec 2 (-2)) = Return NaN /\
  binomialOptionPricing (dec 100 0) (dec 100 0) (dec 1 0) (dec 5 (-2))
    (dec 2000 0) (dec 1 0) "call" "european" (dec 2 (-2)) = Return NaN /\
  geb NaN NaN = false.
Proof. repeat split; vm_compute; reflexivity. Qed.

(** C4, amended: for every [Math.exp] that returns no negative number,
    when the american and the european call of the pricer on otherwise
    identical parameters both return a number (not NaN), the american
    price is at least the european one. *)
Theorem american_at_least_european {libm : Libm}
    S K T r sigma n optionType q a e :
  (forall x, ltb (Math_exp x) zero = false) ->
  binomialOptionPricing S K T r sigma n optionType "american" q = Return a ->
  binomialOptionPricing S K T r sigma n optionType "european" q = Return e ->
  isNaN a = false -> isNaN e = false ->
  geb a e = true.
Proof.
  intros Hexp Ha He Na Ne.
  destruct (binomialOptionPricing_returns _ _ _ _ _ _ _ _ _ _ Ha)
    as (_ & _ & Hout & ka & sta & Hka & Hsta & ->).
  destruct (binomialOptionPricing_returns _ _ _ _ _ _ _ _ _ _ He)
    as (_ & _ & _ & ke & ste & Hke & Hste & ->).
  rewrite Hka in Hke. injection Hke as <-.
  injection Hsta as <-. injection Hste as <-.
  unfold geb. apply F64_facts.ordered_leb; try assumption.
  unfold crr_value. apply crr_induction_ordered.
  - apply F64_facts.not_negative, Hexp.
  - apply orb_false_elim in Hout as [H0 _].
    apply F64_facts.not_negative, H0.
  - apply orb_false_elim in Hout as [_ H1].
    apply F64_facts.one_minus_nonneg, H1.
  - intros j. apply F64_facts.ordered_refl.
Qed.

Lemma american_at_least_european_witness :
  exists a e,
    binomialOptionPricing (dec 100 0) (dec 100 0) (dec 1 0) (dec 5 (-2))
      (dec 2 (-1)) (dec 3 0) "put" "american" (dec 2 (-2)) = Return a /\
    binomialOptionPricing (dec 100 0) (dec 100 0) (dec 1 0) (dec 5 (-2))
      (dec 2 (-1)) (dec 3 0) "put" "european" (dec 2 (-2)) = Return e /\
    isNaN a = false /\ isNaN e = false /\ geb a e = true.
Proof.
  eexists. eexists.
  split; [vm_compute; reflexivity|].
  split; [vm_compute; reflexivity|].
  split; [reflexivity|]. split; [reflexivity|].
  apply (american_at_least_european (libm := reference_libm)
           (dec 100 0) (dec 100 0) (dec 1 0) (dec 5 (-2)) (dec 2 (-1))
           (dec 3 0) "put" (dec 2 (-2))).
  - exact F64_facts.exp64_not_negative.
  - vm_compute; reflexivity.
  - vm_compute; reflexivity.
  - reflexivity.
  - reflexivity.
Defined.

(** *** The convergence driver *)

Section Convergence.

Context {libm : Libm}.

Variables (p : params.t) (nStart nMax tol step : float64).

Lemma trail_upto_S k :
  trail_upto p nStart step (Datatypes.S k)
  = trail_upto p nStart step k
      ++ [ {| entry_n := n_seq nStart step (Datatypes.S k);
              entry_price := price_val p nStart step (Datatypes.S k) |} ].
Proof.
  unfold trail_upto.
  replace (Datatypes.S k + 1)%nat with (Datatypes.S (k + 1)) by lia.
  rewrite seq_S, map_app. cbn [map Nat.add].
  replace (k + 1)%nat with (Datatypes.S k) by lia. reflexivity.
Qed.

Lemma price_val_eq i v :
  price_at p (n_seq nStart step i) = Return v ->
  price_val p nStart step i = v.
Proof. unfold price_val. intros ->. reflexivity. Qed.

(** One turn of the loop, at the [i]-th step count. *)
Lemma convergence_loop_turn fuel i :
  (1 <= i)%nat ->
  leb (n_seq nStart step i) nMax = true ->
  (exists v, price_at p (n_seq nStart step i) = Return v) ->
  convergence_loop (Datatypes.S fuel) p nMax tol step (n_seq nStart step i)
    (price_val p nStart step (i - 1)) (trail_upto p nStart step (i - 1))
  = if within_tol p nStart tol step i then
      Some (Return {| conv_price := price_val p nStart step i;
                      conv_n := n_seq nStart step i;
                      conv_trail := trail_upto p nStart step i |})
    else
      convergence_loop fuel p nMax tol step (n_seq nStart step (i + 1))
        (price_val p nStart step i) (trail_upto p nStart step i).
Proof.
  intros Hi Hle [v Hv]. cbn [convergence_loop]. rewrite Hle, Hv.
  rewrite <- (price_val_eq i v Hv).
  destruct i as [|i']; [lia|].
  replace (Datatypes.S i' - 1)%nat with i' by lia.
  rewrite <- trail_upto_S.
  unfold within_tol.
  replace (Datatypes.S i' - 1)%nat with i' by lia.
  replace (Datatypes.S i' + 1)%nat with (Datatypes.S (Datatypes.S i')) by lia.
  reflexivity.
Qed.

(** Past the last step count within [nMax] the loop returns at once. *)
Lemma convergence_loop_cap fuel n prev trail :
  leb n nMax = false ->
  convergence_loop fuel p nMax tol step n prev trail
  = Some (Return {| conv_price := prev; conv_n := nMax;
                    conv_trail := trail |}).
Proof. intros H. destruct fuel; cbn [convergence_loop]; rewrite H; reflexivity. Qed.

Lemma conv_at_converged k :
  (1 <= k)%nat -> within_tol p nStart tol step k = true ->
  conv_at p nStart nMax tol step k
  = {| conv_price := price_val p nStart step k;
       conv_n := n_seq nStart step k;
       conv_trail := trail_upto p nStart step k |}.
Proof.
  intros Hk Hw. unfold conv_at. rewrite Hw.
  destruct (Nat.leb_spec 1 k); [reflexivity|lia].
Qed.

Lemma conv_at_cap k :
  ((1 <= k)%nat -> within_tol p nStart tol step k = false) ->
  conv_at p nStart nMax tol step k
  = {| conv_price := price_val p nStart step k;
       conv_n := nMax;
       conv_trail := trail_upto p nStart step k |}.
Proof.
  intros Hw. unfold conv_at.
  destruct (Nat.leb_spec 1 k); [rewrite Hw by assumption|]; reflexivity.
Qed.

(** With enough turns left, the loop reaches the exit. *)
Lemma convergence_loop_exits k :
  exits_at p nStart nMax tol step k ->
  forall d i fuel,
    (1 <= i)%nat -> (i + d = k)%nat -> (d < fuel)%nat ->
    convergence_loop fuel p nMax tol step (n_seq nStart step i)
      (price_val p nStart step (i - 1)) (trail_upto p nStart step (i - 1))
    = Some (Return (conv_at p nStart nMax tol step k)).
Proof.
  intros (Hprice & Hin & Hno & Hexit).
  induction d as [|d IH]; intros i fuel Hi Hd Hf;
    (destruct fuel as [|fuel]; [lia|]);
    rewrite convergence_loop_turn by (try apply Hin; try apply Hprice; lia).
  - assert (i = k) by lia. subst i.
    destruct Hexit as [[_ Hw]|[Hw Hcap]].
    + rewrite Hw. rewrite conv_at_converged by assumption. reflexivity.
    + rewrite Hw by assumption. rewrite convergence_loop_cap by assumption.
      rewrite conv_at_cap by assumption. reflexivity.
  - rewrite Hno by lia.
    replace i with (i + 1 - 1)%nat at 2 3 by lia.
    apply IH; lia.
Qed.

(** A loop that returns has reached an exit. *)
Lemma convergence_loop_returns fuel :
  forall i res,
    (1 <= i)%nat ->
    (forall j, (j < i)%nat ->
               exists v, price_at p (n_seq nStart step j) = Return v) ->
    (forall j, (1 <= j < i)%nat ->
               leb (n_seq nStart step j) nMax = true /\
               within_tol p nStart tol step j = false) ->
    convergence_loop fuel p nMax tol step (n_seq nStart step i)
      (price_val p nStart step (i - 1)) (trail_upto p nStart step (i - 1))
    = Some (Return res) ->
    exists k, (k < i + fuel)%nat /\
              exits_at p nStart nMax tol step k /\
              res = conv_at p nStart nMax tol step k.
Proof.
  induction fuel as [|fuel IH]; intros i res Hi Hprice Hhist Hloop.
  - cbn [convergence_loop] in Hloop.
    destruct (leb (n_seq nStart step i) nMax) eqn:Hle; [discriminate|].
    injection Hloop as <-. exists (i - 1)%nat. split; [lia|]. split.
    + repeat split.
      * intros j Hj. apply Hprice. lia.
      * intros j Hj. apply Hhist. lia.
      * intros j Hj. apply Hhist. lia.
      * right. split; [intros H1; apply Hhist; lia|].
        replace (i - 1 + 1)%nat with i by lia. exact Hle.
    + rewrite conv_at_cap; [reflexivity|]. intros H1. apply Hhist. lia.
  - destruct (leb (n_seq nStart step i) nMax) eqn:Hle.
    + destruct (price_at p (n_seq nStart step i)) as [v|e] eqn:Hv;
        [|cbn [convergence_loop] in Hloop; rewrite Hle, Hv in Hloop;
          discriminate].
      rewrite convergence_loop_turn in Hloop by eauto.
      destruct (within_tol p nStart tol step i) eqn:Hw.
      * injection Hloop as <-. exists i. split; [lia|]. split.
        -- repeat split.
           ++ intros j Hj. destruct (Nat.eq_dec j i) as [->|]; [eauto|].
              apply Hprice. lia.
           ++ intros j Hj. destruct (Nat.eq_dec j i) as [->|]; [exact Hle|].
              apply Hhist. lia.
           ++ intros j Hj. apply Hhist. lia.
           ++ left. split; assumption.
        -- rewrite conv_at_converged by assumption. reflexivity.
      * replace i with (i + 1 - 1)%nat in Hloop at 2 3 by lia.
        apply IH in Hloop; [| lia | |].
        -- destruct Hloop as (k & Hk & Hex & ->). exists k.
           split; [lia|]. split; [assumption|reflexivity].
        -- intros j Hj. destruct (Nat.eq_dec j i) as [->|]; [eauto|].
           apply Hprice. lia.
        -- intros j Hj. destruct (Nat.eq_dec j i) as [->|]; [split; assumption|].
           apply Hhist. lia.
    + rewrite convergence_loop_cap in Hloop by assumption.
      injection Hloop as <-. exists (i - 1)%nat. split; [lia|]. split.
      * repeat split.
        -- intros j Hj. apply Hprice. lia.
        -- intros j Hj. apply Hhist. lia.
        -- intros j Hj. apply Hhist. lia.
        -- right. split; [intros H1; apply Hhist; lia|].
           replace (i - 1 + 1)%nat with i by lia. exact Hle.
      * rewrite conv_at_cap; [reflexivity|]. intros H1. apply Hhist. lia.
Qed.

(** An error of the pricer at a step count that the loop reaches is the
    outcome of the loop. *)
Lemma convergence_loop_raises k e :
  tries p nStart nMax tol step k ->
  price_at p (n_seq nStart step k) = Throw e ->
  forall d i fuel,
    (1 <= i)%nat -> (i + d = k)%nat -> (d < fuel)%nat ->
    convergence_loop fuel p nMax tol step (n_seq nStart step i)
      (price_val p nStart step (i - 1)) (trail_upto p nStart step (i - 1))
    = Some (Throw e).
Proof.
  intros (Hprice & Hin & Hno) He.
  induction d as [|d IH]; intros i fuel Hi Hd Hf;
    (destruct fuel as [|fuel]; [lia|]).
  - assert (i = k) by lia. subst i.
    cbn [convergence_loop]. rewrite Hin by lia. rewrite He. reflexivity.
  - rewrite convergence_loop_turn by (try apply Hin; try apply Hprice; lia).
    rewrite Hno by lia.
    replace i with (i + 1 - 1)%nat at 2 3 by lia.
    apply IH; lia.
Qed.

(** An error of the loop is an error of the pricer at a step count that
    the loop has reached. *)
Lemma convergence_loop_throws fuel :
  forall i e,
    (1 <= i)%nat ->
    (forall j, (j < i)%nat ->
               exists v, price_at p (n_seq nStart step j) = Return v) ->
    (forall j, (1 <= j < i)%nat ->
               leb (n_seq nStart step j) nMax = true /\
               within_tol p nStart tol step j = false) ->
    convergence_loop fuel p nMax tol step (n_seq nStart step i)
      (price_val p nStart step (i - 1)) (trail_upto p nStart step (i - 1))
    = Some (Throw e) ->
    exists k, (k < i + fuel)%nat /\
              tries p nStart nMax tol step k /\
              price_at p (n_seq nStart step k) = Throw e.
Proof.
  induction fuel as [|fuel IH]; intros i e Hi Hprice Hhist Hloop.
  - cbn [convergence_loop] in Hloop.
    destruct (leb (n_seq nStart step i) nMax); discriminate Hloop.
  - destruct (leb (n_seq nStart step i) nMax) eqn:Hle;
      [|rewrite convergence_loop_cap in Hloop by assumption;
        discriminate Hloop].
    destruct (price_at p (n_seq nStart step i)) as [v|e'] eqn:Hv.
    + rewrite convergence_loop_turn in Hloop by eauto.
      destruct (within_tol p nStart tol step i) eqn:Hw;
        [discriminate Hloop|].
      replace i with (i + 1 - 1)%nat in Hloop at 2 3 by lia.
      apply IH in Hloop; [| lia | |].
      * destruct Hloop as (k & Hk & Ht & He). exists k.
        split; [lia|]. split; assumption.
      * intros j Hj. destruct (Nat.eq_dec j i) as [->|]; [eauto|].
        apply Hprice. lia.
      * intros j Hj.
        destruct (Nat.eq_dec j i) as [->|]; [split; assumption|].
        apply Hhist. lia.
    + cbn [convergence_loop] in Hloop. rewrite Hle, Hv in Hloop.
      injection Hloop as ->. exists i. split; [lia|]. split; [|exact Hv].
      repeat split.
      * exact Hprice.
      * intros j Hj. destruct (Nat.eq_dec j i) as [->|]; [exact Hle|].
        apply Hhist. lia.
      * intros j Hj. apply Hhist. lia.
Qed.

Lemma priceWithConvergence_unfold fuel prev :
  price_at p nStart = Return prev ->
  priceWithConvergence fuel p nStart nMax tol step
  = convergence_loop fuel p nMax tol step (n_seq nStart step 1)
      (price_val p nStart step (1 - 1)) (trail_upto p nStart step (1 - 1)).
Proof.
  intros Hp. unfold priceWithConvergence. rewrite Hp.
  cbn [Nat.sub n_seq]. unfold trail_upto. cbn [seq map Nat.add n_seq].
  rewrite (price_val_eq 0 prev Hp). reflexivity.
Qed.

Lemma nth_error_trail_upto k i :
  (i <= k)%nat ->
  nth_error (trail_upto p nStart step k) i
  = Some {| entry_n := n_seq nStart step i;
            entry_price := price_val p nStart step i |}.
Proof.
  intros Hi. unfold trail_upto.
  rewrite nth_error_map, nth_error_seq.
  destruct (Nat.ltb_spec i (k + 1)); [reflexivity|lia].
Qed.

(** C5, amended: when the pricer returns at every step count tried, the
    driver returns as soon as two successive prices are within the
    tolerance, with that price, that step count and the trail so far; when
    the next step count exceeds [nMax] first, it returns the last computed
    price with [n = nMax] and the trail, and raises nothing.  The trail
    starts at [nStart], its step counts increase by [step], each of its
    prices is the pricer's output at its step count, and its last price is
    the returned one.  An error of the pricer at a step count tried is
    raised unchanged, and the driver raises no other error: it raises [e]
    exactly when the pricer raises [e] at a step count that it tries. *)
Theorem priceWithConvergence_spec fuel :
  (forall k, exits_at p nStart nMax tol step k -> (k <= fuel)%nat ->
     priceWithConvergence fuel p nStart nMax tol step
     = Some (Return (conv_at p nStart nMax tol step k))) /\
  (forall res,
     priceWithConvergence fuel p nStart nMax tol step = Some (Return res) ->
     exists k, (k <= fuel)%nat /\ exits_at p nStart nMax tol step k /\
               res = conv_at p nStart nMax tol step k) /\
  (forall i e, tries p nStart nMax tol step i ->
     price_at p (n_seq nStart step i) = Throw e -> (i <= fuel)%nat ->
     priceWithConvergence fuel p nStart nMax tol step = Some (Throw e)) /\
  (forall e,
     priceWithConvergence fuel p nStart nMax tol step = Some (Throw e) ->
     exists i, (i <= fuel)%nat /\ tries p nStart nMax tol step i /\
               price_at p (n_seq nStart step i) = Throw e) /\
  (forall k, exits_at p nStart nMax tol step k ->
     let res := conv_at p nStart nMax tol step k in
     List.length (conv_trail res) = (k + 1)%nat /\
     (forall i, (i <= k)%nat ->
        exists entry,
          nth_error (conv_trail res) i = Some entry /\
          entry_n entry = n_seq nStart step i /\
          price_at p (entry_n entry) = Return (entry_price entry) /\
          (i = k -> entry_price entry = conv_price res)) /\
     n_seq nStart step 0 = nStart /\
     (forall i, n_seq nStart step (Datatypes.S i)
                = add (n_seq nStart step i) step) /\
     (conv_n res = nMax \/
      ((1 <= k)%nat /\ conv_n res = n_seq nStart step k /\
       leb (abs (sub (price_val p nStart step k)
                     (price_val p nStart step (k - 1)))) tol = true))).
Proof.
  split; [|split; [|split; [|split]]].
  - intros k Hex Hk.
    pose proof Hex as (Hprice & _ & _ & Hexit).
    destruct (Hprice 0%nat ltac:(lia)) as [prev Hprev].
    rewrite (priceWithConvergence_unfold fuel prev Hprev).
    destruct k as [|k].
    + destruct Hexit as [[H1 _]|[Hw Hcap]]; [lia|].
      rewrite convergence_loop_cap by exact Hcap.
      rewrite conv_at_cap by assumption. reflexivity.
    + apply (convergence_loop_exits (Datatypes.S k) Hex k); lia.
  - intros res Hres.
    destruct (price_at p nStart) as [prev|e] eqn:Hprev;
      [|unfold priceWithConvergence in Hres; rewrite Hprev in Hres;
        discriminate].
    rewrite (priceWithConvergence_unfold fuel prev Hprev) in Hres.
    apply convergence_loop_returns in Hres.
    + destruct Hres as (k & Hk & Hex & ->). exists k.
      split; [lia|]. split; [assumption|reflexivity].
    + lia.
    + intros j Hj. assert (j = 0%nat) by lia. subst j. eauto.
    + intros j Hj. lia.
  - intros i e Ht He Hi. destruct i as [|i].
    + unfold priceWithConvergence. cbn [n_seq] in He. rewrite He.
      reflexivity.
    + pose proof Ht as (Hprice & _).
      destruct (Hprice 0%nat ltac:(lia)) as [prev Hprev].
      rewrite (priceWithConvergence_unfold fuel prev Hprev).
      apply (convergence_loop_raises (Datatypes.S i) e Ht He i); lia.
  - intros e He.
    destruct (price_at p nStart) as [prev|e'] eqn:Hprev.
    + rewrite (priceWithConvergence_unfold fuel prev Hprev) in He.
      apply convergence_loop_throws in He.
      * destruct He as (k & Hk & Ht & He). exists k.
        split; [lia|]. split; assumption.
      * lia.
      * intros j Hj. assert (j = 0%nat) by lia. subst j. eauto.
      * intros j Hj. lia.
    + unfold priceWithConvergence in He. rewrite Hprev in He.
      injection He as ->. exists 0%nat. split; [lia|]. split; [|exact Hprev].
      repeat split; intros j Hj; lia.
  - intros k (Hprice & _) res.
    split; [|split; [|split; [|split]]].
    + unfold res. cbn [conv_at conv_trail]. unfold trail_upto.
      rewrite length_map, length_seq. reflexivity.
    + intros i Hi. unfold res. cbn [conv_at conv_trail conv_price].
      eexists. split; [apply nth_error_trail_upto; exact Hi|].
      cbn [entry_n entry_price]. split; [reflexivity|]. split.
      * destruct (Hprice i Hi) as [v Hv].
        rewrite (price_val_eq i v Hv). exact Hv.
      * intros ->. reflexivity.
    + reflexivity.
    + intros i. reflexivity.
    + unfold res. cbn [conv_at conv_n].
      destruct (Nat.leb_spec 1 k); [|left; reflexivity].
      cbn [andb]. destruct (within_tol p nStart tol step k) eqn:Hw;
        [right|left; reflexivity].
      split; [assumption|]. split; [reflexivity|exact Hw].
Qed.

End Convergence.

(** C5, as stated, fails on a parameter set that the validator accepts and
    that the pricer prices at its own 300 steps: with the default knobs
    the driver prices at 50 steps first, where the risk-neutral probability
    exceeds 1, and raises ArbitrageViolation instead of returning. *)
Lemma priceWithConvergence_raises_on_valid :
  validateInputs low_vol_params = Return tt /\
  (exists v, price_at low_vol_params (params.n low_vol_params) = Return v) /\
  exists pbad,
    priceWithConvergence 0 low_vol_params default_nStart default_nMax
      default_conv_tol default_step = Some (Throw (p_out_of_bounds pbad)) /\
    gtb pbad one = true.
Proof.
  assert (Hv : validateInputs low_vol_params = Return tt)
    by (vm_compute; reflexivity).
  split; [exact Hv|]. split.
  - unfold price_at, low_vol_params in *.
    cbn [params.S params.K params.T params.r params.sigma params.q params.n
         params.option_type params.exercise_type].
    rewrite (binomialOptionPricing_valid (libm := reference_libm)
               _ _ _ _ _ _ _ _ _ Hv).
    cbv zeta.
    match goal with
    | |- exists v, (if ?c then _ else _) = _ =>
        replace c with false by (vm_compute; reflexivity)
    end.
    match goal with
    | |- exists v, (if ?c then _ else _) = _ =>
        replace c with false by (vm_compute; reflexivity)
    end.
    match goal with
    | |- exists v, (if ?c then _ else _) = _ =>
        replace c with false by (vm_compute; reflexivity)
    end.
    eauto.
  - eexists. split; vm_compute; reflexivity.
Qed.

Lemma priceWithConvergence_spec_witness :
  exits_at three_step_params (dec 1 0) (dec 3 0) (dec 1 (-4)) (dec 1 0) 2 /\
  priceWithConvergence 2 three_step_params (dec 1 0) (dec 3 0) (dec 1 (-4))
    (dec 1 0)
  = Some (Return (conv_at three_step_params (dec 1 0) (dec 3 0) (dec 1 (-4))
                    (dec 1 0) 2)).
Proof.
  assert (Hex : exits_at three_step_params (dec 1 0) (dec 3 0) (dec 1 (-4))
                  (dec 1 0) 2).
  { split; [|split; [|split]].
    - intros i Hi. destruct i as [|[|[|i]]]; try lia;
        eexists; vm_compute; reflexivity.
    - intros i Hi. destruct i as [|[|[|i]]]; try lia; vm_compute; reflexivity.
    - intros i Hi. destruct i as [|[|i]]; try lia; vm_compute; reflexivity.
    - right. split; [intros _|]; vm_compute; reflexivity. }
  split; [exact Hex|].
  apply (priceWithConvergence_spec (libm := reference_libm)
           three_step_params (dec 1 0) (dec 3 0) (dec 1 (-4)) (dec 1 0) 2);
    [exact Hex|lia].
Defined.

(** *** The number of pricing calls of the driver *)

Section ConvergenceCalls.

Context {libm : Libm}.

Variables (p : params.t) (nMax tol step : float64).

(** The loop only ever appends to the trail. *)
Lemma convergence_loop_trail fuel :
  forall n prev trail res,
    convergence_loop fuel p nMax tol step n prev trail = Some (Return res) ->
    exists rest, conv_trail res = trail ++ rest.
Proof.
  induction fuel as [|fuel IH]; intros n prev trail res Hloop;
    cbn [convergence_loop] in Hloop;
    (destruct (leb n nMax);
     [|injection Hloop as <-; exists []; cbn [conv_trail];
       rewrite app_nil_r; reflexivity]);
    [discriminate|].
  destruct (price_at p n) as [curr|e]; [|discriminate].
  destruct (leb (abs (sub curr prev)) tol).
  - injection Hloop as <-. cbn [conv_trail]. eauto.
  - apply IH in Hloop as [rest ->]. rewrite <- app_assoc. eauto.
Qed.

End ConvergenceCalls.

(** C6, as stated, fails when the second step count already exceeds
    [nMax]: with [nStart = nMax = 3] and [step = 1] the driver prices once
    and returns a trail of one entry. *)
Lemma priceWithConvergence_single_call :
  exists res,
    priceWithConvergence 0 three_step_params (dec 3 0) (dec 3 0) (dec 1 (-4))
      (dec 1 0) = Some (Return res) /\
    List.length (conv_trail res) = 1%nat.
Proof. eexists. split; [vm_compute; reflexivity|reflexivity]. Qed.

(** C6, amended: the driver always prices at [nStart], and an error there
    is raised.  When [nStart + step] is not within [nMax] it prices once and
    returns that price with [n = nMax] and a trail of one entry.  When
    [nStart + step <= nMax] it prices at [nStart + step] before its first
    convergence check: an error there is raised, two prices within the
    tolerance are returned with a trail of these two entries, and every
    trail returned starts with them. *)
Theorem priceWithConvergence_calls {libm : Libm}
    fuel p nStart nMax tol step :
  (forall e, price_at p nStart = Throw e ->
     priceWithConvergence fuel p nStart nMax tol step = Some (Throw e)) /\
  (forall v0, price_at p nStart = Return v0 ->
     leb (add nStart step) nMax = false ->
     priceWithConvergence fuel p nStart nMax tol step
     = Some (Return
               {| conv_price := v0; conv_n := nMax;
                  conv_trail :=
                    [ {| entry_n := nStart; entry_price := v0 |} ] |})) /\
  (forall v0 e, price_at p nStart = Return v0 ->
     leb (add nStart step) nMax = true ->
     price_at p (add nStart step) = Throw e -> (1 <= fuel)%nat ->
     priceWithConvergence fuel p nStart nMax tol step = Some (Throw e)) /\
  (forall v0 v1, price_at p nStart = Return v0 ->
     leb (add nStart step) nMax = true ->
     price_at p (add nStart step) = Return v1 ->
     leb (abs (sub v1 v0)) tol = true -> (1 <= fuel)%nat ->
     priceWithConvergence fuel p nStart nMax tol step
     = Some (Return
               {| conv_price := v1; conv_n := add nStart step;
                  conv_trail :=
                    [ {| entry_n := nStart; entry_price := v0 |};
                      {| entry_n := add nStart step;
                         entry_price := v1 |} ] |})) /\
  (forall res,
     priceWithConvergence fuel p nStart nMax tol step = Some (Return res) ->
     (leb (add nStart step) nMax = true ->
      exists v0 v1 rest,
        price_at p nStart = Return v0 /\
        price_at p (add nStart step) = Return v1 /\
        conv_trail res
        = {| entry_n := nStart; entry_price := v0 |}
            :: {| entry_n := add nStart step; entry_price := v1 |} :: rest /\
        (2 <= List.length (conv_trail res))%nat) /\
     (leb (add nStart step) nMax = false ->
      exists v0,
        price_at p nStart = Return v0 /\
        res = {| conv_price := v0; conv_n := nMax;
                 conv_trail :=
                   [ {| entry_n := nStart; entry_price := v0 |} ] |})).
Proof.
  unfold priceWithConvergence.
  split; [|split; [|split; [|split]]].
  - intros e ->. reflexivity.
  - intros v0 -> Hle. apply convergence_loop_cap. exact Hle.
  - intros v0 e -> Hle He Hf. destruct fuel as [|fuel']; [lia|].
    cbn [convergence_loop]. rewrite Hle, He. reflexivity.
  - intros v0 v1 -> Hle H1 Htol Hf. destruct fuel as [|fuel']; [lia|].
    cbn [convergence_loop]. rewrite Hle, H1, Htol. reflexivity.
  - intros res Hres.
    destruct (price_at p nStart) as [v0|e] eqn:H0; [|discriminate Hres].
    split; intros Hle.
    + destruct fuel as [|fuel']; cbn [convergence_loop] in Hres;
        rewrite Hle in Hres; [discriminate Hres|].
      destruct (price_at p (add nStart step)) as [v1|e] eqn:H1;
        [|discriminate Hres].
      exists v0, v1.
      assert (Hrest : exists rest,
                 conv_trail res
                 = ([ {| entry_n := nStart; entry_price := v0 |} ]
                    ++ [ {| entry_n := add nStart step;
                            entry_price := v1 |} ])
                     ++ rest).
      { destruct (leb (abs (sub v1 v0)) tol).
        - injection Hres as <-. exists []. cbn [conv_trail].
          rewrite app_nil_r. reflexivity.
        - apply convergence_loop_trail in Hres. exact Hres. }
      destruct Hrest as [rest Hrest]. exists rest.
      split; [reflexivity|]. split; [reflexivity|].
      rewrite Hrest. cbn [app List.length]. split; [reflexivity|lia].
    + exists v0. split; [reflexivity|].
      rewrite convergence_loop_cap in Hres by exact Hle.
      injection Hres as <-. reflexivity.
Qed.

Lemma priceWithConvergence_calls_witness :
  exists res,
    priceWithConvergence 2 three_step_params (dec 1 0) (dec 3 0) (dec 1 (-4))
      (dec 1 0) = Some (Return res) /\
    leb (add (dec 1 0) (dec 1 0)) (dec 3 0) = true /\
    (2 <= List.length (conv_trail res))%nat.
Proof.
  eexists. split; [vm_compute; reflexivity|]. split; [reflexivity|].
  destruct (priceWithConvergence_calls (libm := reference_libm) 2
              three_step_params (dec 1 0) (dec 3 0) (dec 1 (-4)) (dec 1 0))
    as (_ & _ & _ & _ & Hres).
  destruct (Hres _ ltac:(vm_compute; reflexivity)) as [Htwo _].
  destruct (Htwo ltac:(vm_compute; reflexivity))
    as (v0 & v1 & rest & _ & _ & _ & Hlen).
  exact Hlen.
Defined.

(** *** The implied-volatility solver *)

Section ImpliedVolatility.

Context {libm : Libm}.

(** The pricer raises neither InvalidTarget nor NotBracketed. *)
Lemma binomialOptionPricing_error_kind
    S K T r sigma n optionType exerciseType q e :
  binomialOptionPricing S K T r sigma n optionType exerciseType q = Throw e ->
  kind e = InvalidParameter \/ kind e = DegenerateTree \/
  kind e = ArbitrageViolation \/ kind e = RangeError.
Proof.
  unfold binomialOptionPricing.
  destruct (validateInputs _) as [[]|e'] eqn:Hv.
  - cbn [bind]. destruct (eqb _ _); [intros [= <-]; auto|].
    unfold riskNeutralProb. destruct (_ || _); cbn [bind];
      [intros [= <-]; auto|].
    destruct (gtb _ _); [intros [= <-]; auto|discriminate].
  - cbn [bind]. intros [= <-]. left.
    apply (validateInputs_error_kind _ _ Hv).
Qed.

Variables (marketPrice : float64) (p : params.t) (tol : float64).

(** An exhausted iteration cap returns the midpoint of the final
    interval. *)
Lemma bisection_exhausted iters :
  forall low high l h,
    narrowed marketPrice p tol iters low high = Some (l, h) ->
    bisection iters marketPrice p tol low high = Return (midpoint l h).
Proof.
  induction iters as [|iters IH]; intros low high l h Hn;
    cbn [narrowed bisection] in *.
  - injection Hn as <- <-. reflexivity.
  - fold (midpoint low high).
    destruct (price_at_vol p (midpoint low high)) as [pm|e]; [|discriminate].
    cbn [bind].
    destruct (leb (abs (sub pm marketPrice)) tol); [discriminate|].
    destruct (ltb pm marketPrice); apply IH; exact Hn.
Qed.

(** What a bisection returns or raises. *)
Lemma bisection_outcome iters :
  forall low high,
    match bisection iters marketPrice p tol low high with
    | Return v =>
        (exists l h, narrowed marketPrice p tol iters low high = Some (l, h) /\
                     v = midpoint l h) \/
        (exists j l h priceMid,
           (j < iters)%nat /\
           narrowed marketPrice p tol j low high = Some (l, h) /\
           v = midpoint l h /\
           price_at_vol p v = Return priceMid /\
           leb (abs (sub priceMid marketPrice)) tol = true)
    | Throw e =>
        exists j l h,
          (j < iters)%nat /\
          narrowed marketPrice p tol j low high = Some (l, h) /\
          price_at_vol p (midpoint l h) = Throw e
    end.
Proof.
  induction iters as [|iters IH]; intros low high.
  - left. exists low, high. split; reflexivity.
  - cbn [bisection]. fold (midpoint low high).
    destruct (price_at_vol p (midpoint low high)) as [pm|e] eqn:Hpm;
      cbn [bind].
    + destruct (leb (abs (sub pm marketPrice)) tol) eqn:Hw.
      * right. exists 0%nat, low, high, pm.
        repeat split; try assumption; try reflexivity. lia.
      * assert (Hstep : forall j,
                  narrowed marketPrice p tol (Datatypes.S j) low high
                  = if ltb pm marketPrice
                    then narrowed marketPrice p tol j (midpoint low high) high
                    else narrowed marketPrice p tol j low (midpoint low high))
          by (intros j; cbn [narrowed]; rewrite Hpm, Hw; reflexivity).
        destruct (ltb pm marketPrice) eqn:Hlt.
        -- specialize (IH (midpoint low high) high).
           destruct (bisection iters marketPrice p tol (midpoint low high) high).
           ++ destruct IH as [(l & h & Hn & ->)|(j & l & h & pm' & Hj & Hn & -> & Hp & Hw')].
              ** left. exists l, h. rewrite Hstep. auto.
              ** right. exists (Datatypes.S j), l, h, pm'. rewrite Hstep.
                 repeat split; try assumption. lia.
           ++ destruct IH as (j & l & h & Hj & Hn & Hp).
              exists (Datatypes.S j), l, h. rewrite Hstep.
              repeat split; try assumption. lia.
        -- specialize (IH low (midpoint low high)).
           destruct (bisection iters marketPrice p tol low (midpoint low high)).
           ++ destruct IH as [(l & h & Hn & ->)|(j & l & h & pm' & Hj & Hn & -> & Hp & Hw')].
              ** left. exists l, h. rewrite Hstep. auto.
              ** right. exists (Datatypes.S j), l, h, pm'. rewrite Hstep.
                 repeat split; try assumption. lia.
           ++ destruct IH as (j & l & h & Hj & Hn & Hp).
              exists (Datatypes.S j), l, h. rewrite Hstep.
              repeat split; try assumption. lia.
    + exists 0%nat, low, high. repeat split; try assumption. lia.
Qed.

End ImpliedVolatility.

(** C7, as stated, fails on the form's defaults: the target is positive,
    yet the solver raises neither NotBracketed nor returns a volatility;
    pricing at the low bound 1e-6 raises ArbitrageViolation, with a
    probability above 1000. *)
Lemma impliedVolatility_arbitrage_at_low_bound :
  gtb (dec 10 0) zero = true /\
  exists pbad,
    impliedVolatility (dec 10 0) reset_params default_volLow default_volHigh
      default_iv_tol default_maxIter = Throw (p_out_of_bounds pbad) /\
    gtb pbad (dec 1000 0) = true.
Proof.
  split; [reflexivity|]. eexists. split; vm_compute; reflexivity.
Qed.

(** C7, amended: the solver raises InvalidTarget exactly when the target is
    not positive, before any pricing call.  Otherwise it prices at the low
    and at the high bound and an error of either call is raised unchanged;
    when both return, it raises NotBracketed exactly when the target is not
    within [price(low), price(high)], and otherwise bisects: an error of
    the pricer at a midpoint is raised unchanged, a midpoint whose price is
    within the tolerance is returned, and an exhausted iteration cap
    returns the midpoint of the final interval. *)
Theorem impliedVolatility_outcomes {libm : Libm}
    marketPrice p volLow volHigh tol maxIter :
  let result := impliedVolatility marketPrice p volLow volHigh tol maxIter in
  (gtb marketPrice zero = false <-> result = Throw market_price_not_positive) /\
  (gtb marketPrice zero = true ->
   (forall e, price_at_vol p volLow = Throw e -> result = Throw e) /\
   (forall priceLow e,
      price_at_vol p volLow = Return priceLow ->
      price_at_vol p volHigh = Throw e -> result = Throw e) /\
   (forall priceLow priceHigh,
      price_at_vol p volLow = Return priceLow ->
      price_at_vol p volHigh = Return priceHigh ->
      (leb priceLow marketPrice && leb marketPrice priceHigh = false <->
       result = Throw not_bracketed) /\
      (leb priceLow marketPrice && leb marketPrice priceHigh = true ->
       (forall l h,
          narrowed marketPrice p tol maxIter volLow volHigh = Some (l, h) ->
          result = Return (midpoint l h)) /\
       (forall v, result = Return v ->
          (exists l h,
             narrowed marketPrice p tol maxIter volLow volHigh = Some (l, h) /\
             v = midpoint l h) \/
          (exists j l h priceMid,
             (j < maxIter)%nat /\
             narrowed marketPrice p tol j volLow volHigh = Some (l, h) /\
             v = midpoint l h /\
             price_at_vol p v = Return priceMid /\
             leb (abs (sub priceMid marketPrice)) tol = true)) /\
       (forall e, result = Throw e ->
          exists j l h,
            (j < maxIter)%nat /\
            narrowed marketPrice p tol j volLow volHigh = Some (l, h) /\
            price_at_vol p (midpoint l h) = Throw e)))).
Proof.
  intros result. unfold result, impliedVolatility.
  destruct (gtb marketPrice zero) eqn:Hpos; cbn [negb].
  - split.
    { split; [discriminate|]. intros H.
      destruct (price_at_vol p volLow) as [pl|e] eqn:Hl; cbn [bind] in H.
      - destruct (price_at_vol p volHigh) as [ph|e] eqn:Hh; cbn [bind] in H.
        + destruct (leb pl marketPrice && leb marketPrice ph);
            cbn [negb] in H; [|discriminate].
          pose proof (bisection_outcome marketPrice p tol maxIter volLow
                        volHigh) as Hb.
          rewrite H in Hb. destruct Hb as (j & l & h & _ & _ & Hp).
          apply binomialOptionPricing_error_kind in Hp.
          destruct Hp as [Hp|[Hp|[Hp|Hp]]]; discriminate.
        + injection H as ->.
          apply binomialOptionPricing_error_kind in Hh.
          destruct Hh as [Hp|[Hp|[Hp|Hp]]]; discriminate.
      - injection H as ->.
        apply binomialOptionPricing_error_kind in Hl.
        destruct Hl as [Hp|[Hp|[Hp|Hp]]]; discriminate. }
    intros _. split; [|split].
    + intros e ->. reflexivity.
    + intros pl e -> ->. reflexivity.
    + intros pl ph -> ->. cbn [bind].
      destruct (leb pl marketPrice && leb marketPrice ph); cbn [negb].
      * split.
        { split; [discriminate|]. intros H.
          pose proof (bisection_outcome marketPrice p tol maxIter volLow
                        volHigh) as Hb.
          rewrite H in Hb. destruct Hb as (j & l & h & _ & _ & Hp).
          apply binomialOptionPricing_error_kind in Hp.
          destruct Hp as [Hp|[Hp|[Hp|Hp]]]; discriminate. }
        intros _. split; [|split].
        -- apply bisection_exhausted.
        -- intros v Hv.
           pose proof (bisection_outcome marketPrice p tol maxIter volLow
                         volHigh) as Hb.
           rewrite Hv in Hb. exact Hb.
        -- intros e He.
           pose proof (bisection_outcome marketPrice p tol maxIter volLow
                         volHigh) as Hb.
           rewrite He in Hb. exact Hb.
      * split; [split; reflexivity|discriminate].
  - split; [split; reflexivity|discriminate].
Qed.

Lemma impliedVolatility_outcomes_witness :
  gtb (dec 10 0) zero = true /\
  exists l h,
    narrowed (dec 10 0) balanced_params default_iv_tol 3 default_volLow
      default_volHigh = Some (l, h) /\
    impliedVolatility (dec 10 0) balanced_params default_volLow
      default_volHigh default_iv_tol 3 = Return (midpoint l h).
Proof.
  split; [reflexivity|].
  eexists. eexists. split; [vm_compute; reflexivity|].
  destruct (impliedVolatility_outcomes (libm := reference_libm) (dec 10 0)
              balanced_params default_volLow default_volHigh default_iv_tol 3)
    as [_ Hrun].
  destruct (Hrun eq_refl) as (_ & _ & Hboth).
  destruct (Hboth _ _ ltac:(vm_compute; reflexivity)
              ltac:(vm_compute; reflexivity)) as [_ Hin].
  destruct (Hin ltac:(vm_compute; reflexivity)) as [Hcap _].
  apply Hcap. vm_compute. reflexivity.
Defined.

(** *** The round trip through the solver *)

(** On the form's defaults the solver, with its default bounds, raises for
    every positive target: the price at the low bound 1e-6 does not exist,
    the risk-neutral probability there being above 1000. *)
Lemma impliedVolatility_defaults_raise marketPrice :
  gtb marketPrice zero = true ->
  exists pbad,
    impliedVolatility marketPrice reset_params default_volLow default_volHigh
      default_iv_tol default_maxIter = Throw (p_out_of_bounds pbad) /\
    gtb pbad (dec 1000 0) = true.
Proof.
  intros Hpos.
  assert (Hlow : exists pbad,
             price_at_vol reset_params default_volLow
             = Throw (p_out_of_bounds pbad) /\
             gtb pbad (dec 1000 0) = true)
    by (eexists; split; vm_compute; reflexivity).
  destruct Hlow as (pbad & Hlow & Hbig). exists pbad. split; [|exact Hbig].
  unfold impliedVolatility. rewrite Hpos, Hlow. reflexivity.
Qed.

(** C8 fails on the code: the price of the three-step tree at the
    volatility 0.2, which lies inside (1e-6, 5), is fed back to the solver
    with the same parameters and the default bounds; the solver raises
    ArbitrageViolation at the low bound instead of recovering 0.2. *)
Lemma implied_volatility_round_trip_raises :
  ltb default_volLow (dec 2 (-1)) && ltb (dec 2 (-1)) default_volHigh = true /\
  exists target pbad,
    price_at_vol three_step_params (dec 2 (-1)) = Return target /\
    impliedVolatility target three_step_params default_volLow default_volHigh
      default_iv_tol default_maxIter = Throw (p_out_of_bounds pbad) /\
    gtb pbad one = true.
Proof.
  split; [reflexivity|]. eexists. eexists.
  split; [vm_compute; reflexivity|].
  split; vm_compute; reflexivity.
Qed.

(** *** The Greeks *)

Section Greeks.

Context {libm : Libm}.

(** C9: when the five pricing calls return, [greeks] returns the base
    price and the central differences: delta over [2 dS], gamma over
    [dS^2], theta over [2 dT] with the lower expiry floored at 1e-8; the
    steps default to [max(0.01 S, 1e-4)] and [max(1e-4, 0.001 T)]; every
    call uses the [n], strike, rate, volatility, dividend yield, kind and
    style of the parameters. *)
Theorem greeks_formulas p dS dT base up down upT downT :
  let stepS :=
    match dS with
    | Some s => s
    | None => max (mul (dec 1 (-2)) (params.S p)) (dec 1 (-4))
    end in
  let stepT :=
    match dT with
    | Some s => s
    | None => max (dec 1 (-4)) (mul (dec 1 (-3)) (params.T p))
    end in
  binomialOptionPricing (params.S p) (params.K p) (params.T p) (params.r p)
    (params.sigma p) (params.n p) (params.option_type p)
    (params.exercise_type p) (params.q p) = Return base ->
  binomialOptionPricing (add (params.S p) stepS) (params.K p) (params.T p)
    (params.r p) (params.sigma p) (params.n p) (params.option_type p)
    (params.exercise_type p) (params.q p) = Return up ->
  binomialOptionPricing (sub (params.S p) stepS) (params.K p) (params.T p)
    (params.r p) (params.sigma p) (params.n p) (params.option_type p)
    (params.exercise_type p) (params.q p) = Return down ->
  binomialOptionPricing (params.S p) (params.K p) (add (params.T p) stepT)
    (params.r p) (params.sigma p) (params.n p) (params.option_type p)
    (params.exercise_type p) (params.q p) = Return upT ->
  binomialOptionPricing (params.S p) (params.K p)
    (max (sub (params.T p) stepT) (dec 1 (-8)))
    (params.r p) (params.sigma p) (params.n p) (params.option_type p)
    (params.exercise_type p) (params.q p) = Return downT ->
  greeks p dS dT
  = Return {| greeks_price := base;
              delta := div (sub up down) (mul (dec 2 0) stepS);
              gamma := div (add (sub up (mul (dec 2 0) base)) down)
                           (Math_pow stepS (dec 2 0));
              theta := div (sub upT downT) (mul (dec 2 0) stepT) |}.
Proof.
  intros stepS stepT Hbase Hup Hdown HupT HdownT.
  unfold greeks, price_at_S_T.
  fold (spot_step p dS). fold (time_step p dT).
  change (spot_step p dS) with stepS. change (time_step p dT) with stepT.
  rewrite Hbase, Hup, Hdown, HupT, HdownT. reflexivity.
Qed.

(** The tests of the pricer do not look at the underlying price, beyond
    its sign. *)
Lemma binomialOptionPricing_other_spot
    S S' K T r sigma n optionType exerciseType q v :
  binomialOptionPricing S K T r sigma n optionType exerciseType q = Return v ->
  gtb S' zero = true ->
  exists v',
    binomialOptionPricing S' K T r sigma n optionType exerciseType q
    = Return v'.
Proof.
  intros Hr HS'.
  pose proof (binomialOptionPricing_returns_length _ _ _ _ _ _ _ _ _ _ Hr)
    as Hlen.
  destruct (binomialOptionPricing_returns _ _ _ _ _ _ _ _ _ _ Hr)
    as (Hv & Hud & Hout & _).
  assert (Hv' : validateInputs
                  (params.make S' K T r sigma q n optionType exerciseType)
                = Return tt).
  { destruct (validateInputs_accepts _ Hv)
      as (_ & HK & HT & Hn & Hi & Hs & Hq & Ho & He).
    cbn [params.S params.K params.T params.n params.sigma params.q
         params.option_type params.exercise_type] in *.
    unfold validateInputs.
    cbn [params.S params.K params.T params.n params.sigma params.q
         params.option_type params.exercise_type].
    rewrite HS', HK, HT, Hn, Hi, Hs, Hq, Ho, He. reflexivity. }
  rewrite (binomialOptionPricing_valid _ _ _ _ _ _ _ _ _ Hv').
  cbv zeta. rewrite Hud, Hout, Hlen. eauto.
Qed.

Lemma binomialOptionPricing_spot_not_positive
    S K T r sigma n optionType exerciseType q :
  gtb S zero = false ->
  binomialOptionPricing S K T r sigma n optionType exerciseType q
  = Throw S_K_not_positive.
Proof.
  intros HS. unfold binomialOptionPricing, validateInputs.
  cbn [params.S]. rewrite HS. reflexivity.
Qed.

(** Below 1e-4 the default spot step is 1e-4. *)
Lemma spot_step_small p :
  gtb (params.S p) zero = true -> leb (params.S p) (dec 1 (-4)) = true ->
  spot_step p None = dec 1 (-4).
Proof.
  intros Hpos Hle. unfold spot_step.
  apply F64_facts.max_lt.
  apply F64_facts.leb_ltb_trans with (mul (dec 1 (-2)) (dec 1 (-4)));
    [|vm_compute; reflexivity].
  assert (Ff : finite (params.S p) = true)
    by (apply (F64_facts.bounded_finite _ _ Hpos Hle); vm_compute;
        reflexivity).
  apply F64_facts.mul_finite_mono; try assumption.
  - vm_compute; reflexivity.
  - vm_compute; reflexivity.
  - vm_compute; discriminate.
  - rewrite F64_facts.leb_finite in Hle by (assumption || vm_compute; reflexivity).
    apply Z.leb_le. exact Hle.
Qed.

(** C10: for an underlying price in (0, 1e-4] and no override of the spot
    step, the default step is 1e-4, the downward bump [S - dS] is not
    positive, and [greeks] never returns; when the parameters are valid for
    the pricer, the first two pricing calls return and the third raises
    the InvalidParameter error of the S/K positivity rule, which [greeks]
    raises in turn. *)
Theorem greeks_small_spot_raises p dT :
  gtb (params.S p) zero = true ->
  leb (params.S p) (dec 1 (-4)) = true ->
  spot_step p None = dec 1 (-4) /\
  gtb (sub (params.S p) (spot_step p None)) zero = false /\
  (forall res, greeks p None dT <> Return res) /\
  (forall base,
     price_at_S_T p (params.S p) (params.T p) = Return base ->
     (exists up,
        price_at_S_T p (add (params.S p) (spot_step p None)) (params.T p)
        = Return up) /\
     price_at_S_T p (sub (params.S p) (spot_step p None)) (params.T p)
     = Throw S_K_not_positive /\
     kind S_K_not_positive = InvalidParameter /\
     greeks p None dT = Throw S_K_not_positive).
Proof.
  intros Hpos Hle.
  pose proof (spot_step_small p Hpos Hle) as Hstep.
  assert (Hdown : gtb (sub (params.S p) (spot_step p None)) zero = false)
    by (rewrite Hstep; apply F64_facts.sub_nonpos; exact Hle).
  assert (Hthird :
            price_at_S_T p (sub (params.S p) (spot_step p None)) (params.T p)
            = Throw S_K_not_positive)
    by (apply binomialOptionPricing_spot_not_positive; exact Hdown).
  split; [exact Hstep|]. split; [exact Hdown|]. split.
  - intros res. unfold greeks. rewrite Hthird.
    destruct (price_at_S_T p (params.S p) (params.T p)); [|discriminate].
    cbn [bind].
    destruct (price_at_S_T p (add (params.S p) (spot_step p None))
                (params.T p)); discriminate.
  - intros base Hbase.
    assert (Hup : exists up,
               price_at_S_T p (add (params.S p) (spot_step p None))
                 (params.T p) = Return up).
    { apply (binomialOptionPricing_other_spot _ _ _ _ _ _ _ _ _ _ _ Hbase).
      rewrite Hstep. apply F64_facts.add_pos; [exact Hpos|reflexivity]. }
    split; [exact Hup|]. split; [exact Hthird|]. split; [reflexivity|].
    destruct Hup as [up Hup]. unfold greeks.
    rewrite Hbase, Hup, Hthird. reflexivity.
Qed.

End Greeks.

Lemma greeks_formulas_witness :
  exists base up down upT downT,
    greeks balanced_params None None
    = Return {| greeks_price := base;
                delta := div (sub up down)
                             (mul (dec 2 0) (spot_step balanced_params None));
                gamma := div (add (sub up (mul (dec 2 0) base)) down)
                             (Math_pow (spot_step balanced_params None)
                                       (dec 2 0));
                theta := div (sub upT downT)
                             (mul (dec 2 0) (time_step balanced_params None)) |}.
Proof.
  eexists. eexists. eexists. eexists. eexists.
  apply (greeks_formulas (libm := reference_libm) balanced_params None None);
    vm_compute; reflexivity.
Defined.

Lemma greeks_small_spot_raises_witness :
  gtb (params.S small_spot_params) zero = true /\
  leb (params.S small_spot_params) (dec 1 (-4)) = true /\
  greeks small_spot_params None None = Throw S_K_not_positive.
Proof.
  assert (Hpos : gtb (params.S small_spot_params) zero = true)
    by (vm_compute; reflexivity).
  assert (Hle : leb (params.S small_spot_params) (dec 1 (-4)) = true)
    by (vm_compute; reflexivity).
  split; [exact Hpos|]. split; [exact Hle|].
  destruct (greeks_small_spot_raises (libm := reference_libm)
              small_spot_params None Hpos Hle) as (_ & _ & _ & Hthrow).
  destruct (Hthrow _ ltac:(vm_compute; reflexivity)) as (_ & _ & _ & Hg).
  exact Hg.
Defined.

(** ** Part V.  Further properties of the pricer *)

Lemma ordered_zero_cases x :
  isNaN x = true \/ leb zero x = true -> ordered zero x = true.
Proof.
  unfold ordered. intros [->| ->]; [reflexivity|apply orb_true_r].
Qed.

Section PriceSign.

Context {libm : Libm}.

Variables (k : option_kind) (st : exercise_style)
  (S K discount u d p : float64).

Hypothesis Hdiscount : ordered zero discount = true.
Hypothesis Hp : ordered zero p = true.
Hypothesis Hq : ordered zero (sub one p) = true.

Lemma crr_payoff_not_negative price :
  ordered zero (crr_payoff k K price) = true.
Proof. destruct k; apply F64_exact.max_zero_not_negative. Qed.

Lemma crr_layer_not_negative i next :
  layer_not_negative next ->
  layer_not_negative (crr_layer k st S K discount u d p i next).
Proof.
  intros H j. rewrite nth_crr_layer.
  destruct (j <? i + 1)%nat; [|reflexivity].
  assert (Hc : ordered zero
                 (mul discount
                    (add (mul p (nth (j + 1) next NaN))
                         (mul (sub one p) (nth j next NaN)))) = true).
  { apply F64_exact.mul_not_negative; [exact Hdiscount|].
    apply F64_exact.add_not_negative;
      apply F64_exact.mul_not_negative; auto. }
  unfold crr_node. destruct st; [exact Hc|].
  apply F64_facts.max_ordered. exact Hc.
Qed.

Lemma crr_induction_not_negative i layer :
  layer_not_negative layer ->
  layer_not_negative (crr_induction k st S K discount u d p i layer).
Proof.
  revert layer. induction i as [|i IH]; intros layer H; [exact H|].
  cbn [crr_induction]. apply IH. apply crr_layer_not_negative. exact H.
Qed.

Lemma crr_terminal_not_negative n steps :
  layer_not_negative (crr_terminal k S K u d n steps).
Proof.
  intros j. unfold crr_terminal.
  destruct (Nat.ltb_spec j (steps + 1)) as [Hlt|Hge].
  - rewrite nth_indep
      with (d' := crr_payoff k K (crr_asset_price S u d n 0%nat))
      by (rewrite length_map, length_seq; lia).
    rewrite (map_nth (fun j => crr_payoff k K (crr_asset_price S u d n j))).
    apply crr_payoff_not_negative.
  - rewrite nth_overflow by (rewrite length_map, length_seq; lia).
    reflexivity.
Qed.

End PriceSign.

(** X1: a price that the pricer returns is never negative: it is NaN or
    at least zero, for every [Math.exp] that returns no negative number. *)
Theorem price_not_negative {libm : Libm}
    S K T r sigma n optionType exerciseType q v :
  (forall x, ltb (Math_exp x) zero = false) ->
  binomialOptionPricing S K T r sigma n optionType exerciseType q = Return v ->
  isNaN v = false -> leb zero v = true.
Proof.
  intros Hexp Hv Nv.
  destruct (binomialOptionPricing_returns _ _ _ _ _ _ _ _ _ _ Hv)
    as (_ & _ & Hout & k & st & _ & _ & ->).
  apply F64_facts.ordered_leb; [reflexivity|exact Nv|].
  unfold crr_value. apply crr_induction_not_negative.
  - apply ordered_zero_cases, F64_facts.not_negative, Hexp.
  - apply orb_false_elim in Hout as [H0 _].
    apply ordered_zero_cases, F64_facts.not_negative, H0.
  - apply orb_false_elim in Hout as [_ H1].
    apply ordered_zero_cases, F64_facts.one_minus_nonneg, H1.
  - apply crr_terminal_not_negative.
Qed.

Lemma price_not_negative_witness :
  exists v,
    binomialOptionPricing (dec 100 0) (dec 100 0) (dec 1 0) (dec 5 (-2))
      (dec 2 (-1)) (dec 3 0) "put" "american" (dec 2 (-2)) = Return v /\
    isNaN v = false /\ leb zero v = true.
Proof.
  eexists. split; [vm_compute; reflexivity|]. split; [reflexivity|].
  apply (price_not_negative (libm := reference_libm)
           (dec 100 0) (dec 100 0) (dec 1 0) (dec 5 (-2)) (dec 2 (-1))
           (dec 3 0) "put" "american" (dec 2 (-2))).
  - exact F64_facts.exp64_not_negative.
  - vm_compute; reflexivity.
  - reflexivity.
Defined.

(** *** The degenerate tree *)

(** X2: past the validator, and for every [Math.exp] that returns no
    negative number, the pricer raises DegenerateTree exactly when the up
    factor is exactly 1. *)
Theorem degenerate_iff_unit_factor {libm : Libm}
    S K T r sigma n optionType exerciseType q :
  (forall x, ltb (Math_exp x) zero = false) ->
  validateInputs (params.make S K T r sigma q n optionType exerciseType)
    = Return tt ->
  (binomialOptionPricing S K T r sigma n optionType exerciseType q
   = Throw u_d_equal
   <-> up_factor sigma (div T n) = one).
Proof.
  intros Hexp Hv.
  rewrite (binomialOptionPricing_valid _ _ _ _ _ _ _ _ _ Hv). cbv zeta.
  set (u := up_factor sigma (div T n)).
  rewrite F64_exact.eqb_reciprocal.
  assert (Hu : ltb u zero = false).
  { unfold u, up_factor. destruct (gtb sigma zero); [apply Hexp|reflexivity]. }
  assert (Habs : eqb (abs u) one = true <-> u = one).
  { pose proof F64_exact.unit_scale_pos as HU.
    unfold one, zero in *.
    destruct u as [|su| |ku]; cbn [abs eqb ltb toZ] in *;
      try (split; [intros E; apply Z.eqb_eq in E; lia|discriminate]);
      try (split; discriminate).
    apply Z.ltb_ge in Hu. split.
    - intros E. apply Z.eqb_eq in E. f_equal. lia.
    - intros [= ->]. apply Z.eqb_eq. lia. }
  destruct (eqb (abs u) one) eqn:E.
  - split; [intros _; apply Habs; reflexivity|reflexivity].
  - split.
    + destruct (outside_unit _); [discriminate|].
      destruct (gtb _ _); discriminate.
    + intros H. apply Habs in H. discriminate.
Qed.

Lemma degenerate_iff_unit_factor_witness :
  validateInputs three_step_params = Return tt /\
  (binomialOptionPricing (dec 100 0) (dec 100 0) (dec 1 0) (dec 5 (-2))
     (dec 2 (-1)) (dec 3 0) "call" "european" (dec 2 (-2))
   = Throw u_d_equal
   <-> up_factor (dec 2 (-1)) (div (dec 1 0) (dec 3 0)) = one).
Proof.
  assert (Hv : validateInputs three_step_params = Return tt)
    by (vm_compute; reflexivity).
  split; [exact Hv|].
  exact (degenerate_iff_unit_factor (libm := reference_libm)
           _ _ _ _ _ _ _ _ _ F64_facts.exp64_not_negative Hv).
Defined.

(** *** Immediate exercise at the root *)

Lemma to_nat_positive n :
  gtb n zero = true -> isInteger n = true -> (0 < to_nat n)%nat.
Proof.
  unfold gtb, zero, to_nat.
  destruct n as [|s| |k]; cbn [ltb isInteger toZ]; try discriminate.
  intros Hk Hi. apply Z.ltb_lt in Hk. apply Z.eqb_eq in Hi.
  assert (0 < Z.shiftr k 1074); [|lia].
  destruct (Z.eq_dec (Z.shiftr k 1074) 0) as [E|E].
  - rewrite E, Z.shiftl_0_l in Hi. lia.
  - pose proof (Z.shiftr_nonneg k 1074). lia.
Qed.

Lemma mul_one_positive x :
  gtb x zero = true -> representable x -> mul x one = x.
Proof.
  intros Hx Rx.
  destruct x as [|s| |k]; try discriminate.
  - destruct s; [discriminate|reflexivity].
  - pose proof (F64_exact.mul_one_r (Fin k) eq_refl Rx) as H.
    unfold gtb, zero in Hx. cbn [ltb toZ] in Hx. apply Z.ltb_lt in Hx.
    cbn [unsigned_zero] in H.
    destruct (mul (Fin k) one) as [| | |k'] eqn:E; cbn [unsigned_zero] in H;
      try discriminate; try exact H.
    injection H as <-. lia.
Qed.

Section Root.

Context {libm : Libm}.

Variables (k : option_kind) (st : exercise_style)
  (S K discount u d p : float64).

Lemma crr_induction_root m layer :
  exists next,
    crr_induction k st S K discount u d p (Datatypes.S m) layer
    = crr_layer k st S K discount u d p 0 next.
Proof.
  revert layer. induction m as [|m IH]; intros layer.
  - exists layer. reflexivity.
  - destruct (IH (crr_layer k st S K discount u d p (Datatypes.S m) layer))
      as [next E].
    exists next. exact E.
Qed.

End Root.

(** X3: when [x ** 0] is 1 for every [x], as ECMAScript requires, an
    American price that is returned and is a number is at least the payoff
    of exercising at once at the spot [S]. *)
Theorem american_at_least_intrinsic {libm : Libm}
    S K T r sigma n optionType q v :
  (forall x, Math_pow x zero = one) ->
  representable S ->
  binomialOptionPricing S K T r sigma n optionType "american" q = Return v ->
  isNaN v = false ->
  leb (payoff optionType K S) v = true.
Proof.
  intros Hpow RS Hv Nv.
  destruct (binomialOptionPricing_returns _ _ _ _ _ _ _ _ _ _ Hv)
    as (Hval & _ & _ & k & st & Hk & Hst & ->).
  destruct (validateInputs_accepts _ Hval)
    as (HS & _ & _ & Hn & Hi & _). cbn [params.S params.n] in HS, Hn, Hi.
  assert (st = American) as -> by (vm_compute in Hst; congruence).
  rewrite (payoff_crr K optionType k S Hk).
  unfold crr_value in *.
  pose proof (to_nat_positive n Hn Hi) as Hpos.
  destruct (to_nat n) as [|m]; [lia|].
  set (term := crr_terminal _ _ _ _ _ _ _) in *.
  destruct (crr_induction_root k American S K
              (Math_exp (mul (neg r) (div T n)))
              (up_factor sigma (div T n))
              (div one (up_factor sigma (div T n)))
              (risk_neutral_p (up_factor sigma (div T n))
                 (div one (up_factor sigma (div T n))) r q (div T n))
              m term) as [next E].
  rewrite E in *. rewrite nth_crr_layer in *.
  change (0 <? 0 + 1)%nat with true in *. cbv iota in *.
  unfold crr_node in *. cbv zeta in *.
  assert (Hprice : crr_asset_price S (up_factor sigma (div T n))
                     (div one (up_factor sigma (div T n))) (of_nat 0) 0 = S).
  { unfold crr_asset_price.
    replace (of_nat 0) with zero by (vm_compute; reflexivity).
    replace (sub zero zero) with zero by (vm_compute; reflexivity).
    rewrite !Hpow. rewrite !(mul_one_positive S) by assumption.
    reflexivity. }
  rewrite Hprice in *.
  set (c := mul _ _) in *.
  destruct (isNaN c) eqn:Nc; [destruct c; discriminate|].
  destruct (isNaN (crr_payoff k K S)) eqn:Ne;
    [destruct (crr_payoff k K S); try discriminate;
     rewrite F64_facts.max_nan_r in Nv; discriminate|].
  apply F64_facts.max_ge; assumption.
Qed.

Lemma american_at_least_intrinsic_witness :
  exists v,
    binomialOptionPricing (dec 100 0) (dec 100 0) (dec 1 0) (dec 5 (-2))
      (dec 2 (-1)) (dec 3 0) "put" "american" (dec 2 (-2)) = Return v /\
    leb (payoff "put" (dec 100 0) (dec 100 0)) v = true.
Proof.
  eexists. split; [vm_compute; reflexivity|].
  apply (american_at_least_intrinsic (libm := reference_libm)
           (dec 100 0) (dec 100 0) (dec 1 0) (dec 5 (-2)) (dec 2 (-1))
           (dec 3 0) "put" (dec 2 (-2))).
  - intros x. reflexivity.
  - vm_compute. split; reflexivity.
  - vm_compute; reflexivity.
  - reflexivity.
Defined.

(** ** Part VI.  Further properties of the convergence driver *)

Section ConvergenceTermination.

Context {libm : Libm}.

Variables (p : params.t) (nStart nMax tol step : float64).

(** When the step count [d] turns ahead is past [nMax], [d] turns of the
    loop are enough, and more turns change nothing. *)
Lemma convergence_loop_enough d :
  forall i prev trail,
    leb (n_seq nStart step (i + d)) nMax = false ->
    exists r, forall fuel, (d <= fuel)%nat ->
      convergence_loop fuel p nMax tol step (n_seq nStart step i) prev trail
      = Some r.
Proof.
  induction d as [|d IH]; intros i prev trail Hcap.
  - rewrite Nat.add_0_r in Hcap. eexists. intros fuel _.
    apply convergence_loop_cap. exact Hcap.
  - destruct (leb (n_seq nStart step i) nMax) eqn:Hle;
      [|eexists; intros fuel _; apply convergence_loop_cap; exact Hle].
    destruct (price_at p (n_seq nStart step i)) as [curr|e] eqn:Hprice.
    + destruct (leb (abs (sub curr prev)) tol) eqn:Htol.
      * eexists. intros [|fuel] Hf; [lia|].
        cbn [convergence_loop]. rewrite Hle, Hprice, Htol. reflexivity.
      * destruct (IH (Datatypes.S i) curr
                    (trail ++ [ {| entry_n := n_seq nStart step i;
                                   entry_price := curr |} ]))
          as [r Hr].
        { replace (Datatypes.S i + d)%nat with (i + Datatypes.S d)%nat by lia.
          exact Hcap. }
        exists r. intros [|fuel] Hf; [lia|].
        cbn [convergence_loop]. rewrite Hle, Hprice, Htol.
        apply Hr. lia.
    + eexists. intros [|fuel] Hf; [lia|].
      cbn [convergence_loop]. rewrite Hle, Hprice. reflexivity.
Qed.

(** The loop appends only entries at step counts within [nMax], and the
    step count it reports is within [nMax] or [nMax] itself. *)
Lemma convergence_loop_within_cap fuel :
  forall n prev trail res,
    convergence_loop fuel p nMax tol step n prev trail = Some (Return res) ->
    (conv_n res = nMax \/ leb (conv_n res) nMax = true) /\
    exists rest,
      conv_trail res = trail ++ rest /\
      Forall (fun e => leb (entry_n e) nMax = true) rest.
Proof.
  induction fuel as [|fuel IH]; intros n prev trail res Hloop;
    cbn [convergence_loop] in Hloop;
    (destruct (leb n nMax) eqn:Hle;
     [|injection Hloop as <-; cbn [conv_n conv_trail];
       split; [left; reflexivity|];
       exists []; rewrite app_nil_r; split; [reflexivity|constructor]]);
    [discriminate|].
  destruct (price_at p n) as [curr|e]; [|discriminate].
  destruct (leb (abs (sub curr prev)) tol).
  - injection Hloop as <-. cbn [conv_n conv_trail].
    split; [right; exact Hle|].
    eexists. split; [reflexivity|].
    constructor; [exact Hle|constructor].
  - apply IH in Hloop as (Hn & rest & -> & Hrest).
    split; [exact Hn|].
    exists ({| entry_n := n; entry_price := curr |} :: rest).
    rewrite <- app_assoc. split; [reflexivity|].
    constructor; [exact Hle|exact Hrest].
Qed.

End ConvergenceTermination.

Lemma abs_above_negative x tol : leb zero tol = false -> leb (abs x) tol = false.
Proof.
  unfold zero.
  destruct x as [|sx| |kx], tol as [|st| |kt]; cbn [abs leb toZ negb];
    try reflexivity; try discriminate; intros H;
    try (destruct st; first [reflexivity|discriminate]);
    apply Z.leb_gt in H; apply Z.leb_gt; lia.
Qed.

(** X4: when the step count [k + 1] steps past [nStart] is not within
    [nMax], the driver ends within [k] turns of its loop, that is, after at
    most [k + 1] calls of the pricer, and its result is the same however
    many more turns are allowed.  With the default knobs (50, 2000, 50) this
    holds for [k = 39]. *)
Theorem priceWithConvergence_terminates {libm : Libm}
    p nStart nMax tol step k :
  leb (n_seq nStart step (k + 1)) nMax = false ->
  exists r, forall fuel, (k <= fuel)%nat ->
    priceWithConvergence fuel p nStart nMax tol step = Some r.
Proof.
  intros Hcap. unfold priceWithConvergence.
  destruct (price_at p nStart) as [prev|e]; [|eexists; reflexivity].
  destruct (convergence_loop_enough p nStart nMax tol step k 1 prev
              [ {| entry_n := nStart; entry_price := prev |} ]) as [r Hr].
  { rewrite Nat.add_comm. exact Hcap. }
  exists r. exact Hr.
Qed.

Lemma priceWithConvergence_terminates_witness :
  leb (n_seq default_nStart default_step 40) default_nMax = false /\
  exists r, forall fuel, (39 <= fuel)%nat ->
    priceWithConvergence fuel reset_params default_nStart default_nMax
      default_conv_tol default_step = Some r.
Proof.
  assert (H : leb (n_seq default_nStart default_step (39 + 1)) default_nMax
              = false) by (vm_compute; reflexivity).
  split; [exact H|].
  exact (priceWithConvergence_terminates (libm := reference_libm)
           reset_params default_nStart default_nMax default_conv_tol
           default_step 39 H).
Defined.

(** X5: the loop need not end.  When adding [step] leaves [nStart]
    unchanged (a zero step, or one too small to count at that magnitude),
    [nStart] is within [nMax], the pricer returns there, and the tolerance
    is negative or NaN, no number of turns is enough. *)
Theorem priceWithConvergence_diverges {libm : Libm}
    p nStart nMax tol step v :
  add nStart step = nStart ->
  leb nStart nMax = true ->
  price_at p nStart = Return v ->
  leb zero tol = false ->
  forall fuel, priceWithConvergence fuel p nStart nMax tol step = None.
Proof.
  intros Hadd Hle Hprice Htol fuel.
  unfold priceWithConvergence. rewrite Hprice, Hadd.
  generalize [ {| entry_n := nStart; entry_price := v |} ] as trail.
  induction fuel as [|fuel IH]; intros trail; cbn [convergence_loop];
    rewrite Hle; [reflexivity|].
  rewrite Hprice, abs_above_negative by exact Htol.
  rewrite Hadd. apply IH.
Qed.

Lemma priceWithConvergence_diverges_witness :
  priceWithConvergence 1000 three_step_params (dec 3 0) (dec 2000 0)
    (dec (-1) 0) zero = None.
Proof.
  apply (priceWithConvergence_diverges (libm := reference_libm)
           three_step_params (dec 3 0) (dec 2000 0) (dec (-1) 0) zero
           (dec 9855621450465284 (-15))).
  - vm_compute; reflexivity.
  - vm_compute; reflexivity.
  - vm_compute; reflexivity.
  - vm_compute; reflexivity.
Defined.

(** X6: when [nMax] is a number, the step count that the driver reports is
    never above [nMax], and every entry of the trail after the first is at
    a step count within [nMax]; only the first call, at [nStart], is not
    held to the cap. *)
Theorem priceWithConvergence_within_cap {libm : Libm}
    fuel p nStart nMax tol step res :
  isNaN nMax = false ->
  priceWithConvergence fuel p nStart nMax tol step = Some (Return res) ->
  leb (conv_n res) nMax = true /\
  exists first rest,
    conv_trail res = first :: rest /\
    entry_n first = nStart /\
    Forall (fun e => leb (entry_n e) nMax = true) rest.
Proof.
  intros Nn. unfold priceWithConvergence.
  destruct (price_at p nStart) as [prev|e]; [|discriminate].
  intros Hloop.
  apply convergence_loop_within_cap in Hloop as (Hn & rest & Ht & Hrest).
  split.
  - destruct Hn as [-> | Hn]; [|exact Hn].
    apply F64_facts.leb_refl. exact Nn.
  - exists {| entry_n := nStart; entry_price := prev |}, rest.
    split; [exact Ht|]. split; [reflexivity|exact Hrest].
Qed.

Lemma priceWithConvergence_within_cap_witness :
  exists res,
    priceWithConvergence 2 three_step_params (dec 1 0) (dec 3 0) (dec 1 (-4))
      (dec 1 0) = Some (Return res) /\
    leb (conv_n res) (dec 3 0) = true.
Proof.
  eexists. split; [vm_compute; reflexivity|].
  apply (priceWithConvergence_within_cap (libm := reference_libm) 2
           three_step_params (dec 1 0) (dec 3 0) (dec 1 (-4)) (dec 1 0)).
  - reflexivity.
  - vm_compute; reflexivity.
Defined.

(** ** Part VII.  Further properties of the implied-volatility solver *)

Section Bracket.

Context {libm : Libm}.

Variables (marketPrice : float64) (p : params.t) (tol : float64).

Lemma bisection_unfold iters low high :
  bisection iters marketPrice p tol low high
  = match iters with
    | O => Return (midpoint low high)
    | Datatypes.S iters' =>
        priceMid <- price_at_vol p (midpoint low high) ;;
        if leb (abs (sub priceMid marketPrice)) tol
        then Return (midpoint low high)
        else if ltb priceMid marketPrice
             then bisection iters' marketPrice p tol (midpoint low high) high
             else bisection iters' marketPrice p tol low (midpoint low high)
    end.
Proof. destruct iters; reflexivity. Qed.

(** The bisection never leaves its bracket. *)
Lemma bisection_within iters :
  forall low high v,
    representable low -> representable high ->
    within_half_range low = true -> within_half_range high = true ->
    leb low high = true ->
    bisection iters marketPrice p tol low high = Return v ->
    leb low v = true /\ leb v high = true.
Proof.
  induction iters as [|iters IH]; intros low high v Rl Rh Wl Wh Hle Hb;
    rewrite bisection_unfold in Hb;
    destruct (F64_exact.midpoint_between low high Rl Rh Wl Wh Hle)
      as [Hlo Hhi];
    pose proof (F64_exact.midpoint_representable low high) as Rm;
    pose proof (F64_exact.within_half_range_between low high _ Wl Wh Hlo Hhi)
      as Wm;
    revert Hb Hlo Hhi Rm Wm; generalize (midpoint low high) as mid;
    intros mid Hb Hlo Hhi Rm Wm.
  - assert (v = mid) as -> by congruence. auto.
  - destruct (price_at_vol p mid) as [pm|e]; [|discriminate].
    cbn [bind] in Hb.
    destruct (leb (abs (sub pm marketPrice)) tol);
      [assert (v = mid) as -> by congruence; auto|].
    destruct (ltb pm marketPrice).
    + destruct (IH _ _ _ Rm Rh Wm Wh Hhi Hb) as [H1 H2].
      split; [exact (F64_facts.leb_trans _ _ _ Hlo H1)|exact H2].
    + destruct (IH _ _ _ Rl Rm Wl Wm Hlo Hb) as [H1 H2].
      split; [exact H1|exact (F64_facts.leb_trans _ _ _ H2 Hhi)].
Qed.

End Bracket.

(** X7: between bounds [volLow <= volHigh] that are binary64 numbers of
    magnitude at most 2^1022, a volatility that the solver returns lies
    within [volLow, volHigh], whatever the prices are. *)
Theorem impliedVolatility_within_bounds {libm : Libm}
    marketPrice p volLow volHigh tol maxIter v :
  representable volLow -> representable volHigh ->
  within_half_range volLow = true -> within_half_range volHigh = true ->
  leb volLow volHigh = true ->
  impliedVolatility marketPrice p volLow volHigh tol maxIter = Return v ->
  leb volLow v = true /\ leb v volHigh = true.
Proof.
  intros Rl Rh Wl Wh Hle. unfold impliedVolatility.
  destruct (negb (gtb marketPrice zero)); [discriminate|].
  destruct (price_at_vol p volLow) as [pl|e]; [|discriminate].
  destruct (price_at_vol p volHigh) as [ph|e]; [|discriminate].
  cbn [bind].
  destruct (negb (leb pl marketPrice && leb marketPrice ph)); [discriminate|].
  apply bisection_within; assumption.
Qed.

Lemma impliedVolatility_within_bounds_witness :
  exists v,
    impliedVolatility (dec 10 0) balanced_params default_volLow
      default_volHigh default_iv_tol 3 = Return v /\
    leb default_volLow v = true /\ leb v default_volHigh = true.
Proof.
  eexists. split; [vm_compute; reflexivity|].
  apply (impliedVolatility_within_bounds (libm := reference_libm) (dec 10 0)
           balanced_params default_volLow default_volHigh default_iv_tol 3).
  - vm_compute. split; reflexivity.
  - vm_compute. split; reflexivity.
  - vm_compute; reflexivity.
  - vm_compute; reflexivity.
  - vm_compute; reflexivity.
  - vm_compute; reflexivity.
Defined.

(** ** Part VIII.  Silent NaN, and what the errors depend on *)

(** X8: a risk-neutral probability that is NaN passes the test of
    [riskNeutralProb], both of whose comparisons are false on NaN; when
    [n + 1] is within the largest array length, the pricer then raises
    nothing and returns NaN. *)
Theorem nan_probability_gives_nan {libm : Libm}
    S K T r sigma n optionType exerciseType q :
  validateInputs (params.make S K T r sigma q n optionType exerciseType)
    = Return tt ->
  let dt := div T n in
  let u := up_factor sigma dt in
  let d := div one u in
  eqb u d = false ->
  isNaN (risk_neutral_p u d r q dt) = true ->
  gtb (add n one) max_array_length = false ->
  binomialOptionPricing S K T r sigma n optionType exerciseType q
  = Return NaN.
Proof.
  intros Hv dt u d Hud Hnan Hlen.
  destruct (validateInputs_accepts _ Hv)
    as (_ & _ & _ & Hn & Hi & _ & _ & Ho & He).
  cbn [params.n params.option_type params.exercise_type] in Hn, Hi, Ho, He.
  destruct (includes_kind _ Ho) as [k Hk].
  destruct (includes_style _ He) as [st Hst].
  assert (Hp : risk_neutral_p u d r q dt = NaN)
    by (destruct (risk_neutral_p u d r q dt);
        first [reflexivity | discriminate Hnan]).
  rewrite (binomialOptionPricing_crr S K T r sigma n optionType exerciseType
             q k st Hv Hk Hst Hud)
    by (try exact Hlen; fold dt u d; rewrite Hp; reflexivity).
  f_equal. unfold crr_value. fold dt u d. rewrite Hp.
  pose proof (to_nat_positive n Hn Hi) as Hpos.
  destruct (to_nat n) as [|m]; [lia|].
  set (term := crr_terminal _ _ _ _ _ _ _).
  destruct (crr_induction_root k st S K (Math_exp (mul (neg r) dt)) u d NaN
              m term) as [next E].
  rewrite E, nth_crr_layer.
  change (0 <? 0 + 1)%nat with true. cbv iota.
  unfold crr_node. cbv zeta.
  change (mul NaN (nth (0 + 1) next NaN)) with NaN.
  change (add NaN (mul (sub one NaN) (nth 0 next NaN))) with NaN.
  rewrite F64_facts.mul_nan_r. destruct st; reflexivity.
Qed.

Lemma nan_probability_gives_nan_witness :
  binomialOptionPricing (dec 100 0) (dec 100 0) (dec 1 0) NaN (dec 2 (-1))
    (dec 3 0) "put" "american" (dec 2 (-2)) = Return NaN.
Proof.
  apply (nan_probability_gives_nan (libm := reference_libm)
           (dec 100 0) (dec 100 0) (dec 1 0) NaN (dec 2 (-1)) (dec 3 0)
           "put" "american" (dec 2 (-2)));
    vm_compute; reflexivity.
Defined.

(** X9: whether the pricer raises, and what, depends on the expiry, the
    rate, the volatility, the step count and the dividend yield only: two
    valid parameter sets that agree on these raise the same errors, whatever
    their underlying prices, strikes, option kinds and exercise styles. *)
Theorem pricer_error_independent_of_contract {libm : Libm}
    S K optionType exerciseType S' K' optionType' exerciseType'
    T r sigma n q e :
  validateInputs (params.make S K T r sigma q n optionType exerciseType)
    = Return tt ->
  validateInputs (params.make S' K' T r sigma q n optionType' exerciseType')
    = Return tt ->
  binomialOptionPricing S K T r sigma n optionType exerciseType q = Throw e ->
  binomialOptionPricing S' K' T r sigma n optionType' exerciseType' q
  = Throw e.
Proof.
  intros Hv Hv'.
  rewrite (binomialOptionPricing_valid _ _ _ _ _ _ _ _ _ Hv).
  rewrite (binomialOptionPricing_valid _ _ _ _ _ _ _ _ _ Hv').
  cbv zeta.
  destruct (eqb _ _); [intros H; exact H|].
  destruct (outside_unit _); [intros H; exact H|].
  destruct (gtb _ _); [intros H; exact H|discriminate].
Qed.

Lemma pricer_error_independent_of_contract_witness :
  exists e,
    binomialOptionPricing (dec 100 0) (dec 100 0) (dec 1 0) (dec 5 (-2)) zero
      (dec 3 0) "call" "european" (dec 2 (-2)) = Throw e /\
    binomialOptionPricing (dec 7 0) (dec 250 0) (dec 1 0) (dec 5 (-2)) zero
      (dec 3 0) "put" "american" (dec 2 (-2)) = Throw e.
Proof.
  eexists. split; [vm_compute; reflexivity|].
  apply (pricer_error_independent_of_contract (libm := reference_libm)
           (dec 100 0) (dec 100 0) "call" "european");
    vm_compute; reflexivity.
Defined.

(** ** Part IX.  Further properties of the Greeks *)

Lemma sub_finite_notnan a b :
  finite a = true -> isNaN b = false -> isNaN (sub a b) = false.
Proof.
  intros Fa Nb. unfold sub.
  destruct (F64_facts.finite_cases b) as [->|[[s ->]|Fb]]; [discriminate| |].
  - cbn [neg]. rewrite F64_facts.add_inf_r by assumption. reflexivity.
  - apply F64_facts.add_finite_notnan; [assumption|].
    apply F64_facts.neg_finite. assumption.
Qed.

(** A maximum with a positive number is positive, NaN aside. *)
Lemma max_positive_r x c :
  isNaN x = false -> gtb c zero = true -> gtb (max x c) zero = true.
Proof.
  unfold gtb. intros Nx Hc.
  destruct (F64_facts.ltb_notnan _ _ Hc) as [_ Nc].
  destruct (F64_facts.max_ge x c Nx Nc) as [_ H].
  exact (ltb_leb_trans _ _ _ Hc H).
Qed.

Lemma max_positive_l c x :
  isNaN x = false -> gtb c zero = true -> gtb (max c x) zero = true.
Proof.
  unfold gtb. intros Nx Hc.
  destruct (F64_facts.ltb_notnan _ _ Hc) as [_ Nc].
  destruct (F64_facts.max_ge c x Nc Nx) as [H _].
  exact (ltb_leb_trans _ _ _ Hc H).
Qed.

Lemma max_notnan x y :
  isNaN x = false -> isNaN y = false -> isNaN (max x y) = false.
Proof.
  intros Nx Ny. destruct (F64_facts.max_ge x y Nx Ny) as [H _].
  apply F64_facts.leb_notnan in H. apply H.
Qed.

Section GreeksSteps.

Context {libm : Libm}.

(** The error of the expiry rule is raised only for an expiry that is not
    positive. *)
Lemma binomialOptionPricing_expiry_error
    S K T r sigma n optionType exerciseType q :
  binomialOptionPricing S K T r sigma n optionType exerciseType q
  = Throw T_not_positive ->
  gtb T zero = false.
Proof.
  destruct (gtb T zero) eqn:HT; [|reflexivity].
  intros H. exfalso. revert H.
  destruct (validateInputs
              (params.make S K T r sigma q n optionType exerciseType))
    as [[]|e] eqn:Hv.
  - rewrite (binomialOptionPricing_valid _ _ _ _ _ _ _ _ _ Hv). cbv zeta.
    destruct (eqb _ _); [discriminate|].
    destruct (outside_unit _); [discriminate|].
    destruct (gtb (add n one) max_array_length); intros H; discriminate H.
  - unfold binomialOptionPricing. rewrite Hv. cbn [bind].
    intros [= ->]. revert Hv. unfold validateInputs.
    cbn [params.S params.K params.T params.n params.sigma params.q
         params.option_type params.exercise_type].
    rewrite HT. cbn [negb].
    repeat (match goal with
            | |- context [if ?c then _ else _] => destruct c
            end; try discriminate).
Qed.

Variable p : params.t.

Hypothesis HT : gtb (params.T p) zero = true.
Hypothesis FT : finite (params.T p) = true.

Lemma time_step_positive :
  gtb (time_step p None) zero = true /\ isNaN (time_step p None) = false.
Proof.
  assert (Nm : isNaN (mul (dec 1 (-3)) (params.T p)) = false)
    by (apply F64_facts.mul_finite_notnan;
        [vm_compute; reflexivity|exact FT]).
  assert (Hc : gtb (dec 1 (-4)) zero = true) by (vm_compute; reflexivity).
  unfold time_step. split.
  - apply max_positive_l; assumption.
  - apply max_notnan; [vm_compute; reflexivity|exact Nm].
Qed.

Lemma expiry_up_positive :
  gtb (add (params.T p) (time_step p None)) zero = true.
Proof. apply F64_facts.add_pos; [exact HT|apply time_step_positive]. Qed.

Lemma expiry_down_positive :
  gtb (max (sub (params.T p) (time_step p None)) (dec 1 (-8))) zero = true.
Proof.
  apply max_positive_r; [|vm_compute; reflexivity].
  apply sub_finite_notnan; [exact FT|apply time_step_positive].
Qed.

End GreeksSteps.

(** X10: for a finite positive expiry and the default time step, none of
    the five pricing calls of [greeks] raises the error of the expiry rule:
    the upward bump is positive and the downward one is floored at 1e-8.
    The spot bumps have no such floor. *)
Theorem greeks_expiry_never_rejected {libm : Libm} p dS e :
  gtb (params.T p) zero = true ->
  finite (params.T p) = true ->
  greeks p dS None = Throw e ->
  e <> T_not_positive.
Proof.
  intros HT FT Hg ->.
  pose proof (expiry_up_positive p HT FT) as Hup.
  pose proof (expiry_down_positive p FT) as Hdown.
  revert Hg Hup Hdown. unfold greeks.
  generalize (time_step p None) as stepT.
  generalize (spot_step p dS) as stepS.
  intros stepS stepT.
  generalize (max (sub (params.T p) stepT) (dec 1 (-8))) as Tdown.
  intros Tdown Hg Hup Hdown. revert Hg. unfold price_at_S_T.
  destruct (binomialOptionPricing (params.S p) _ (params.T p) _ _ _ _ _ _)
    as [base|e0] eqn:H0; cbn [bind];
    [|intros [= ->]; apply binomialOptionPricing_expiry_error in H0;
      congruence].
  destruct (binomialOptionPricing (add (params.S p) stepS) _ _ _ _ _ _ _ _)
    as [up|e1] eqn:H1; cbn [bind];
    [|intros [= ->]; apply binomialOptionPricing_expiry_error in H1;
      congruence].
  destruct (binomialOptionPricing (sub (params.S p) stepS) _ _ _ _ _ _ _ _)
    as [down|e2] eqn:H2; cbn [bind];
    [|intros [= ->]; apply binomialOptionPricing_expiry_error in H2;
      congruence].
  destruct (binomialOptionPricing _ _ (add (params.T p) stepT) _ _ _ _ _ _)
    as [upT|e3] eqn:H3; cbn [bind];
    [|intros [= ->]; apply binomialOptionPricing_expiry_error in H3;
      congruence].
  destruct (binomialOptionPricing _ _ Tdown _ _ _ _ _ _)
    as [downT|e4] eqn:H4; cbn [bind];
    [discriminate|].
  intros [= ->]. apply binomialOptionPricing_expiry_error in H4. congruence.
Qed.

Lemma greeks_expiry_never_rejected_witness :
  greeks small_spot_params None None = Throw S_K_not_positive /\
  S_K_not_positive <> T_not_positive.
Proof.
  assert (Hg : greeks small_spot_params None None = Throw S_K_not_positive)
    by (vm_compute; reflexivity).
  split; [exact Hg|].
  apply (greeks_expiry_never_rejected (libm := reference_libm)
           small_spot_params None S_K_not_positive).
  - vm_compute; reflexivity.
  - vm_compute; reflexivity.
  - exact Hg.
Defined.

(** *** A zero spot step *)

Lemma add_zero_positive x (z : float64) :
  unsigned_zero z = Fin 0 ->
  gtb x zero = true -> representable x -> add x z = x.
Proof.
  intros Hz Hx Rx.
  assert (Fz : finite z = true) by (destruct z; try discriminate; reflexivity).
  assert (Tz : toZ z = 0)
    by (rewrite <- F64_exact.toZ_unsigned_zero, Hz; reflexivity).
  destruct x as [|s| |k]; try discriminate.
  - destruct s; [discriminate|]. destruct z; try discriminate; reflexivity.
  - unfold gtb, zero in Hx. cbn [ltb toZ] in Hx. apply Z.ltb_lt in Hx.
    pose proof (F64_facts.add_finite (Fin k) z eq_refl Fz) as H.
    cbn [toZ] in H. rewrite Tz, Z.add_0_r in H.
    rewrite (F64_exact.rnd_representable k Rx) in H.
    destruct (add (Fin k) z) as [| | |k']; cbn [unsigned_zero] in H;
      try discriminate; [|exact H].
    injection H as H. lia.
Qed.

Lemma difference_of_equals_over_zero v : div (sub v v) (Fin 0) = NaN.
Proof.
  destruct (F64_facts.finite_cases v) as [->|[[s ->]|Fv]];
    [reflexivity|destruct s; reflexivity|].
  pose proof (F64_facts.sub_finite v v Fv Fv) as H.
  rewrite Z.sub_diag, F64_facts.rnd_0 in H by lia.
  destruct (sub v v) as [| | |k]; try discriminate; try reflexivity.
  cbn [unsigned_zero] in H. injection H as ->. reflexivity.
Qed.

(** X11: nothing guards the spot step against zero.  With [dS = 0] the two
    bumped prices are the base price, and when [greeks] returns, its delta
    is NaN, the quotient of a zero difference by a zero step. *)
Theorem greeks_zero_spot_step {libm : Libm} p dT g :
  representable (params.S p) ->
  greeks p (Some zero) dT = Return g ->
  isNaN (delta g) = true.
Proof.
  intros RS. unfold greeks. cbn [spot_step].
  generalize (time_step p dT) as stepT. intros stepT.
  assert (H2 : mul (dec 2 0) zero = Fin 0) by (vm_compute; reflexivity).
  rewrite H2. generalize (dec 2 0) as two. intros two.
  generalize (max (sub (params.T p) stepT) (dec 1 (-8))) as Tdown.
  intros Tdown.
  destruct (price_at_S_T p (params.S p) (params.T p)) as [base|e] eqn:Hbase;
    [|discriminate].
  cbn [bind].
  assert (HS : gtb (params.S p) zero = true).
  { unfold price_at_S_T in Hbase.
    destruct (binomialOptionPricing_returns _ _ _ _ _ _ _ _ _ _ Hbase)
      as (Hv & _).
    apply validateInputs_accepts in Hv. apply Hv. }
  rewrite (add_zero_positive (params.S p) zero eq_refl HS RS).
  unfold sub at 1. change (neg zero) with NZero.
  rewrite (add_zero_positive (params.S p) NZero eq_refl HS RS).
  rewrite Hbase. cbn [bind].
  destruct (price_at_S_T p (params.S p) (add (params.T p) stepT))
    as [upT|e]; [|discriminate].
  cbn [bind].
  destruct (price_at_S_T p (params.S p) Tdown) as [downT|e]; [|discriminate].
  cbn [bind]. intros [= <-]. cbn [delta].
  rewrite difference_of_equals_over_zero. reflexivity.
Qed.

Lemma greeks_zero_spot_step_witness :
  exists g,
    greeks balanced_params (Some zero) None = Return g /\
    isNaN (delta g) = true.
Proof.
  eexists. split; [vm_compute; reflexivity|].
  apply (greeks_zero_spot_step (libm := reference_libm) balanced_params None).
  - vm_compute. split; reflexivity.
  - vm_compute; reflexivity.
Defined.

(** ** Part X.  Monotonicity in the underlying price *)

Lemma ordered_zero_inv c :
  ordered zero c = true -> isNaN c = true \/ leb zero c = true.
Proof.
  unfold ordered. cbn [isNaN zero orb]. intros H.
  apply orb_prop in H. exact H.
Qed.

Section SpotMonotone.

Context {libm : Libm}.

Variables (k : option_kind) (st : exercise_style)
  (K discount u d p : float64).

Hypothesis Hdiscount : ordered zero discount = true.
Hypothesis Hp : ordered zero p = true.
Hypothesis Hq : ordered zero (sub one p) = true.

(** Two underlying prices whose payoffs are ordered at every node. *)
Variables Sa Sb : float64.

Hypothesis Hpay :
  forall i j,
    ordered (crr_payoff k K (crr_asset_price Sa u d i j))
            (crr_payoff k K (crr_asset_price Sb u d i j)) = true.

Lemma nth_crr_terminal S n steps j :
  nth j (crr_terminal k S K u d n steps) NaN
  = if (j <? steps + 1)%nat
    then crr_payoff k K (crr_asset_price S u d n j)
    else NaN.
Proof.
  unfold crr_terminal. destruct (Nat.ltb_spec j (steps + 1)) as [Hlt|Hge].
  - rewrite nth_indep
      with (d' := crr_payoff k K (crr_asset_price S u d n 0%nat))
      by (rewrite length_map, length_seq; lia).
    rewrite (map_nth (fun j => crr_payoff k K (crr_asset_price S u d n j))).
    rewrite seq_nth by lia. reflexivity.
  - apply nth_overflow. rewrite length_map, length_seq. lia.
Qed.

Lemma crr_terminal_spot n steps :
  layers_ordered (crr_terminal k Sa K u d n steps)
                 (crr_terminal k Sb K u d n steps).
Proof.
  intros j. rewrite !nth_crr_terminal.
  destruct (j <? steps + 1)%nat; [apply Hpay|reflexivity].
Qed.

Lemma crr_layer_spot i la lb :
  layers_ordered la lb ->
  layers_ordered (crr_layer k st Sa K discount u d p i la)
                 (crr_layer k st Sb K discount u d p i lb).
Proof.
  intros H j. rewrite !nth_crr_layer.
  destruct (j <? i + 1)%nat; [|reflexivity].
  assert (Hc : ordered
                 (mul discount
                    (add (mul p (nth (j + 1) la NaN))
                         (mul (sub one p) (nth j la NaN))))
                 (mul discount
                    (add (mul p (nth (j + 1) lb NaN))
                         (mul (sub one p) (nth j lb NaN)))) = true).
  { apply F64_facts.mul_ordered; [apply ordered_zero_inv, Hdiscount|].
    apply F64_facts.add_ordered; apply F64_facts.mul_ordered;
      auto using ordered_zero_inv. }
  unfold crr_node. destruct st; [exact Hc|].
  apply F64_order.max_mono; [exact Hc|apply Hpay].
Qed.

Lemma crr_induction_spot i la lb :
  layers_ordered la lb ->
  layers_ordered (crr_induction k st Sa K discount u d p i la)
                 (crr_induction k st Sb K discount u d p i lb).
Proof.
  revert la lb. induction i as [|i IH]; intros la lb H; [exact H|].
  cbn [crr_induction]. apply IH. apply crr_layer_spot. exact H.
Qed.

End SpotMonotone.

Section SpotPayoff.

Context {libm : Libm}.

Hypothesis Hpow :
  forall x y, signbit x = false -> signbit (Math_pow x y) = false.

Variables (K u d S S' : float64).

Hypothesis Hu : signbit u = false.
Hypothesis Hd : signbit d = false.
Hypothesis HS : ordered S S' = true.

Lemma crr_asset_price_spot i j :
  ordered (crr_asset_price S u d i j) (crr_asset_price S' u d i j) = true.
Proof.
  unfold crr_asset_price.
  rewrite (F64_order.mul_comm (mul S _)), (F64_order.mul_comm (mul S' _)).
  rewrite (F64_order.mul_comm S), (F64_order.mul_comm S').
  apply F64_facts.mul_ordered;
    [apply ordered_zero_inv, F64_order.signbit_ordered, Hpow, Hd|].
  apply F64_facts.mul_ordered;
    [apply ordered_zero_inv, F64_order.signbit_ordered, Hpow, Hu|].
  exact HS.
Qed.

Lemma call_payoff_spot i j :
  ordered (crr_payoff Call K (crr_asset_price S u d i j))
          (crr_payoff Call K (crr_asset_price S' u d i j)) = true.
Proof.
  cbn [crr_payoff]. apply F64_order.max_mono; [apply F64_facts.ordered_refl|].
  apply F64_order.sub_ordered;
    [apply crr_asset_price_spot|apply F64_facts.ordered_refl].
Qed.

Lemma put_payoff_spot i j :
  ordered (crr_payoff Put K (crr_asset_price S' u d i j))
          (crr_payoff Put K (crr_asset_price S u d i j)) = true.
Proof.
  cbn [crr_payoff]. apply F64_order.max_mono; [apply F64_facts.ordered_refl|].
  apply F64_order.sub_ordered;
    [apply F64_facts.ordered_refl|apply crr_asset_price_spot].
Qed.

End SpotPayoff.

Section SpotValue.

Context {libm : Libm}.

Hypothesis Hexp : forall x, signbit (Math_exp x) = false.
Hypothesis Hpow :
  forall x y, signbit x = false -> signbit (Math_pow x y) = false.

Variables (st : exercise_style) (K T r sigma n q : float64).

Hypothesis Hout :
  outside_unit
    (risk_neutral_p (up_factor sigma (div T n))
       (div one (up_factor sigma (div T n))) r q (div T n)) = false.

Lemma up_factor_signbit dt : signbit (up_factor sigma dt) = false.
Proof.
  unfold up_factor. destruct (gtb sigma zero); [apply Hexp|].
  apply F64_order.gtb_signbit. vm_compute. reflexivity.
Qed.

Lemma down_factor_signbit dt : signbit (div one (up_factor sigma dt)) = false.
Proof.
  apply F64_order.signbit_div; [|apply up_factor_signbit].
  apply F64_order.gtb_signbit. vm_compute. reflexivity.
Qed.

(** The value of a call does not decrease with the underlying price, NaN
    aside; the value of a put does not increase. *)
Lemma crr_value_spot_call S S' :
  ordered S S' = true ->
  ordered (crr_value Call st S K T r sigma n q)
          (crr_value Call st S' K T r sigma n q) = true.
Proof.
  intros HS. unfold crr_value.
  apply orb_false_elim in Hout as [H0 H1].
  apply crr_induction_spot.
  - apply F64_order.signbit_ordered, Hexp.
  - apply ordered_zero_cases, F64_facts.not_negative, H0.
  - apply ordered_zero_cases, F64_facts.one_minus_nonneg, H1.
  - intros i j. apply call_payoff_spot;
      auto using up_factor_signbit, down_factor_signbit.
  - apply crr_terminal_spot. intros i j. apply call_payoff_spot;
      auto using up_factor_signbit, down_factor_signbit.
Qed.

Lemma crr_value_spot_put S S' :
  ordered S S' = true ->
  ordered (crr_value Put st S' K T r sigma n q)
          (crr_value Put st S K T r sigma n q) = true.
Proof.
  intros HS. unfold crr_value.
  apply orb_false_elim in Hout as [H0 H1].
  apply crr_induction_spot.
  - apply F64_order.signbit_ordered, Hexp.
  - apply ordered_zero_cases, F64_facts.not_negative, H0.
  - apply ordered_zero_cases, F64_facts.one_minus_nonneg, H1.
  - intros i j. apply put_payoff_spot;
      auto using up_factor_signbit, down_factor_signbit.
  - apply crr_terminal_spot. intros i j. apply put_payoff_spot;
      auto using up_factor_signbit, down_factor_signbit.
Qed.

End SpotValue.

(** The two prices of one contract at two underlying prices, as CRR
    values. *)
Lemma binomialOptionPricing_two_spots {libm : Libm}
    S S' K T r sigma n optionType exerciseType q v v' :
  binomialOptionPricing S K T r sigma n optionType exerciseType q = Return v ->
  binomialOptionPricing S' K T r sigma n optionType exerciseType q
  = Return v' ->
  outside_unit
    (risk_neutral_p (up_factor sigma (div T n))
       (div one (up_factor sigma (div T n))) r q (div T n)) = false /\
  exists k st,
    kind_of_string optionType = Some k /\
    v = crr_value k st S K T r sigma n q /\
    v' = crr_value k st S' K T r sigma n q.
Proof.
  intros Hv Hv'.
  destruct (binomialOptionPricing_returns _ _ _ _ _ _ _ _ _ _ Hv)
    as (_ & _ & Hout & k & st & Hk & Hst & ->).
  destruct (binomialOptionPricing_returns _ _ _ _ _ _ _ _ _ _ Hv')
    as (_ & _ & _ & k' & st' & Hk' & Hst' & ->).
  split; [exact Hout|]. exists k, st.
  rewrite Hk in Hk'. injection Hk' as <-.
  rewrite Hst in Hst'. injection Hst' as <-.
  auto.
Qed.

(** X12: for every [Math.exp] and [**] that return no number with the sign
    bit set on arguments without it, the price of a call does not decrease
    when the underlying price increases, and the price of a put does not
    increase, whenever both prices are returned and are numbers. *)
Theorem price_monotone_in_spot {libm : Libm}
    S S' K T r sigma n optionType exerciseType q v v' :
  (forall x, signbit (Math_exp x) = false) ->
  (forall x y, signbit x = false -> signbit (Math_pow x y) = false) ->
  leb S S' = true ->
  binomialOptionPricing S K T r sigma n optionType exerciseType q = Return v ->
  binomialOptionPricing S' K T r sigma n optionType exerciseType q
  = Return v' ->
  isNaN v = false -> isNaN v' = false ->
  if String.eqb optionType "call" then leb v v' = true else leb v' v = true.
Proof.
  intros Hexp Hpow HS Hv Hv' Nv Nv'.
  destruct (binomialOptionPricing_two_spots _ _ _ _ _ _ _ _ _ _ _ _ Hv Hv')
    as (Hout & k & st & Hk & -> & ->).
  apply F64_facts.leb_ordered in HS.
  unfold kind_of_string in Hk.
  destruct (String.eqb optionType "call").
  - injection Hk as <-. apply F64_facts.ordered_leb; try assumption.
    apply crr_value_spot_call; assumption.
  - destruct (String.eqb optionType "put"); [|discriminate].
    injection Hk as <-. apply F64_facts.ordered_leb; try assumption.
    apply crr_value_spot_put; assumption.
Qed.

(** The reference implementations return no number with the sign bit set
    on arguments without it. *)
Lemma exp64_signbit x : signbit (exp64 x) = false.
Proof.
  destruct x as [|[]| |k]; try reflexivity.
  unfold exp64.
  destruct (Z.leb_spec 0 k).
  - destruct (_ <=? k); [reflexivity|].
    apply F64_order.signbit_round; [unfold fx_bits; lia|].
    apply Z.shiftl_nonneg. apply F64_facts.exp_fx_nonneg. assumption.
  - destruct (_ <=? - k); [reflexivity|].
    apply F64_order.signbit_round_ratio.
    + pose proof (F64_facts.pow2_pos (1074 + fx_bits)).
      unfold fx_bits in *. lia.
    + apply F64_facts.exp_fx_nonneg. lia.
Qed.

Lemma one_signbit : signbit one = false.
Proof. vm_compute. reflexivity. Qed.

Lemma pow_pos_signbit x j : signbit x = false -> signbit (pow_pos x j) = false.
Proof.
  destruct x as [|s| |[|m|m]]; try discriminate; try reflexivity.
  - cbn [signbit]. intros ->. reflexivity.
  - intros _. unfold pow_pos.
    change (Z.pos m <? 0) with false. cbn [andb].
    assert (Hm : 0 <= Z.pos (odd_part m) ^ j) by (apply Z.pow_nonneg; lia).
    destruct (Z.leb_spec 0 (ctz m * j - 1074 * (j - 1))).
    + apply F64_order.signbit_round; [lia|].
      apply Z.shiftl_nonneg. exact Hm.
    + apply F64_order.signbit_round; lia.
Qed.

Lemma pow64_signbit x y : signbit x = false -> signbit (pow64 x y) = false.
Proof.
  intros Hx.
  destruct y as [|s| |[|m|m]]; try reflexivity; try apply one_signbit;
    unfold pow64; (destruct (isInteger _); [|reflexivity]).
  - change (0 <? Z.pos m) with true. cbv iota.
    apply pow_pos_signbit. exact Hx.
  - change (0 <? Z.neg m) with false. cbv iota.
    apply F64_order.signbit_div; [apply one_signbit|].
    apply pow_pos_signbit. exact Hx.
Qed.

Lemma price_monotone_in_spot_witness :
  exists v v',
    binomialOptionPricing (dec 100 0) (dec 100 0) (dec 1 0) (dec 5 (-2))
      (dec 2 (-1)) (dec 3 0) "put" "american" (dec 2 (-2)) = Return v /\
    binomialOptionPricing (dec 101 0) (dec 100 0) (dec 1 0) (dec 5 (-2))
      (dec 2 (-1)) (dec 3 0) "put" "american" (dec 2 (-2)) = Return v' /\
    leb v' v = true.
Proof.
  eexists. eexists.
  split; [vm_compute; reflexivity|].
  split; [vm_compute; reflexivity|].
  apply (price_monotone_in_spot (libm := reference_libm)
           (dec 100 0) (dec 101 0) (dec 100 0) (dec 1 0) (dec 5 (-2))
           (dec 2 (-1)) (dec 3 0) "put" "american" (dec 2 (-2))).
  - exact exp64_signbit.
  - exact pow64_signbit.
  - vm_compute; reflexivity.
  - vm_compute; reflexivity.
  - vm_compute; reflexivity.
  - reflexivity.
  - reflexivity.
Defined.

(** *** The sign of delta *)

Section DeltaSign.

Context {libm : Libm}.

Hypothesis Hexp : forall x, signbit (Math_exp x) = false.
Hypothesis Hpow :
  forall x y, signbit x = false -> signbit (Math_pow x y) = false.

Variables (p : params.t) (stepS : float64).

Hypothesis Hstep : signbit stepS = false.

Lemma spot_bumps_ordered :
  ordered (sub (params.S p) stepS) (add (params.S p) stepS) = true.
Proof.
  unfold sub. apply F64_facts.add_ordered; [apply F64_facts.ordered_refl|].
  apply F64_order.neg_below. exact Hstep.
Qed.

Lemma doubled_step_signbit two :
  signbit two = false -> signbit (mul two stepS) = false.
Proof. intros H. apply F64_order.signbit_mul; assumption. Qed.

End DeltaSign.

Lemma default_spot_step_signbit p :
  gtb (params.S p) zero = true -> signbit (spot_step p None) = false.
Proof.
  intros HS. unfold spot_step. apply F64_order.signbit_max.
  - apply F64_order.signbit_mul; [vm_compute; reflexivity|].
    apply F64_order.gtb_signbit. exact HS.
  - vm_compute. reflexivity.
Qed.

(** X13: for every [Math.exp] and [**] that return no number with the sign
    bit set on arguments without it, and a spot step that is the default or
    an override that is not negative, the delta that [greeks] returns is
    never negative for a call and never positive for a put, NaN aside. *)
Theorem greeks_delta_sign {libm : Libm} p dS dT g :
  (forall x, signbit (Math_exp x) = false) ->
  (forall x y, signbit x = false -> signbit (Math_pow x y) = false) ->
  match dS with Some s => signbit s = false | None => True end ->
  greeks p dS dT = Return g ->
  isNaN (delta g) = false ->
  if String.eqb (params.option_type p) "call"
  then leb zero (delta g) = true
  else leb (delta g) zero = true.
Proof.
  intros Hexp Hpow HdS Hg Nd. revert Hg. unfold greeks.
  destruct (price_at_S_T p (params.S p) (params.T p)) as [base|e] eqn:Hbase;
    [|discriminate].
  cbn [bind].
  assert (HS : gtb (params.S p) zero = true).
  { unfold price_at_S_T in Hbase.
    destruct (binomialOptionPricing_returns _ _ _ _ _ _ _ _ _ _ Hbase)
      as (Hv & _).
    apply validateInputs_accepts in Hv. apply Hv. }
  assert (Hstep : signbit (spot_step p dS) = false).
  { destruct dS as [s|]; [exact HdS|].
    apply default_spot_step_signbit. exact HS. }
  pose proof (spot_bumps_ordered p (spot_step p dS) Hstep) as Hbumps.
  pose proof (doubled_step_signbit (spot_step p dS) Hstep (dec 2 0)
                ltac:(vm_compute; reflexivity)) as Htwo.
  revert Hbumps Htwo.
  generalize (mul (dec 2 0) (spot_step p dS)) as width.
  generalize (Math_pow (spot_step p dS) (dec 2 0)) as square.
  generalize (mul (dec 2 0) (time_step p dT)) as widthT.
  generalize (max (sub (params.T p) (time_step p dT)) (dec 1 (-8))) as Tdown.
  generalize (add (params.T p) (time_step p dT)) as Tup.
  generalize (mul (dec 2 0) base) as base2.
  generalize (spot_step p dS) as stepS.
  intros stepS base2 Tup Tdown widthT square width Hbumps Htwo.
  destruct (price_at_S_T p (add (params.S p) stepS) (params.T p))
    as [up|e] eqn:Hup; [|discriminate].
  cbn [bind].
  destruct (price_at_S_T p (sub (params.S p) stepS) (params.T p))
    as [down|e] eqn:Hdown; [|discriminate].
  cbn [bind].
  destruct (price_at_S_T p (params.S p) Tup) as [upT|e]; [|discriminate].
  cbn [bind].
  destruct (price_at_S_T p (params.S p) Tdown) as [downT|e]; [|discriminate].
  cbn [bind]. intros [= <-]. cbn [delta] in *.
  unfold price_at_S_T in Hup, Hdown.
  destruct (binomialOptionPricing_two_spots _ _ _ _ _ _ _ _ _ _ _ _
              Hdown Hup) as (Hout & k & st & Hk & -> & ->).
  unfold kind_of_string in Hk.
  destruct (String.eqb (params.option_type p) "call").
  - injection Hk as <-.
    apply F64_facts.ordered_leb; [reflexivity|exact Nd|].
    apply F64_order.div_not_negative; [|exact Htwo].
    apply F64_order.sub_not_negative.
    apply crr_value_spot_call; assumption.
  - destruct (String.eqb (params.option_type p) "put"); [|discriminate].
    injection Hk as <-.
    apply F64_facts.ordered_leb; [exact Nd|reflexivity|].
    apply F64_order.div_not_positive; [|exact Htwo].
    apply F64_order.sub_not_positive.
    apply crr_value_spot_put; assumption.
Qed.

Lemma greeks_delta_sign_witness :
  exists g,
    greeks balanced_params None None = Return g /\
    leb zero (delta g) = true.
Proof.
  eexists. split; [vm_compute; reflexivity|].
  apply (greeks_delta_sign (libm := reference_libm) balanced_params None
           None).
  - exact exp64_signbit.
  - exact pow64_signbit.
  - exact I.
  - vm_compute; reflexivity.
  - reflexivity.
Defined.

(** ** Part XI.  The page *)

(** *** formatNum *)

Lemma string_length_append (s t : string) :
  String.length (s ++ t) = (String.length s + String.length t)%nat.
Proof. induction s as [|c s IH]; cbn; [reflexivity|]. rewrite IH. reflexivity. Qed.

Lemma zeros_length count : String.length (zeros count) = count.
Proof. induction count as [|c IH]; cbn; [reflexivity|]. rewrite IH. reflexivity. Qed.

(** The first character of the digits of a number is not the minus sign. *)
Lemma digits_of_head n :
  exists c rest,
    digits_of n = String c rest /\ c <> Ascii.ascii_of_nat 45.
Proof.
  unfold digits_of. destruct (N.to_uint (Z.to_N n)); cbn;
    eexists; eexists; (split; [reflexivity|discriminate]).
Qed.

Lemma substring_head c rest count :
  substring 0 (Datatypes.S count) (String c rest)
  = String c (substring 0 count rest).
Proof. reflexivity. Qed.

Section FormatNum.

Variable Number_toString : float64 -> string.

(** Below 10^21 the text of a finite number starts with a digit, after
    its sign. *)
Lemma toFixed_shape x f :
  finite x = true -> Z.abs (toZ x) < 10 ^ 21 * unit_scale ->
  exists c rest,
    toFixed Number_toString x f
    = ((if (toZ x <? 0)%Z then "-" else "") ++ String c rest)%string /\
    c <> Ascii.ascii_of_nat 45.
Proof.
  intros Fx Hb. unfold toFixed. rewrite Fx. cbn [negb].
  destruct (Z.leb_spec (10 ^ 21 * unit_scale) (Z.abs (toZ x))); [lia|].
  set (n := (2 * Z.abs (toZ x) * 10 ^ Z.of_nat f + unit_scale)
            / (2 * unit_scale)).
  destruct (digits_of_head n) as (c & rest & Hm & Hc).
  destruct (f =? 0)%nat eqn:Hf.
  - exists c, rest. rewrite Hm. auto.
  - apply Nat.eqb_neq in Hf.
    assert (Hp : exists c' rest' count,
               (if (String.length (digits_of n) <=? f)%nat
                then (zeros (f + 1 - String.length (digits_of n))
                      ++ digits_of n)%string
                else digits_of n) = String c' rest' /\
               c' <> Ascii.ascii_of_nat 45 /\
               (String.length (String c' rest') - f
                = Datatypes.S count)%nat).
    { destruct (Nat.leb_spec (String.length (digits_of n)) f) as [Hle|Hgt].
      - remember (f + 1 - String.length (digits_of n))%nat as z eqn:Hz.
        destruct z as [|z]; [lia|].
        eexists. eexists. exists 0%nat. cbn [zeros append].
        split; [reflexivity|]. split; [discriminate|].
        cbn [String.length].
        rewrite string_length_append, zeros_length. lia.
      - exists c, rest, (String.length (digits_of n) - f - 1)%nat.
        split; [exact Hm|]. split; [exact Hc|]. rewrite <- Hm. lia. }
    destruct Hp as (c' & rest' & count & -> & Hc' & ->).
    rewrite substring_head. cbn [append].
    eexists. eexists. split; [reflexivity|exact Hc'].
Qed.

(** X14: for a value below 10^21 in magnitude and up to 100 digits,
    [formatNum] returns the placeholder "-" when the value is not finite,
    and only then: the text of a finite value is never "-". *)
Theorem formatNum_placeholder value digits :
  (digits <= 100)%nat ->
  (finite value = true -> ltb (abs value) (dec 1 21) = true) ->
  (formatNum Number_toString value digits = "-"%string
   <-> finite value = false).
Proof.
  intros _ Hb. unfold formatNum.
  destruct (finite value) eqn:Fv; cbn [negb]; [|split; reflexivity].
  split; [|discriminate]. intros H. exfalso.
  assert (Hlt : Z.abs (toZ value) < 10 ^ 21 * unit_scale).
  { specialize (Hb eq_refl).
    assert (E : dec 1 21 = Fin (10 ^ 21 * unit_scale))
      by (vm_compute; reflexivity).
    rewrite E in Hb. clear E.
    destruct value as [| | |k]; try discriminate.
    - cbn [toZ Z.abs]. vm_compute. reflexivity.
    - cbn [abs ltb toZ] in Hb. apply Z.ltb_lt in Hb. exact Hb. }
  destruct (toFixed_shape value digits Fv Hlt) as (c & rest & E & Hc).
  rewrite E in H. destruct (toZ value <? 0); cbn [append] in H.
  - discriminate.
  - injection H as H _. contradiction.
Qed.

End FormatNum.

Lemma formatNum_placeholder_witness :
  ltb (abs (dec 98556 (-4))) (dec 1 21) = true /\
  formatNum (fun _ => EmptyString) (dec 98556 (-4)) 4 <> "-"%string.
Proof.
  split; [vm_compute; reflexivity|]. intros H.
  apply (formatNum_placeholder (fun _ => EmptyString) (dec 98556 (-4)) 4)
    in H.
  - vm_compute in H. discriminate.
  - lia.
  - intros _. vm_compute. reflexivity.
Defined.

(** *** drawConvergence *)

(** [len - 1], computed on binary64, is the index of the last element. *)
Lemma of_nat_pred len :
  (1 <= len)%nat -> Z.of_nat len < F64.pow2 53 ->
  sub (of_nat len) one = of_nat (len - 1).
Proof.
  intros H1 Hlen. unfold of_nat.
  rewrite (of_Z_exact (Z.of_nat len)) by lia.
  pose proof F64_exact.unit_scale_pos as HU.
  unfold sub, one. cbn [neg].
  destruct (Z.eqb_spec unit_scale 0); [lia|].
  cbn [add toZ].
  replace (Z.of_nat len * unit_scale + - unit_scale)
    with (Z.of_nat (len - 1) * unit_scale) by nia.
  unfold of_Z.
  assert (H0 : 0 <= Z.of_nat (len - 1) * unit_scale) by nia.
  destruct (Z.ltb_spec (Z.of_nat (len - 1) * unit_scale) 0); [lia|].
  destruct (Z.ltb_spec (Z.of_nat (len - 1)) 0); [lia|].
  rewrite (Z.abs_eq (Z.of_nat (len - 1))) by lia.
  rewrite Z.abs_eq by lia. reflexivity.
Qed.

Lemma last_default {A : Type} (x : A) (l : list A) (d d' : A) :
  List.last (x :: l) d = List.last (x :: l) d'.
Proof.
  revert x. induction l as [|y l IH]; intros x; [reflexivity|].
  change (List.last (x :: y :: l) d) with (List.last (y :: l) d).
  change (List.last (x :: y :: l) d') with (List.last (y :: l) d').
  apply IH.
Qed.

Lemma last_indexed (points : list trail_entry) :
  forall idx first d,
    List.last (combine (seq idx (List.length (first :: points)))
                 (first :: points)) d
    = ((idx + List.length points)%nat, List.last (first :: points) first).
Proof.
  induction points as [|point rest IH]; intros idx first d.
  - cbn. rewrite Nat.add_0_r. reflexivity.
  - change (List.last (combine (seq idx (List.length (first :: point :: rest)))
                         (first :: point :: rest)) d)
      with (List.last (combine (seq (Datatypes.S idx)
                                  (List.length (point :: rest)))
                         (point :: rest)) d).
    rewrite IH. cbn [List.length].
    replace (Datatypes.S idx + List.length rest)%nat
      with (idx + Datatypes.S (List.length rest))%nat by lia.
    f_equal.
    change (List.last (first :: point :: rest) first)
      with (List.last (point :: rest) first).
    apply last_default.
Qed.


(** *** run *)

Lemma message_not_empty e : message e <> EmptyString.
Proof. destruct e; discriminate. Qed.

(** The stages of [run], one after the other. *)
Ltac run_stages inputs fuel :=
  destruct (validateInputs (form_params inputs)) as [[]|?e] eqn:?Hvalid;
  [destruct (price_at (form_params inputs) (params.n (form_params inputs)))
     as [?price|?e] eqn:?Hprice;
   [destruct (greeks (form_params inputs) None None)
      as [?greek|?e] eqn:?Hgreek;
    [destruct (priceWithConvergence fuel (form_params inputs) default_nStart
                 default_nMax default_conv_tol default_step)
       as [[?conv|?e]|] eqn:?Hconv;
     [destruct (target_price inputs) as [?target|] eqn:?Htarget;
      [destruct (finite target) eqn:?Hfinite;
       [destruct (impliedVolatility target (form_params inputs)
                    default_volLow default_volHigh default_iv_tol
                    default_maxIter) as [?iv|?e] eqn:?Hiv| ]| ]| | ]| ]| ]| ].

Section Run.

Variable Number_toString : float64 -> string.
Variable RangeError_message : string.
Variables width height : float64.

Context {libm : Libm}.

Lemma error_message_not_empty e :
  error_message Number_toString RangeError_message e <> EmptyString.
Proof.
  destruct e; try apply message_not_empty.
  - unfold error_message, message. discriminate.
  - unfold error_message.
    destruct RangeError_message; [apply message_not_empty|discriminate].
Qed.

(** X16: when [run] ends, the error line is empty exactly when every
    computation returned: the validator, the pricer, the Greeks, the
    convergence driver and, for a finite target price, the solver. *)
Theorem run_error_empty_iff fuel inputs d d' :
  run Number_toString RangeError_message width height fuel inputs d = Some d' ->
  (error_text d' = EmptyString <-> all_return fuel inputs).
Proof.
  unfold run, run_try, all_return. cbv zeta.
  run_stages inputs fuel; intros [= <-]; cbn [error_text setError set_iv
    show_results];
    (split;
     [intros H;
      try (exfalso; revert H; apply error_message_not_empty)
     |intros (Hv & [? Hp] & [? Hg] & [? Hc] & Hs);
      try discriminate; try reflexivity]).
  - repeat split; eauto. intros t [= <-] _. eauto.
  - destruct (Hs _ eq_refl Hfinite) as [? Hs']. congruence.
  - repeat split; eauto. intros t [= <-] Ft. congruence.
  - repeat split; eauto. discriminate.
Qed.

(** X17: when [run] ends with an error, the text of the implied
    volatility is the one of before; and unless the error comes from the
    solver, so are the five other outputs and the canvas: the fields keep
    showing the results of an earlier run. *)
Theorem run_failure_keeps_outputs fuel inputs d d' :
  run Number_toString RangeError_message width height fuel inputs d = Some d' ->
  error_text d' <> EmptyString ->
  iv_text d' = iv_text d /\
  (outputs_kept d d' \/
   exists target e,
     target_price inputs = Some target /\ finite target = true /\
     impliedVolatility target (form_params inputs) default_volLow
       default_volHigh default_iv_tol default_maxIter = Throw e /\
     error_text d' = error_message Number_toString RangeError_message e).
Proof.
  unfold run, run_try, outputs_kept. cbv zeta.
  run_stages inputs fuel; intros [= <-]; cbn [error_text iv_text price_text
    delta_text gamma_text theta_text conv_text canvas setError set_iv
    show_results]; intros Herr;
    try (elim Herr; reflexivity);
    (split; [reflexivity|]);
    try (left; repeat split; reflexivity).
  right. exists target, e. auto.
Qed.

(** X19: running twice shows the same texts as running once. *)
Theorem run_idempotent fuel inputs d d1 :
  run Number_toString RangeError_message width height fuel inputs d = Some d1 ->
  exists d2,
    run Number_toString RangeError_message width height fuel inputs d1 = Some d2 /\
    same_texts d1 d2.
Proof.
  unfold run, run_try, same_texts. cbv zeta.
  run_stages inputs fuel; intros [= <-]; eexists;
    (split; [reflexivity|]);
    cbn [error_text iv_text price_text delta_text gamma_text theta_text
         conv_text canvas setError set_iv show_results];
    repeat split; reflexivity.
Qed.

(** For an underlying price in (0, 1e-4] that the pricer accepts, the
    Greeks raise the error of the S/K rule. *)
Lemma greeks_small_spot_throws p dT base :
  leb (params.S p) (dec 1 (-4)) = true ->
  price_at_S_T p (params.S p) (params.T p) = Return base ->
  greeks p None dT = Throw S_K_not_positive.
Proof.
  intros Hle Hbase.
  assert (Hpos : gtb (params.S p) zero = true).
  { unfold price_at_S_T in Hbase.
    destruct (binomialOptionPricing_returns _ _ _ _ _ _ _ _ _ _ Hbase)
      as (Hv & _).
    apply validateInputs_accepts in Hv. apply Hv. }
  pose proof (spot_step_small p Hpos Hle) as Hstep.
  assert (Hup : exists up,
             price_at_S_T p (add (params.S p) (spot_step p None))
               (params.T p) = Return up).
  { apply (binomialOptionPricing_other_spot _ _ _ _ _ _ _ _ _ _ _ Hbase).
    rewrite Hstep. apply F64_facts.add_pos; [exact Hpos|reflexivity]. }
  assert (Hdown :
            price_at_S_T p (sub (params.S p) (spot_step p None)) (params.T p)
            = Throw S_K_not_positive).
  { apply binomialOptionPricing_spot_not_positive.
    rewrite Hstep. apply F64_facts.sub_nonpos. exact Hle. }
  destruct Hup as [up Hup]. unfold greeks.
  rewrite Hbase, Hup, Hdown. reflexivity.
Qed.

(** X18: for an underlying price in (0, 1e-4] that the validator and the
    pricer accept, [run] shows the message of the S/K rule, raised by the
    downward spot bump of the Greeks, and leaves every output as it was:
    the price that it has computed is not shown. *)
Theorem run_small_spot fuel inputs d price :
  leb (params.S (form_params inputs)) (dec 1 (-4)) = true ->
  price_at (form_params inputs) (params.n (form_params inputs))
  = Return price ->
  run Number_toString RangeError_message width height fuel inputs d
  = Some (setError "S and K must be positive." d).
Proof.
  intros Hle Hprice.
  assert (Hv : validateInputs (form_params inputs) = Return tt).
  { unfold price_at in Hprice.
    destruct (binomialOptionPricing_returns _ _ _ _ _ _ _ _ _ _ Hprice)
      as (Hv & _).
    destruct (form_params inputs). exact Hv. }
  pose proof (greeks_small_spot_throws (form_params inputs) None price Hle
                Hprice) as Hg.
  unfold run, run_try. cbv zeta. rewrite Hv, Hprice, Hg. reflexivity.
Qed.

(** *** resetDefaults *)

Lemma accepts_returns p n :
  accepts p n = true -> exists v, price_at p n = Return v.
Proof.
  unfold accepts, price_at.
  destruct (validateInputs _) as [[]|e] eqn:Hv; [|discriminate].
  rewrite (binomialOptionPricing_valid _ _ _ _ _ _ _ _ _ Hv). cbv zeta.
  intros H. apply andb_prop in H as [H H3]. apply andb_prop in H as [H1 H2].
  apply negb_true_iff in H1, H2, H3. rewrite H1, H2, H3. eauto.
Qed.

Lemma greeks_accepts_returns p :
  greeks_accepts p = true -> exists g, greeks p None None = Return g.
Proof.
  unfold greeks_accepts. cbv zeta. intros H.
  apply andb_prop in H as [H H5]. apply andb_prop in H as [H H4].
  apply andb_prop in H as [H H3]. apply andb_prop in H as [H1 H2].
  apply accepts_returns in H1 as [base H1], H2 as [up H2], H3 as [dn H3],
    H4 as [upT H4], H5 as [dnT H5].
  unfold greeks.
  change (price_at_S_T p (params.S p) (params.T p))
    with (price_at p (params.n p)).
  change (price_at_S_T p (add (params.S p) (spot_step p None)) (params.T p))
    with (price_at
            (with_spot_expiry p (add (params.S p) (spot_step p None))
               (params.T p)) (params.n p)).
  change (price_at_S_T p (sub (params.S p) (spot_step p None)) (params.T p))
    with (price_at
            (with_spot_expiry p (sub (params.S p) (spot_step p None))
               (params.T p)) (params.n p)).
  change (price_at_S_T p (params.S p) (add (params.T p) (time_step p None)))
    with (price_at
            (with_spot_expiry p (params.S p)
               (add (params.T p) (time_step p None))) (params.n p)).
  change (price_at_S_T p (params.S p)
            (max (sub (params.T p) (time_step p None)) (dec 1 (-8))))
    with (price_at
            (with_spot_expiry p (params.S p)
               (max (sub (params.T p) (time_step p None)) (dec 1 (-8))))
            (params.n p)).
  rewrite H1, H2, H3, H4, H5. cbn [bind]. eauto.
Qed.

(** When the pricer accepts every step count that may be tried, the loop
    returns. *)
Lemma convergence_loop_accepted p nStart nMax tol step k :
  (forall i, (i <= k)%nat -> accepts p (n_seq nStart step i) = true) ->
  leb (n_seq nStart step (k + 1)) nMax = false ->
  forall turns i prev trail fuel,
    (i + turns = k + 1)%nat -> (turns <= fuel)%nat ->
    exists res,
      convergence_loop fuel p nMax tol step (n_seq nStart step i) prev trail
      = Some (Return res).
Proof.
  intros Hacc Hcap.
  induction turns as [|turns IH]; intros i prev trail fuel Hi Hf.
  - replace i with (k + 1)%nat by lia. eexists.
    apply convergence_loop_cap. exact Hcap.
  - destruct (leb (n_seq nStart step i) nMax) eqn:Hle;
      [|eexists; apply convergence_loop_cap; exact Hle].
    destruct fuel as [|fuel]; [lia|].
    destruct (accepts_returns p _ (Hacc i ltac:(lia))) as [curr Hprice].
    cbn [convergence_loop]. rewrite Hle, Hprice.
    destruct (leb (abs (sub curr prev)) tol); [eauto|].
    apply (IH (Datatypes.S i)); lia.
Qed.

Lemma priceWithConvergence_accepted p nStart nMax tol step k fuel :
  driver_accepts p nStart step k = true ->
  leb (n_seq nStart step (k + 1)) nMax = false ->
  (k <= fuel)%nat ->
  exists res,
    priceWithConvergence fuel p nStart nMax tol step = Some (Return res).
Proof.
  intros Hacc Hcap Hf.
  assert (Hall : forall i, (i <= k)%nat ->
                   accepts p (n_seq nStart step i) = true).
  { intros i Hi. unfold driver_accepts in Hacc.
    rewrite forallb_forall in Hacc. apply Hacc. apply in_seq. lia. }
  unfold priceWithConvergence.
  destruct (accepts_returns p _ (Hall 0%nat ltac:(lia))) as [prev Hprev].
  cbn [n_seq] in Hprev. rewrite Hprev.
  apply (convergence_loop_accepted p nStart nMax tol step k Hall Hcap k 1%nat);
    lia.
Qed.

(** When the pricer accepts the parameters of every call and no target is
    given, [run] ends with an empty error line and the placeholder for the
    implied volatility. *)
Lemma run_accepted fuel inputs d :
  validateInputs (form_params inputs) = Return tt ->
  greeks_accepts (form_params inputs) = true ->
  driver_accepts (form_params inputs) default_nStart default_step 39 = true ->
  target_price inputs = None ->
  (39 <= fuel)%nat ->
  exists d',
    run Number_toString RangeError_message width height fuel inputs d = Some d' /\
    error_text d' = EmptyString /\ iv_text d' = "-"%string.
Proof.
  intros Hv Hg Hd Ht Hf.
  assert (Hp : exists price,
             price_at (form_params inputs) (params.n (form_params inputs))
             = Return price).
  { apply accepts_returns. unfold greeks_accepts in Hg. cbv zeta in Hg.
    repeat (apply andb_prop in Hg as [Hg _]). exact Hg. }
  destruct Hp as [price Hp].
  destruct (greeks_accepts_returns _ Hg) as [greek Hgreek].
  destruct (priceWithConvergence_accepted (form_params inputs) default_nStart
              default_nMax default_conv_tol default_step 39 fuel Hd
              ltac:(vm_compute; reflexivity) Hf) as [conv Hconv].
  unfold run, run_try. cbv zeta.
  rewrite Hv, Hp, Hgreek, Hconv, Ht.
  eexists. split; [reflexivity|]. split; reflexivity.
Qed.

End Run.

(** X20: whatever the page shows, [resetDefaults] ends, within 39 turns
    of the convergence loop, with an empty error line and the placeholder
    "-" for the implied volatility: on the defaults of the form every
    computation returns. *)
Theorem resetDefaults_succeeds
    Number_toString RangeError_message width height fuel d :
  (39 <= fuel)%nat ->
  exists d',
    resetDefaults (libm := reference_libm) Number_toString RangeError_message
      width height fuel d
    = Some d' /\
    error_text d' = EmptyString /\ iv_text d' = "-"%string.
Proof.
  intros Hf. unfold resetDefaults.
  apply run_accepted; try assumption.
  - vm_compute. reflexivity.
  - vm_compute. reflexivity.
  - vm_compute. reflexivity.
  - reflexivity.
Qed.

Lemma resetDefaults_succeeds_witness :
  exists d',
    resetDefaults (libm := reference_libm) (fun _ => EmptyString) "Invalid array length" (dec 300 0)
      (dec 150 0) 39 blank_display = Some d' /\
    error_text d' = EmptyString /\ iv_text d' = "-"%string.
Proof.
  apply (resetDefaults_succeeds (fun _ => EmptyString) "Invalid array length" (dec 300 0) (dec 150 0)
           39 blank_display).
  lia.
Defined.

Lemma run_error_empty_iff_witness :
  exists d',
    run (libm := reference_libm) (fun _ => EmptyString) "Invalid array length" (dec 300 0)
      (dec 150 0) 39 nan_spot_inputs blank_display = Some d' /\
    (error_text d' = EmptyString
     <-> all_return (libm := reference_libm) 39 nan_spot_inputs).
Proof.
  eexists. split; [vm_compute; reflexivity|].
  apply (run_error_empty_iff (libm := reference_libm) (fun _ => EmptyString) "Invalid array length"
           (dec 300 0) (dec 150 0) 39 nan_spot_inputs blank_display).
  vm_compute. reflexivity.
Defined.

Lemma run_failure_keeps_outputs_witness :
  exists d',
    run (libm := reference_libm) (fun _ => EmptyString) "Invalid array length" (dec 300 0)
      (dec 150 0) 39 nan_spot_inputs blank_display = Some d' /\
    iv_text d' = iv_text blank_display.
Proof.
  eexists. split; [vm_compute; reflexivity|].
  apply (run_failure_keeps_outputs (libm := reference_libm)
           (fun _ => EmptyString) "Invalid array length" (dec 300 0) (dec 150 0) 39 nan_spot_inputs
           blank_display).
  - vm_compute. reflexivity.
  - discriminate.
Defined.

Lemma run_idempotent_witness :
  exists d1 d2,
    run (libm := reference_libm) (fun _ => EmptyString) "Invalid array length" (dec 300 0)
      (dec 150 0) 39 nan_spot_inputs blank_display = Some d1 /\
    run (libm := reference_libm) (fun _ => EmptyString) "Invalid array length" (dec 300 0)
      (dec 150 0) 39 nan_spot_inputs d1 = Some d2 /\
    same_texts d1 d2.
Proof.
  eexists.
  destruct (run_idempotent (libm := reference_libm) (fun _ => EmptyString) "Invalid array length"
              (dec 300 0) (dec 150 0) 39 nan_spot_inputs blank_display _
              ltac:(vm_compute; reflexivity)) as (d2 & Hrun & Hsame).
  exists d2. split; [vm_compute; reflexivity|]. split; assumption.
Defined.

Lemma run_small_spot_witness :
  run (libm := reference_libm) (fun _ => EmptyString) "Invalid array length" (dec 300 0) (dec 150 0)
    39 {| form_params := small_spot_params; target_price := None |}
    blank_display
  = Some (setError "S and K must be positive." blank_display).
Proof.
  eapply (run_small_spot (libm := reference_libm) (fun _ => EmptyString) "Invalid array length"
            (dec 300 0) (dec 150 0) 39
            {| form_params := small_spot_params; target_price := None |}
            blank_display).
  - vm_compute. reflexivity.
  - vm_compute. reflexivity.
Defined.

(** *** The chart stays within its padding *)

Lemma min_le x y :
  isNaN x = false -> isNaN y = false ->
  leb (min x y) x = true /\ leb (min x y) y = true.
Proof.
  intros Hx Hy.
  assert (Hm : min x y = if ltb x y then x else if ltb y x then y
                         else if signbit x then x else y)
    by (destruct x, y; try discriminate; reflexivity).
  rewrite Hm.
  pose proof (F64_facts.not_ltb_leb x y Hx Hy) as H1.
  pose proof (F64_facts.not_ltb_leb y x Hy Hx) as H2.
  destruct (ltb x y) eqn:E1.
  - split; [apply F64_facts.leb_refl|apply F64_facts.ltb_leb]; assumption.
  - destruct (ltb y x) eqn:E2.
    + split; [apply F64_facts.ltb_leb|apply F64_facts.leb_refl]; assumption.
    + cbn [negb] in H1, H2.
      destruct (signbit x); split; auto using F64_facts.leb_refl.
Qed.

Lemma min_cases x y : min x y = NaN \/ min x y = x \/ min x y = y.
Proof.
  destruct x, y; cbn [min]; auto;
    repeat match goal with
           | |- context [if ?c then _ else _] => destruct c
           end; auto.
Qed.

(** [Math.min(...values)] is below its arguments and, for finite
    arguments, one of them; likewise [Math.max]. *)
Lemma fold_min_spec values :
  forall acc,
    isNaN acc = false ->
    (forall x, In x values -> isNaN x = false) ->
    (fold_left min values acc = acc \/ In (fold_left min values acc) values)
    /\ leb (fold_left min values acc) acc = true
    /\ forall x, In x values -> leb (fold_left min values acc) x = true.
Proof.
  induction values as [|a values IH]; intros acc Nacc Hall.
  - cbn. split; [auto|]. split; [apply F64_facts.leb_refl; exact Nacc|].
    intros x [].
  - cbn [fold_left].
    assert (Na : isNaN a = false) by (apply Hall; left; reflexivity).
    destruct (min_le acc a Nacc Na) as [Hl Hr].
    assert (Nm : isNaN (min acc a) = false)
      by (apply F64_facts.leb_notnan in Hl; apply Hl).
    destruct (IH (min acc a) Nm ltac:(intros x Hx; apply Hall; right; exact Hx))
      as (Hin & Hle & Hbelow).
    split; [|split].
    + destruct Hin as [E|Hin]; [|right; right; exact Hin].
      rewrite E. destruct (min_cases acc a) as [E'|[E'|E']].
      * rewrite E' in Nm. discriminate.
      * left. exact E'.
      * right. left. symmetry. exact E'.
    + exact (F64_facts.leb_trans _ _ _ Hle Hl).
    + intros x [<-|Hx]; [exact (F64_facts.leb_trans _ _ _ Hle Hr)|].
      apply Hbelow. exact Hx.
Qed.

Lemma fold_max_spec values :
  forall acc,
    isNaN acc = false ->
    (forall x, In x values -> isNaN x = false) ->
    (fold_left max values acc = acc \/ In (fold_left max values acc) values)
    /\ leb acc (fold_left max values acc) = true
    /\ forall x, In x values -> leb x (fold_left max values acc) = true.
Proof.
  induction values as [|a values IH]; intros acc Nacc Hall.
  - cbn. split; [auto|]. split; [apply F64_facts.leb_refl; exact Nacc|].
    intros x [].
  - cbn [fold_left].
    assert (Na : isNaN a = false) by (apply Hall; left; reflexivity).
    destruct (F64_facts.max_ge acc a Nacc Na) as [Hl Hr].
    assert (Nm : isNaN (max acc a) = false)
      by (apply F64_facts.leb_notnan in Hl; apply Hl).
    destruct (IH (max acc a) Nm ltac:(intros x Hx; apply Hall; right; exact Hx))
      as (Hin & Hle & Habove).
    split; [|split].
    + destruct Hin as [E|Hin]; [|right; right; exact Hin].
      rewrite E. destruct (F64_order.max_cases acc a) as [E'|[E'|E']].
      * rewrite E' in Nm. discriminate.
      * left. exact E'.
      * right. left. symmetry. exact E'.
    + exact (F64_facts.leb_trans _ _ _ Hl Hle).
    + intros x [<-|Hx]; [exact (F64_facts.leb_trans _ _ _ Hr Hle)|].
      apply Habove. exact Hx.
Qed.

Lemma min_of_spec values :
  values <> [] -> (forall x, In x values -> finite x = true) ->
  In (min_of values) values /\
  forall x, In x values -> leb (min_of values) x = true.
Proof.
  intros Hne Hall. unfold min_of.
  destruct (fold_min_spec values (Inf false) eq_refl
              ltac:(intros x Hx; apply F64_facts.finite_notnan, Hall, Hx))
    as (Hin & _ & Hbelow).
  split; [|exact Hbelow].
  destruct Hin as [E|Hin]; [|exact Hin].
  destruct values as [|a values]; [contradiction|].
  specialize (Hbelow a ltac:(left; reflexivity)).
  specialize (Hall a ltac:(left; reflexivity)).
  rewrite E in Hbelow. destruct a; discriminate.
Qed.

Lemma max_of_spec values :
  values <> [] -> (forall x, In x values -> finite x = true) ->
  In (max_of values) values /\
  forall x, In x values -> leb x (max_of values) = true.
Proof.
  intros Hne Hall. unfold max_of.
  destruct (fold_max_spec values (Inf true) eq_refl
              ltac:(intros x Hx; apply F64_facts.finite_notnan, Hall, Hx))
    as (Hin & _ & Habove).
  split; [|exact Habove].
  destruct Hin as [E|Hin]; [|exact Hin].
  destruct values as [|a values]; [contradiction|].
  specialize (Habove a ltac:(left; reflexivity)).
  specialize (Hall a ltac:(left; reflexivity)).
  rewrite E in Habove. destruct a; discriminate.
Qed.

(** Sums and differences of integers below 2^53 are exact. *)
Lemma of_Z_add a b :
  0 <= a -> 0 <= b -> a + b < F64.pow2 53 ->
  add (of_Z a) (of_Z b) = of_Z (a + b).
Proof.
  intros Ha Hb Hs. rewrite (of_Z_exact a), (of_Z_exact b) by lia.
  cbn [add toZ]. unfold of_Z.
  pose proof F64_exact.unit_scale_pos as HU.
  replace (a * unit_scale + b * unit_scale) with ((a + b) * unit_scale)
    by lia.
  destruct (Z.ltb_spec ((a + b) * unit_scale) 0); [nia|].
  destruct (Z.ltb_spec (a + b) 0); [lia|].
  rewrite Z.abs_mul, (Z.abs_eq unit_scale) by lia. reflexivity.
Qed.

Lemma of_Z_sub a b :
  0 <= b <= a -> a < F64.pow2 53 ->
  sub (of_Z a) (of_Z b) = of_Z (a - b).
Proof.
  intros Hb Ha. rewrite (of_Z_exact a), (of_Z_exact b) by lia.
  pose proof F64_exact.unit_scale_pos as HU.
  unfold sub. cbn [neg].
  assert (Hs : add (Fin (a * unit_scale))
                 (if b * unit_scale =? 0 then NZero
                  else Fin (- (b * unit_scale)))
               = round ((a - b) * unit_scale <? 0)
                       (Z.abs ((a - b) * unit_scale)) 0).
  { destruct (Z.eqb_spec (b * unit_scale) 0) as [E|E]; cbn [add toZ].
    - replace (a * unit_scale + 0) with ((a - b) * unit_scale) by nia.
      reflexivity.
    - replace (a * unit_scale + - (b * unit_scale))
        with ((a - b) * unit_scale) by lia.
      reflexivity. }
  rewrite Hs. unfold of_Z.
  destruct (Z.ltb_spec ((a - b) * unit_scale) 0); [nia|].
  destruct (Z.ltb_spec (a - b) 0); [lia|].
  rewrite Z.abs_mul, (Z.abs_eq unit_scale) by lia. reflexivity.
Qed.

Lemma of_Z_finite n :
  0 <= n < F64.pow2 53 ->
  finite (of_Z n) = true /\ toZ (of_Z n) = n * unit_scale /\
  representable (of_Z n).
Proof.
  intros Hn. rewrite of_Z_exact by assumption.
  split; [reflexivity|]. split; [reflexivity|].
  rewrite <- of_Z_exact by assumption. unfold of_Z.
  apply F64_exact.round_representable; [lia|].
  pose proof F64_exact.unit_scale_pos. nia.
Qed.

Lemma positive_signbit c :
  finite c = true -> 0 < toZ c -> signbit c = false.
Proof.
  destruct c as [| | |kc]; try discriminate; cbn [signbit toZ]; intros _ H;
    first [lia|apply Z.ltb_ge; lia].
Qed.

Lemma signbit_not_positive a :
  finite a = true -> signbit a = true -> toZ a <= 0.
Proof.
  destruct a as [| | |ka]; try discriminate; cbn [signbit toZ]; intros _ H;
    first [lia|apply Z.ltb_lt in H; lia].
Qed.

Lemma div_finite a c :
  finite a = true -> finite c = true -> toZ c <> 0 ->
  div a c
  = round_ratio (xorb (signbit a) (signbit c))
      (Z.abs (toZ a) * unit_scale) (Z.abs (toZ c)).
Proof.
  intros Fa Fc Hc.
  destruct c as [| | |kc]; [discriminate|discriminate|elim Hc; reflexivity|].
  cbn [toZ] in Hc.
  destruct a as [| | |ka]; [discriminate|discriminate| |];
    cbn [div toZ]; (destruct (Z.eqb_spec kc 0); [contradiction|reflexivity]).
Qed.

(** A quotient of [0 <= a <= c], [0 < c], lies in [0, 1]. *)
Lemma div_unit_interval a c :
  finite a = true -> finite c = true ->
  0 <= toZ a <= toZ c -> 0 < toZ c ->
  finite (div a c) = true /\ 0 <= toZ (div a c) <= unit_scale.
Proof.
  intros Fa Fc [Ha Hac] Hc.
  pose proof F64_exact.unit_scale_pos as HU.
  assert (H8 : round_mag (unit_scale * F64.pow2 3) 3 = unit_scale)
    by (rewrite F64_exact.round_mag_scale by lia;
        apply F64_exact.one_representable).
  rewrite (div_finite a c Fa Fc ltac:(lia)), F64_exact.round_ratio_eq.
  rewrite (Z.abs_eq (toZ a)), (Z.abs_eq (toZ c)) by lia.
  set (m := if (4 * (toZ a * unit_scale)) mod toZ c =? 0
            then 2 * (4 * (toZ a * unit_scale) / toZ c)
            else 2 * (4 * (toZ a * unit_scale) / toZ c) + 1).
  assert (Hq0 : 0 <= 4 * (toZ a * unit_scale) / toZ c)
    by (apply Z.div_pos; nia).
  assert (Hm0 : 0 <= m) by (unfold m; destruct (_ =? 0); lia).
  assert (Hm8 : m <= unit_scale * F64.pow2 3).
  { change (F64.pow2 3) with 8. unfold m.
    destruct (Z.eq_dec (toZ a) (toZ c)) as [E|E].
    - rewrite E.
      replace (4 * (toZ c * unit_scale)) with (4 * unit_scale * toZ c)
        by lia.
      rewrite Z.mod_mul, Z.div_mul by lia. cbn [Z.eqb]. lia.
    - assert (4 * (toZ a * unit_scale) / toZ c < 4 * unit_scale)
        by (apply Z.div_lt_upper_bound; nia).
      destruct (_ =? 0); lia. }
  pose proof (F64_facts.round_mag_mono m (unit_scale * F64.pow2 3) 3
                ltac:(lia) ltac:(lia)) as Hmono.
  rewrite H8 in Hmono.
  pose proof (F64_facts.round_mag_nonneg m 3 ltac:(lia) Hm0) as Hnn.
  pose proof F64_exact.unit_scale_small as HT.
  destruct (F64_facts.round_cases (xorb (signbit a) (signbit c)) m 3
              ltac:(lia) Hm0) as [[Hbig _]|(_ & F & V)]; [lia|].
  split; [exact F|]. rewrite V.
  destruct (xorb (signbit a) (signbit c)) eqn:Hs; [|lia].
  (* a negative sign: the numerator is -0 and the quotient is zero *)
  rewrite (positive_signbit c Fc Hc), xorb_false_r in Hs.
  pose proof (signbit_not_positive a Fa Hs) as Ta.
  assert (toZ a = 0) as Ta' by lia. clear Ta. rename Ta' into Ta.
  assert (Hmz : m = 0).
  { unfold m. rewrite Ta, Z.mul_0_l, Z.mul_0_r, Z.mod_0_l, Z.div_0_l by lia.
    reflexivity. }
  rewrite Hmz, F64_facts.round_mag_0 by lia. lia.
Qed.

(** A result that rounds a number between two binary64 numbers lies
    between them. *)
Lemma rounded_between x z lo hi :
  unsigned_zero x = unsigned_zero (rnd z 0) ->
  lo <= z <= hi -> representable (Fin lo) -> representable (Fin hi) ->
  finite x = true /\ lo <= toZ x <= hi.
Proof.
  intros Hx [Hlo Hhi] Rlo Rhi.
  pose proof (F64_facts.rnd_mono lo z 0 ltac:(lia) Hlo) as H1.
  pose proof (F64_facts.rnd_mono z hi 0 ltac:(lia) Hhi) as H2.
  rewrite F64_facts.leb_unsigned_zero, (F64_exact.rnd_representable lo Rlo),
    <- Hx in H1.
  rewrite F64_facts.leb_unsigned_zero, (F64_exact.rnd_representable hi Rhi),
    <- Hx in H2.
  rewrite <- (F64_exact.finite_unsigned_zero x),
          <- (F64_exact.toZ_unsigned_zero x).
  destruct (unsigned_zero x) as [|s| |k]; try discriminate.
  - destruct s; discriminate.
  - cbn [leb toZ] in *. apply Z.leb_le in H1, H2. auto.
  - cbn [leb toZ] in *. apply Z.leb_le in H1, H2. auto.
Qed.

Lemma integer_representable n :
  0 <= n < F64.pow2 53 -> representable (Fin (n * unit_scale)).
Proof.
  intros Hn. rewrite <- of_Z_exact by assumption.
  apply of_Z_finite. exact Hn.
Qed.

Lemma zero_representable : representable (Fin 0).
Proof. exact (integer_representable 0 ltac:(vm_compute; split; congruence)). Qed.

(** A factor in [0,1] times an integer [n], and the result moved by an
    integer. *)
Lemma scaled_within r n :
  finite r = true -> 0 <= toZ r <= unit_scale -> 0 <= n < F64.pow2 53 ->
  finite (mul r (of_Z n)) = true /\
  0 <= toZ (mul r (of_Z n)) <= n * unit_scale.
Proof.
  intros Fr Hr Hn.
  destruct (of_Z_finite n Hn) as (Fn & Tn & _).
  apply (rounded_between _ (toZ r * n)).
  - rewrite F64_facts.mul_finite, Tn by assumption.
    replace (toZ r * (n * unit_scale)) with (toZ r * n * F64.pow2 1074)
      by (unfold unit_scale; lia).
    rewrite F64_exact.rnd_scale by lia. reflexivity.
  - nia.
  - exact zero_representable.
  - apply integer_representable. exact Hn.
Qed.

Lemma added_within a t n :
  finite t = true -> 0 <= toZ t <= n * unit_scale ->
  0 <= a -> 0 <= n -> a + n < F64.pow2 53 ->
  finite (add (of_Z a) t) = true /\
  a * unit_scale <= toZ (add (of_Z a) t) <= (a + n) * unit_scale.
Proof.
  intros Ft Ht Ha Hn Hs.
  destruct (of_Z_finite a ltac:(lia)) as (Fa & Ta & _).
  apply (rounded_between _ (a * unit_scale + toZ t)).
  - rewrite F64_facts.add_finite, Ta by assumption. reflexivity.
  - lia.
  - apply integer_representable. lia.
  - apply integer_representable. lia.
Qed.

Lemma subtracted_within a t n :
  finite t = true -> 0 <= toZ t <= n * unit_scale ->
  0 <= n <= a -> a < F64.pow2 53 ->
  finite (sub (of_Z a) t) = true /\
  (a - n) * unit_scale <= toZ (sub (of_Z a) t) <= a * unit_scale.
Proof.
  intros Ft Ht Hn Ha.
  destruct (of_Z_finite a ltac:(lia)) as (Fa & Ta & _).
  apply (rounded_between _ (a * unit_scale - toZ t)).
  - rewrite F64_facts.sub_finite, Ta by assumption. reflexivity.
  - lia.
  - apply integer_representable. lia.
  - apply integer_representable. lia.
Qed.

(** The divisor [trail.length - 1 || 1]. *)
Lemma chart_divisor len :
  (1 <= len)%nat -> Z.of_nat len < F64.pow2 53 ->
  exists D,
    1 <= D /\ Z.of_nat len - 1 <= D /\
    or_else (sub (of_nat len) one) one = Fin (D * unit_scale).
Proof.
  intros H1 Hlen. rewrite of_nat_pred by assumption.
  unfold of_nat. rewrite of_Z_exact by lia.
  pose proof F64_exact.unit_scale_pos as HU.
  unfold or_else, truthy.
  destruct (Z.eqb_spec (Z.of_nat (len - 1) * unit_scale) 0) as [E|E];
    cbn [negb].
  - exists 1. split; [lia|]. split; [nia|].
    unfold one. rewrite Z.mul_1_l. reflexivity.
  - exists (Z.of_nat (len - 1)). split; [nia|]. split; [lia|reflexivity].
Qed.

Lemma padding_integer : padding = of_Z 20.
Proof. vm_compute. reflexivity. Qed.

Lemma doubled_padding_integer : mul padding (dec 2 0) = of_Z 40.
Proof. vm_compute. reflexivity. Qed.

Lemma marker_radius_finite : finite (dec 4 0) = true.
Proof. vm_compute. reflexivity. Qed.

Lemma full_turn_finite : finite (mul Math_PI (dec 2 0)) = true.
Proof. vm_compute. reflexivity. Qed.

Lemma last_in {A : Type} (l : list A) :
  forall x d, In (List.last (x :: l) d) (x :: l).
Proof.
  induction l as [|y l IH]; intros x d; [left; reflexivity|].
  change (List.last (x :: y :: l) d) with (List.last (y :: l) d).
  right. apply IH.
Qed.

(** *** The path stroked and the marker filled *)

Lemma path_step_plots path op :
  plots op = true -> path_step path op = path ++ [op].
Proof.
  destruct op; intros Hop; try discriminate Hop;
    cbn [plots] in Hop; cbn [path_step]; rewrite Hop; reflexivity.
Qed.

(** Calls that add a point each extend the current path. *)
Lemma stroked_plots ops :
  forall path rest,
    forallb plots ops = true ->
    stroked path (ops ++ rest) = stroked (path ++ ops) rest.
Proof.
  induction ops as [|op ops IH]; intros path rest Hops.
  - rewrite app_nil_r. reflexivity.
  - cbn [forallb] in Hops. apply andb_prop in Hops as [Hop Hops].
    replace (stroked path ((op :: ops) ++ rest))
      with (stroked (path_step path op) (ops ++ rest))
      by (destruct op; try discriminate Hop; reflexivity).
    rewrite (path_step_plots path op Hop), IH by exact Hops.
    rewrite <- app_assoc. reflexivity.
Qed.

Lemma filled_plots ops :
  forall path rest,
    forallb plots ops = true ->
    filled path (ops ++ rest) = filled (path ++ ops) rest.
Proof.
  induction ops as [|op ops IH]; intros path rest Hops.
  - rewrite app_nil_r. reflexivity.
  - cbn [forallb] in Hops. apply andb_prop in Hops as [Hop Hops].
    replace (filled path ((op :: ops) ++ rest))
      with (filled (path_step path op) (ops ++ rest))
      by (destruct op; try discriminate Hop; reflexivity).
    rewrite (path_step_plots path op Hop), IH by exact Hops.
    rewrite <- app_assoc. reflexivity.
Qed.

Lemma points_path_from width height len lo span points :
  forall idx,
    flat_map point_of (path_from width height len lo span idx points)
    = map (fun ip =>
             (chart_x width (of_nat (fst ip)) len,
              chart_y height (entry_price (snd ip)) lo span))
          (combine (seq idx (List.length points)) points).
Proof.
  induction points as [|point rest IH]; intros idx; [reflexivity|].
  cbn [path_from List.length seq combine map fst snd flat_map].
  rewrite <- IH. unfold path_op.
  destruct (idx =? 0)%nat; reflexivity.
Qed.

Lemma centres_path_from width height len lo span points :
  forall idx,
    flat_map centre_of (path_from width height len lo span idx points) = [].
Proof.
  induction points as [|point rest IH]; intros idx; [reflexivity|].
  cbn [path_from flat_map]. rewrite IH. unfold path_op.
  destruct (idx =? 0)%nat; reflexivity.
Qed.

Section ChartBounds.

Variables W H : nat.

Hypothesis HW : (40 <= W)%nat.
Hypothesis HW53 : Z.of_nat W < F64.pow2 53.
Hypothesis HH : (40 <= H)%nat.
Hypothesis HH53 : Z.of_nat H < F64.pow2 53.

Lemma chart_x_within idx len :
  (idx < len)%nat -> Z.of_nat len < F64.pow2 53 ->
  finite (chart_x (of_nat W) (of_nat idx) len) = true /\
  leb padding (chart_x (of_nat W) (of_nat idx) len) = true /\
  leb (chart_x (of_nat W) (of_nat idx) len) (sub (of_nat W) padding) = true.
Proof.
  intros Hidx Hlen. unfold chart_x.
  destruct (chart_divisor len ltac:(lia) Hlen) as (D & HD1 & HD & ->).
  rewrite doubled_padding_integer, padding_integer. unfold of_nat.
  rewrite !of_Z_sub by lia.
  pose proof F64_exact.unit_scale_pos as HU.
  assert (Hr : finite (div (of_Z (Z.of_nat idx)) (Fin (D * unit_scale)))
               = true /\
               0 <= toZ (div (of_Z (Z.of_nat idx)) (Fin (D * unit_scale)))
               <= unit_scale).
  { rewrite of_Z_exact by lia.
    apply div_unit_interval; try reflexivity; cbn [toZ]; nia. }
  destruct Hr as [Fr Hr].
  destruct (scaled_within _ (Z.of_nat W - 40) Fr Hr ltac:(lia)) as [Ft Ht].
  destruct (added_within 20 _ (Z.of_nat W - 40) Ft Ht ltac:(lia) ltac:(lia)
              ltac:(lia)) as [Fx Hx].
  destruct (of_Z_finite 20 ltac:(lia)) as (F20 & T20 & _).
  destruct (of_Z_finite (Z.of_nat W - 20) ltac:(lia)) as (Fw & Tw & _).
  split; [exact Fx|].
  rewrite !F64_facts.leb_finite by assumption. rewrite T20, Tw.
  split; apply Z.leb_le; lia.
Qed.

(** The ratio [(price - min) / span] lies in [0,1]. *)
Lemma chart_ratio_within prices price :
  (forall x, In x prices -> plain_price x) -> In price prices ->
  let lo := min_of prices in
  let span := or_else (sub (max_of prices) lo) one in
  finite (div (sub price lo) span) = true /\
  0 <= toZ (div (sub price lo) span) <= unit_scale.
Proof.
  intros Hall Hin lo span.
  assert (Hne : prices <> []) by (intros ->; contradiction).
  assert (Hfin : forall x, In x prices -> finite x = true)
    by (intros x Hx; apply Hall; exact Hx).
  destruct (min_of_spec prices Hne Hfin) as [Hlo_in Hlo].
  destruct (max_of_spec prices Hne Hfin) as [Hhi_in Hhi].
  fold lo in Hlo_in, Hlo. set (hi := max_of prices) in *.
  destruct (Hall lo Hlo_in) as (Flo & Rlo & Plo).
  destruct (Hall hi Hhi_in) as (Fhi & Rhi & Phi).
  destruct (Hall price Hin) as (Fp & Rp & Pp).
  pose proof (Hlo price Hin) as Hlp. pose proof (Hhi price Hin) as Hph.
  unfold zero in Plo. rewrite F64_facts.leb_finite in Plo, Hlp, Hph
    by (assumption || reflexivity).
  cbn [toZ] in Plo. apply Z.leb_le in Plo, Hlp, Hph.
  assert (Rhi' : representable (Fin (toZ hi)))
    by (destruct hi; try discriminate;
        [exact zero_representable|exact Rhi]).
  destruct (rounded_between (sub price lo) (toZ price - toZ lo) 0 (toZ hi)
              (F64_facts.sub_finite _ _ Fp Flo) ltac:(lia)
              zero_representable Rhi') as [Fa Ha].
  destruct (rounded_between (sub hi lo) (toZ hi - toZ lo) 0 (toZ hi)
              (F64_facts.sub_finite _ _ Fhi Flo) ltac:(lia)
              zero_representable Rhi') as [Fd Hd].
  assert (Had : toZ (sub price lo) <= toZ (sub hi lo)).
  { assert (Hle : leb (sub price lo) (sub hi lo) = true).
    { rewrite F64_facts.leb_unsigned_zero, !F64_facts.sub_finite,
        <- F64_facts.leb_unsigned_zero by assumption.
      apply F64_facts.rnd_mono; lia. }
    rewrite F64_facts.leb_finite in Hle by assumption.
    apply Z.leb_le. exact Hle. }
  pose proof F64_exact.unit_scale_pos as HU.
  unfold span, or_else.
  destruct (truthy (sub hi lo)) eqn:Ht.
  - apply div_unit_interval; try assumption; [lia|].
    destruct (sub hi lo) as [| | |k]; try discriminate.
    cbn [truthy toZ] in *. apply negb_true_iff, Z.eqb_neq in Ht. lia.
  - assert (toZ (sub hi lo) = 0).
    { destruct (sub hi lo) as [| | |k]; try discriminate; [reflexivity|].
      cbn [truthy toZ] in *. apply negb_false_iff, Z.eqb_eq in Ht.
      exact Ht. }
    apply div_unit_interval; try assumption; try reflexivity;
      unfold one; cbn [toZ]; lia.
Qed.

Lemma chart_y_within prices price :
  (forall x, In x prices -> plain_price x) -> In price prices ->
  let lo := min_of prices in
  let span := or_else (sub (max_of prices) lo) one in
  finite (chart_y (of_nat H) price lo span) = true /\
  leb padding (chart_y (of_nat H) price lo span) = true /\
  leb (chart_y (of_nat H) price lo span) (sub (of_nat H) padding) = true.
Proof.
  intros Hall Hin lo span.
  destruct (chart_ratio_within prices price Hall Hin) as [Fr Hr].
  fold lo span in Fr, Hr. unfold chart_y.
  rewrite doubled_padding_integer, padding_integer. unfold of_nat.
  rewrite !of_Z_sub by lia.
  destruct (scaled_within _ (Z.of_nat H - 40) Fr Hr ltac:(lia)) as [Ft Ht].
  destruct (subtracted_within (Z.of_nat H - 20) _ (Z.of_nat H - 40) Ft Ht
              ltac:(lia) ltac:(lia)) as [Fy Hy].
  destruct (of_Z_finite 20 ltac:(lia)) as (F20 & T20 & _).
  destruct (of_Z_finite (Z.of_nat H - 20) ltac:(lia)) as (Fh & Th & _).
  split; [exact Fy|].
  rewrite !F64_facts.leb_finite by assumption. rewrite T20, Th.
  pose proof F64_exact.unit_scale_pos as HU.
  split; apply Z.leb_le; nia.
Qed.

(** Every call of the loop of [drawConvergence] adds a point to the
    path. *)
Lemma path_from_plots prices len points :
  (forall x, In x prices -> plain_price x) ->
  Z.of_nat len < F64.pow2 53 ->
  forall idx,
    (forall point, In point points -> In (entry_price point) prices) ->
    (idx + List.length points <= len)%nat ->
    forallb plots
      (path_from (of_nat W) (of_nat H) len (min_of prices)
         (or_else (sub (max_of prices) (min_of prices)) one) idx points)
    = true.
Proof.
  intros Hall Hlen.
  induction points as [|point rest IH]; intros idx Hin Hidx; [reflexivity|].
  cbn [List.length] in Hidx. cbn [path_from forallb].
  rewrite IH by (try (intros q Hq; apply Hin; right; exact Hq); lia).
  rewrite andb_true_r. unfold path_op. cbv zeta.
  destruct (chart_x_within idx len ltac:(lia) Hlen) as (Fx & _).
  destruct (chart_y_within prices (entry_price point) Hall
              (Hin point (or_introl eq_refl))) as (Fy & _).
  cbv zeta in Fy.
  destruct (idx =? 0)%nat; cbn [plots]; rewrite Fx, Fy; reflexivity.
Qed.

(** The path stroked has the point of every entry of the trail, and the
    path filled is the arc at the last of them. *)
Lemma drawConvergence_draws first points :
  Z.of_nat (List.length (first :: points)) < F64.pow2 53 ->
  (forall entry, In entry (first :: points) ->
                 plain_price (entry_price entry)) ->
  let prices := map entry_price (first :: points) in
  let lo := min_of prices in
  let span := or_else (sub (max_of prices) lo) one in
  let len := List.length (first :: points) in
  vertices (drawConvergence (of_nat W) (of_nat H) (first :: points))
  = map (fun ip =>
           (chart_x (of_nat W) (of_nat (fst ip)) len,
            chart_y (of_nat H) (entry_price (snd ip)) lo span))
        (combine (seq 0 len) (first :: points)) /\
  arc_centres (drawConvergence (of_nat W) (of_nat H) (first :: points))
  = [ (chart_x (of_nat W) (sub (of_nat len) one) len,
       chart_y (of_nat H)
         (entry_price (List.last (first :: points) first)) lo span) ].
Proof.
  intros Hlen Hall prices lo span len.
  assert (Hprices : forall x, In x prices -> plain_price x).
  { intros x Hx. unfold prices in Hx. apply in_map_iff in Hx as (e & <- & He).
    apply Hall. exact He. }
  assert (Hplots : forallb plots
                     (path_from (of_nat W) (of_nat H) len lo span 0
                        (first :: points)) = true).
  { apply path_from_plots;
      [exact Hprices|exact Hlen| |unfold len; cbn [Nat.add]; lia].
    intros point Hpoint. unfold prices. apply in_map. exact Hpoint. }
  assert (H1 : (1 <= len)%nat) by (unfold len; cbn [List.length]; lia).
  assert (Fx : finite (chart_x (of_nat W) (sub (of_nat len) one) len) = true).
  { rewrite (of_nat_pred len H1 Hlen).
    apply (chart_x_within (len - 1) len); [lia|exact Hlen]. }
  assert (Fy : finite (chart_y (of_nat H)
                         (entry_price (List.last (first :: points) first))
                         lo span) = true).
  { apply (chart_y_within prices _ Hprices).
    unfold prices. apply in_map. apply last_in. }
  unfold vertices, arc_centres, drawConvergence. cbv zeta.
  fold prices. fold lo. fold span. fold len.
  cbn [app stroked filled path_step].
  rewrite (stroked_plots _ [] _ Hplots), (filled_plots _ [] _ Hplots).
  cbn [app stroked filled path_step].
  rewrite Fx, Fy, marker_radius_finite, full_turn_finite.
  cbn [finite zero andb app flat_map centre_of].
  rewrite !app_nil_r, points_path_from. split; reflexivity.
Qed.

(** X15: on a canvas at least 40 wide and 40 high and for a trail that is
    not empty and whose prices are binary64 numbers that are not negative,
    the path that [drawConvergence] strokes has one point for each entry
    of the trail, and the one marker that it fills is centred on the last
    point of the path. *)
Theorem drawConvergence_marker trail :
  trail <> [] -> Z.of_nat (List.length trail) < F64.pow2 53 ->
  (forall entry, In entry trail -> plain_price (entry_price entry)) ->
  exists v rest,
    vertices (drawConvergence (of_nat W) (of_nat H) trail) = v :: rest /\
    List.length (v :: rest) = List.length trail /\
    arc_centres (drawConvergence (of_nat W) (of_nat H) trail)
    = [List.last rest v].
Proof.
  intros Hne Hlen Hall. destruct trail as [|first points]; [contradiction|].
  clear Hne.
  destruct (drawConvergence_draws first points Hlen Hall) as [Hv Ha].
  cbv zeta in Hv, Ha. rewrite Hv, Ha. clear Hv Ha.
  set (prices := map entry_price (first :: points)).
  set (lo := min_of prices).
  set (span := or_else (sub (max_of prices) lo) one).
  set (len := List.length (first :: points)).
  assert (Hlen' : Z.of_nat len < F64.pow2 53) by exact Hlen.
  assert (H1 : (1 <= len)%nat) by (unfold len; cbn [List.length]; lia).
  set (pos := fun ip : nat * trail_entry =>
                (chart_x (of_nat W) (of_nat (fst ip)) len,
                 chart_y (of_nat H) (entry_price (snd ip)) lo span)).
  assert (Hlast : forall d,
             List.last (map pos (combine (seq 0 len) (first :: points))) d
             = (chart_x (of_nat W) (sub (of_nat len) one) len,
                chart_y (of_nat H)
                  (entry_price (List.last (first :: points) first)) lo span)).
  { intros d.
    assert (Hc : combine (seq 0 len) (first :: points) <> [])
      by (unfold len; cbn; intros Hnil; discriminate Hnil).
    rewrite (app_removelast_last (0%nat, first) Hc) at 1.
    rewrite map_app. cbn [map]. rewrite last_last.
    unfold len at 1. rewrite last_indexed. unfold pos. cbn [fst snd].
    rewrite (of_nat_pred len H1 Hlen').
    f_equal. f_equal. f_equal. unfold len. cbn [List.length]. lia. }
  destruct (map pos (combine (seq 0 len) (first :: points)))
    as [|v rest] eqn:Hm.
  - apply (f_equal (@List.length _)) in Hm.
    rewrite length_map, length_combine, length_seq in Hm.
    unfold len in Hm. cbn in Hm. lia.
  - exists v, rest. split; [reflexivity|]. split.
    + rewrite <- Hm, length_map, length_combine, length_seq.
      unfold len. lia.
    + f_equal. rewrite <- (Hlast v).
      destruct rest as [|w rest]; [reflexivity|].
      change (List.last (v :: w :: rest) v) with (List.last (w :: rest) v).
      reflexivity.
Qed.

(** X21: on a canvas at least 40 wide and 40 high, the path that
    [drawConvergence] strokes has one point for each entry of the trail and
    every one of them lies within the padding of 20, when the prices of
    the trail are binary64 numbers that are not negative. *)
Theorem drawConvergence_within_padding trail :
  Z.of_nat (List.length trail) < F64.pow2 53 ->
  (forall entry, In entry trail -> plain_price (entry_price entry)) ->
  List.length (vertices (drawConvergence (of_nat W) (of_nat H) trail))
  = List.length trail /\
  Forall (fun v => inside_padding (of_nat W) (of_nat H) v = true)
         (vertices (drawConvergence (of_nat W) (of_nat H) trail)).
Proof.
  intros Hlen Hall.
  destruct trail as [|first points]; [split; [reflexivity|constructor]|].
  destruct (drawConvergence_draws first points Hlen Hall) as [Hv _].
  cbv zeta in Hv. rewrite Hv. clear Hv.
  set (prices := map entry_price (first :: points)).
  assert (Hprices : forall x, In x prices -> plain_price x).
  { intros x Hx. unfold prices in Hx. apply in_map_iff in Hx as (e & <- & He).
    apply Hall. exact He. }
  split.
  { rewrite length_map, length_combine, length_seq. apply Nat.min_id. }
  apply Forall_forall. intros v Hv.
  apply in_map_iff in Hv as ([idx point] & <- & Hin).
  pose proof (in_combine_l _ _ _ _ Hin) as Hidx.
  pose proof (in_combine_r _ _ _ _ Hin) as Hpoint.
  apply in_seq in Hidx. cbn [fst snd].
  assert (Hp : In (entry_price point) prices)
    by (unfold prices; apply in_map; exact Hpoint).
  destruct (chart_x_within idx (List.length (first :: points))
              ltac:(lia) Hlen) as (_ & Hx1 & Hx2).
  destruct (chart_y_within prices (entry_price point) Hprices Hp)
    as (_ & Hy1 & Hy2).
  unfold inside_padding. cbn [fst snd].
  rewrite Hx1, Hx2, Hy1, Hy2. reflexivity.
Qed.

End ChartBounds.

Lemma drawConvergence_marker_witness :
  exists v rest,
    vertices (drawConvergence (of_nat 300) (of_nat 150)
                [ {| entry_n := dec 50 0; entry_price := dec 5 0 |};
                  {| entry_n := dec 100 0; entry_price := dec 7 0 |} ])
    = v :: rest /\
    arc_centres (drawConvergence (of_nat 300) (of_nat 150)
                   [ {| entry_n := dec 50 0; entry_price := dec 5 0 |};
                     {| entry_n := dec 100 0; entry_price := dec 7 0 |} ])
    = [List.last rest v].
Proof.
  destruct (drawConvergence_marker 300 150
              ltac:(lia) ltac:(vm_compute; reflexivity)
              ltac:(lia) ltac:(vm_compute; reflexivity)
              [ {| entry_n := dec 50 0; entry_price := dec 5 0 |};
                {| entry_n := dec 100 0; entry_price := dec 7 0 |} ])
    as (v & rest & Hv & _ & Ha).
  - intros Hnil. discriminate Hnil.
  - vm_compute. reflexivity.
  - intros entry [<-|[<-|[]]]; vm_compute; repeat split; reflexivity.
  - exists v, rest. split; [exact Hv|exact Ha].
Defined.

Lemma drawConvergence_within_padding_witness :
  List.length
    (vertices
       (drawConvergence (of_nat 300) (of_nat 150)
          [ {| entry_n := dec 50 0; entry_price := dec 5 0 |};
            {| entry_n := dec 100 0; entry_price := dec 7 0 |} ]))
  = 2%nat /\
  Forall (fun v => inside_padding (of_nat 300) (of_nat 150) v = true)
    (vertices
       (drawConvergence (of_nat 300) (of_nat 150)
          [ {| entry_n := dec 50 0; entry_price := dec 5 0 |};
            {| entry_n := dec 100 0; entry_price := dec 7 0 |} ])).
Proof.
  apply (drawConvergence_within_padding 300 150).
  - lia.
  - vm_compute. reflexivity.
  - lia.
  - vm_compute. reflexivity.
  - vm_compute. reflexivity.
  - intros entry [<-|[<-|[]]]; vm_compute; repeat split; reflexivity.
Defined.
